(** * Eisenhower matrix: the board store and its persistence

    A shallow embedding of [src/components/Eisenhower-Matrix/EisenhowerMatrix.tsx]:
    the board state, the six handlers that update it, the two functions that
    talk to [localStorage], and the two effects that order loading and saving. *)

From Stdlib Require Import String Ascii List ZArith NArith Lia Bool.
Import ListNotations.
Local Open Scope list_scope.

(** ** JavaScript strings

    A JavaScript string is a sequence of UTF-16 code units.  [js] writes the
    ASCII literals of the source. *)

Abbreviation jsstring := (list N) (only parsing).

Definition js (s : string) : jsstring :=
  map N_of_ascii (list_ascii_of_string s).

Fixpoint str_eqb (a b : jsstring) : bool :=
  match a, b with
  | [], [] => true
  | x :: a', y :: b' => N.eqb x y && str_eqb a' b'
  | _, _ => false
  end.

(** A string is truthy when it is not empty. *)
Definition str_truthy (s : jsstring) : bool :=
  match s with [] => false | _ :: _ => true end.

(** [String.prototype.trim] strips WhiteSpace and LineTerminator code points
    from both ends: TAB, LF, VT, FF, CR, SP, NBSP, the Zs category, LS, PS and
    the byte order mark. *)
Definition is_space (c : N) : bool :=
  ((9 <=? c) && (c <=? 13) || (c =? 32) || (c =? 160) || (c =? 5760)
   || (8192 <=? c) && (c <=? 8202) || (c =? 8232) || (c =? 8233)
   || (c =? 8239) || (c =? 8287) || (c =? 12288) || (c =? 65279))%N.

Fixpoint trimStart (s : jsstring) : jsstring :=
  match s with
  | c :: s' => if is_space c then trimStart s' else s
  | [] => []
  end.

Definition trimEnd (s : jsstring) : jsstring := rev (trimStart (rev s)).

Definition trim (s : jsstring) : jsstring := trimEnd (trimStart s).

(** ** The data model *)

Inductive QuadrantKey := Do | Schedule | Delegate | Eliminate.

Definition QuadrantKey_eqb (a b : QuadrantKey) : bool :=
  match a, b with
  | Do, Do | Schedule, Schedule | Delegate, Delegate | Eliminate, Eliminate => true
  | _, _ => false
  end.

(** [notes] and [dueDate] are optional: [None] stands for a property that is
    missing or holds [undefined]; no read in the source tells the two apart. *)
Record Task := mkTask {
  id : jsstring;
  title : jsstring;
  notes : option jsstring;
  done : bool;
  createdAt : Z;
  dueDate : option jsstring
}.

Record BoardState := mkBoard {
  do : list Task;
  schedule : list Task;
  delegate : list Task;
  eliminate : list Task
}.

(** [prev[q]] *)
Definition get (b : BoardState) (q : QuadrantKey) : list Task :=
  match q with
  | Do => do b
  | Schedule => schedule b
  | Delegate => delegate b
  | Eliminate => eliminate b
  end.

(** [{ ...prev, [q]: ts }] *)
Definition put (b : BoardState) (q : QuadrantKey) (ts : list Task) : BoardState :=
  match q with
  | Do => mkBoard ts (schedule b) (delegate b) (eliminate b)
  | Schedule => mkBoard (do b) ts (delegate b) (eliminate b)
  | Delegate => mkBoard (do b) (schedule b) ts (eliminate b)
  | Eliminate => mkBoard (do b) (schedule b) (delegate b) ts
  end.

Definition emptyBoard : BoardState := mkBoard [] [] [] [].

(** [Partial<Task>]: each field is either not named ([None]) or named with a
    value; an optional field can be named with the value [undefined]. *)
Record Patch := mkPatch {
  p_id : option jsstring;
  p_title : option jsstring;
  p_notes : option (option jsstring);
  p_done : option bool;
  p_createdAt : option Z;
  p_dueDate : option (option jsstring)
}.

Definition named {A} (field : option A) (old : A) : A :=
  match field with Some v => v | None => old end.

(** [{ ...t, ...patch }] *)
Definition spread (t : Task) (patch : Patch) : Task :=
  mkTask (named (p_id patch) (id t))
         (named (p_title patch) (title t))
         (named (p_notes patch) (notes t))
         (named (p_done patch) (done t))
         (named (p_createdAt patch) (createdAt t))
         (named (p_dueDate patch) (dueDate t)).

(** ** [uid]

    [Math.random().toString(16).slice(2) + "-" + Date.now().toString(16)].
    The two readings of the outside world are arguments: [random16] is the
    text of [Math.random().toString(16)], [now] the clock in milliseconds. *)

Definition hex_digit (d : N) : N :=
  (if d <? 10 then 48 + d else 87 + d)%N.

Fixpoint hex_pos (fuel : nat) (n : N) (acc : jsstring) : jsstring :=
  match fuel with
  | O => acc
  | S fuel' =>
      let acc' := hex_digit (n mod 16) :: acc in
      if (n <? 16)%N then acc' else hex_pos fuel' (n / 16) acc'
  end.

(** [Number.prototype.toString(16)] on an integer. *)
Definition toString16 (z : Z) : jsstring :=
  let digits := hex_pos (S (N.to_nat (N.log2 (Z.abs_N z)))) (Z.abs_N z) [] in
  if (z <? 0)%Z then 45%N :: digits else digits.

(** [s.slice(2)] *)
Definition slice2 (s : jsstring) : jsstring := skipn 2 s.

Definition uid (random16 : jsstring) (now : Z) : jsstring :=
  slice2 random16 ++ js "-" ++ toString16 now.

(** What one call of [addTask] reads from outside: the random number behind
    the id and the clock, read once in [uid] and once for [createdAt]. *)
Record World := mkWorld {
  random16 : jsstring;
  now_uid : Z;
  now_created : Z
}.

(** ** The handlers

    A handler either leaves the board object in place ([None]: it returns
    before [setBoard], or its updater returns [prev] itself) or installs a new
    board object. *)

Definition Handler := BoardState -> option BoardState.

Definition run (h : Handler) (prev : BoardState) : BoardState :=
  match h prev with Some b => b | None => prev end.

Definition addTask (w : World) (q : QuadrantKey) (title : jsstring)
    (notes dueDate : option jsstring) : Handler := fun prev =>
  let clean := trim title in
  if negb (str_truthy clean) then None else
  let task :=
    {| id := uid (random16 w) (now_uid w);
       title := clean;
       notes := match notes with
                | Some n => if str_truthy (trim n) then Some (trim n) else None
                | None => None
                end;
       dueDate := match dueDate with
                  | Some d => if str_truthy d then Some d else None
                  | None => None
                  end;
       done := false;
       createdAt := now_created w |} in
  Some (put prev q (task :: get prev q)).

Definition updateTask (q : QuadrantKey) (taskId : jsstring) (patch : Patch)
    : Handler := fun prev =>
  Some (put prev q
          (map (fun t => if str_eqb (id t) taskId then spread t patch else t)
               (get prev q))).

Definition deleteTask (q : QuadrantKey) (taskId : jsstring) : Handler :=
  fun prev =>
  Some (put prev q (filter (fun t => negb (str_eqb (id t) taskId)) (get prev q))).

Definition clearCompleted (q : QuadrantKey) : Handler := fun prev =>
  Some (put prev q (filter (fun t => negb (done t)) (get prev q))).

Definition moveTask (from to : QuadrantKey) (taskId : jsstring) : Handler :=
  fun prev =>
  if QuadrantKey_eqb from to then None else
  match find (fun t => str_eqb (id t) taskId) (get prev from) with
  | None => None
  | Some task =>
      let from' := filter (fun t => negb (str_eqb (id t) taskId)) (get prev from) in
      let to' := task :: get prev to in
      Some (put (put prev from from') to to')
  end.

(** [confirmReset], as far as the board goes. *)
Definition resetAll : Handler := fun _ => Some emptyBoard.

(** [saveEdit] of a task row showing task [t] of quadrant [q]. *)
Definition saveEdit (q : QuadrantKey) (t : Task)
    (draftTitle draftNotes draftDue : jsstring) : Handler := fun prev =>
  let clean := trim draftTitle in
  if negb (str_truthy clean) then None else
  updateTask q (id t)
    {| p_id := None;
       p_title := Some clean;
       p_notes := Some (if str_truthy (trim draftNotes)
                        then Some (trim draftNotes) else None);
       p_done := None;
       p_createdAt := None;
       p_dueDate := Some (if str_truthy draftDue then Some draftDue else None) |}
    prev.

(** The checkbox of a task row: [onUpdate(q, t.id, { done: checked })]. *)
Definition toggleDone (q : QuadrantKey) (t : Task) (checked : bool) : Handler :=
  updateTask q (id t)
    {| p_id := None; p_title := None; p_notes := None;
       p_done := Some checked; p_createdAt := None; p_dueDate := None |}.

(** ** JavaScript values and JSON

    The values [JSON.parse] can return.  An object is its properties in
    insertion order (the integer-like keys that JavaScript lists first do not
    occur in a board).  A number [JNum m e] is the decimal [m * 10^e] that
    its literal denotes; rounding to a double is not modelled, except where
    the source can see it: [num_truthy] tells whether the double is zero. *)

Unset Elimination Schemes.
Inductive jsval :=
| JNull
| JBool (b : bool)
| JNum (m e : Z)
| JStr (s : jsstring)
| JArr (items : list jsval)
| JObj (props : list (jsstring * jsval)).
Set Elimination Schemes.

(** The code unit of a one-character literal. *)
Definition ch (s : string) : N :=
  match s with
  | String a _ => N_of_ascii a
  | EmptyString => 0%N
  end.

(** A decimal is a non-zero double unless it is zero or rounds to zero, that
    is, unless it is at most [2^-1075] in magnitude. *)
Definition num_truthy (m e : Z) : bool :=
  (negb (m =? 0) && ((0 <=? e) || (10 ^ (- e) <? Z.abs m * 2 ^ 1075)))%Z.

(** [ToBoolean].  [None] is [undefined]. *)
Definition truthy (v : option jsval) : bool :=
  match v with
  | None => false
  | Some JNull => false
  | Some (JBool b) => b
  | Some (JNum m e) => num_truthy m e
  | Some (JStr s) => str_truthy s
  | Some (JArr _) => true
  | Some (JObj _) => true
  end.

Fixpoint lookup (k : jsstring) (props : list (jsstring * jsval)) : option jsval :=
  match props with
  | [] => None
  | (k', v) :: props' => if str_eqb k' k then Some v else lookup k props'
  end.

(** Defining a property: an existing key keeps its place and takes the new
    value, a new key goes last. *)
Fixpoint set_prop (props : list (jsstring * jsval)) (kv : jsstring * jsval)
    : list (jsstring * jsval) :=
  match props with
  | [] => [kv]
  | (k', v') :: props' =>
      if str_eqb k' (fst kv) then (k', snd kv) :: props'
      else (k', v') :: set_prop props' kv
  end.

(** *** [JSON.stringify] *)

Fixpoint dec_pos (fuel : nat) (n : N) (acc : jsstring) : jsstring :=
  match fuel with
  | O => acc
  | S fuel' =>
      let acc' := (48 + n mod 10)%N :: acc in
      if (n <? 10)%N then acc' else dec_pos fuel' (n / 10) acc'
  end.

(** The decimal digits of a natural number. *)
Definition print_nat (n : N) : jsstring :=
  dec_pos (S (N.to_nat (N.log2 n))) n [].

(** An integer prints as its decimal digits, which is [Number::toString] on
    the integers a board holds ([createdAt] is a reading of the clock, an
    integer below [2^53]); an exponent, if any, follows after [e].  On other
    decimals JavaScript writes the shortest decimal of the double they round
    to, with an exponent from [1e+21] on, and [null] beyond the doubles:
    there the text and, beyond the doubles, the value read back differ from
    what is written here. *)
Definition print_number (m e : Z) : jsstring :=
  (if (m <? 0)%Z then [ch "-"] else []) ++ print_nat (Z.abs_N m) ++
  (if (e =? 0)%Z then []
   else ch "e" :: (if (e <? 0)%Z then [ch "-"] else []) ++ print_nat (Z.abs_N e)).

Definition is_high_surrogate (c : N) : bool := ((55296 <=? c) && (c <=? 56319))%N.
Definition is_low_surrogate (c : N) : bool := ((56320 <=? c) && (c <=? 57343))%N.

(** The two-character escapes of [QuoteJSONString]. *)
Definition short_escape (c : N) : option N :=
  (if c =? 8 then Some (ch "b")
   else if c =? 9 then Some (ch "t")
   else if c =? 10 then Some (ch "n")
   else if c =? 12 then Some (ch "f")
   else if c =? 13 then Some (ch "r")
   else if c =? 34 then Some 34
   else if c =? 92 then Some 92
   else None)%N.

(** [\uXXXX], in lower case. *)
Definition unicode_escape (c : N) : jsstring :=
  [92; ch "u"; hex_digit (c / 4096 mod 16); hex_digit (c / 256 mod 16);
   hex_digit (c / 16 mod 16); hex_digit (c mod 16)]%N.

(** The characters of a quoted string: control characters and lone
    surrogates are escaped, a surrogate pair is copied. *)
Fixpoint quote_chars (s : jsstring) : jsstring :=
  match s with
  | [] => []
  | c :: r =>
      match short_escape c with
      | Some e => 92%N :: e :: quote_chars r
      | None =>
          if (c <? 32)%N then unicode_escape c ++ quote_chars r
          else if is_high_surrogate c then
            match r with
            | d :: r' =>
                if is_low_surrogate d then c :: d :: quote_chars r'
                else unicode_escape c ++ quote_chars r
            | [] => unicode_escape c
            end
          else if is_low_surrogate c then unicode_escape c ++ quote_chars r
          else c :: quote_chars r
      end
  end.

Definition quote (s : jsstring) : jsstring := 34%N :: quote_chars s ++ [34%N].

(** [parts.join(",")] *)
Fixpoint join (parts : list jsstring) : jsstring :=
  match parts with
  | [] => []
  | p :: parts' =>
      match parts' with
      | [] => p
      | _ :: _ => p ++ ch "," :: join parts'
      end
  end.

(** [JSON.stringify(v)], without indentation. *)
Fixpoint JSON_stringify (v : jsval) : jsstring :=
  match v with
  | JNull => js "null"
  | JBool true => js "true"
  | JBool false => js "false"
  | JNum m e => print_number m e
  | JStr s => quote s
  | JArr items => ch "[" :: join (map JSON_stringify items) ++ [ch "]"]
  | JObj props =>
      ch "{" ::
      join (map (fun kv => quote (fst kv) ++ ch ":" :: JSON_stringify (snd kv)) props)
      ++ [ch "}"]
  end.

(** *** [JSON.parse] *)

Definition is_json_ws (c : N) : bool :=
  ((c =? 32) || (c =? 9) || (c =? 10) || (c =? 13))%N.

Fixpoint skip_ws (s : jsstring) : jsstring :=
  match s with
  | c :: r => if is_json_ws c then skip_ws r else s
  | [] => []
  end.

Fixpoint strip_prefix (lit s : jsstring) : option jsstring :=
  match lit with
  | [] => Some s
  | c :: lit' =>
      match s with
      | d :: s' => if (c =? d)%N then strip_prefix lit' s' else None
      | [] => None
      end
  end.

Definition is_digit (c : N) : bool := ((48 <=? c) && (c <=? 57))%N.

Definition hex_value (c : N) : option N :=
  (if is_digit c then Some (c - 48)
   else if (97 <=? c) && (c <=? 102) then Some (c - 87)
   else if (65 <=? c) && (c <=? 70) then Some (c - 55)
   else None)%N.

Definition hex4 (h1 h2 h3 h4 : N) : option N :=
  match hex_value h1, hex_value h2, hex_value h3, hex_value h4 with
  | Some a, Some b, Some c, Some d => Some (((a * 16 + b) * 16 + c) * 16 + d)%N
  | _, _, _, _ => None
  end.

Definition unescape (e : N) : option N :=
  (if e =? 34 then Some 34
   else if e =? 92 then Some 92
   else if e =? ch "/" then Some (ch "/")
   else if e =? ch "b" then Some 8
   else if e =? ch "f" then Some 12
   else if e =? ch "n" then Some 10
   else if e =? ch "r" then Some 13
   else if e =? ch "t" then Some 9
   else None)%N.

Definition push {A} (c : N) (r : option (jsstring * A)) : option (jsstring * A) :=
  match r with
  | Some (s, rest) => Some (c :: s, rest)
  | None => None
  end.

(** The characters of a string up to its closing quote, and what follows. *)
Fixpoint parse_chars (s : jsstring) : option (jsstring * jsstring) :=
  match s with
  | [] => None
  | c :: r =>
      if (c =? 34)%N then Some ([], r)
      else if (c =? 92)%N then
        match r with
        | [] => None
        | e :: r1 =>
            if (e =? ch "u")%N then
              match r1 with
              | h1 :: h2 :: h3 :: h4 :: r2 =>
                  match hex4 h1 h2 h3 h4 with
                  | Some u => push u (parse_chars r2)
                  | None => None
                  end
              | _ => None
              end
            else
              match unescape e with
              | Some u => push u (parse_chars r1)
              | None => None
              end
        end
      else if (c <? 32)%N then None
      else push c (parse_chars r)
  end.

(** The longest run of digits at the front, and what follows. *)
Fixpoint digits (s : jsstring) : jsstring * jsstring :=
  match s with
  | c :: r =>
      if is_digit c then let (ds, r') := digits r in (c :: ds, r') else ([], s)
  | [] => ([], [])
  end.

Definition digits_value (ds : jsstring) : N :=
  fold_left (fun a c => (10 * a + (c - 48))%N) ds 0%N.

(** [eat c s]: whether [s] starts with [c], and [s] without it if so. *)
Definition eat (c : N) (s : jsstring) : bool * jsstring :=
  match s with
  | d :: r => if (d =? c)%N then (true, r) else (false, s)
  | [] => (false, s)
  end.

(** A fraction: a point and at least one digit, or nothing. *)
Definition parse_frac (s : jsstring) : option (jsstring * jsstring) :=
  let (point, r) := eat (ch ".") s in
  if point then
    let (fs, r') := digits r in
    match fs with
    | [] => None
    | _ :: _ => Some (fs, r')
    end
  else Some ([], s).

(** An exponent: [e] or [E], a sign or none, at least one digit; or
    nothing. *)
Definition parse_exp (s : jsstring) : option (Z * jsstring) :=
  match s with
  | c :: r =>
      if (c =? ch "e")%N || (c =? ch "E")%N then
        let (minus, r1) := eat (ch "-") r in
        let (plus, r2) := if minus then (false, r1) else eat (ch "+") r in
        let (es, r3) := digits r2 in
        match es with
        | [] => None
        | _ :: _ =>
            let x := Z.of_N (digits_value es) in
            Some (if minus then (- x)%Z else x, r3)
        end
      else Some (0%Z, s)
  | [] => Some (0%Z, s)
  end.

(** A number: sign, integer part without a leading zero, fraction, exponent.
    (A digit after a leading zero ends the literal in the grammar and is an
    error at whatever follows; it is refused here.) *)
Definition parse_number (s : jsstring) : option (Z * Z * jsstring) :=
  let (neg, s1) := eat (ch "-") s in
  let (int, s2) := digits s1 in
  match int with
  | [] => None
  | d :: int' =>
      if (d =? 48)%N && str_truthy int' then None else
      match parse_frac s2 with
      | None => None
      | Some (frac, s3) =>
          match parse_exp s3 with
          | None => None
          | Some (x, s4) =>
              let mag := Z.of_N (digits_value (int ++ frac)) in
              Some (if neg then (- mag)%Z else mag,
                    (x - Z.of_nat (length frac))%Z, s4)
          end
      end
  end.

(** Recursive descent.  The fuel goes down by one at each call; twice the
    length of the input and one is enough for every input, since a call takes
    at least one character before it makes two nested calls. *)
Fixpoint parse_value (fuel : nat) (s : jsstring) : option (jsval * jsstring) :=
  match fuel with
  | O => None
  | S fuel' =>
      match skip_ws s with
      | [] => None
      | c :: r =>
          if (c =? ch "{")%N then
            match skip_ws r with
            | d :: r' =>
                if (d =? ch "}")%N then Some (JObj [], r')
                else
                  match parse_members fuel' r with
                  | Some (ms, r'') => Some (JObj (fold_left set_prop ms []), r'')
                  | None => None
                  end
            | [] => None
            end
          else if (c =? ch "[")%N then
            match skip_ws r with
            | d :: r' =>
                if (d =? ch "]")%N then Some (JArr [], r')
                else
                  match parse_elements fuel' r with
                  | Some (vs, r'') => Some (JArr vs, r'')
                  | None => None
                  end
            | [] => None
            end
          else if (c =? 34)%N then
            match parse_chars r with
            | Some (str, r') => Some (JStr str, r')
            | None => None
            end
          else
            match strip_prefix (js "null") (c :: r) with
            | Some r' => Some (JNull, r')
            | None =>
            match strip_prefix (js "true") (c :: r) with
            | Some r' => Some (JBool true, r')
            | None =>
            match strip_prefix (js "false") (c :: r) with
            | Some r' => Some (JBool false, r')
            | None =>
            match parse_number (c :: r) with
            | Some (m, e, r') => Some (JNum m e, r')
            | None => None
            end end end end
      end
  end
with parse_elements (fuel : nat) (s : jsstring) : option (list jsval * jsstring) :=
  match fuel with
  | O => None
  | S fuel' =>
      match parse_value fuel' s with
      | None => None
      | Some (v, r) =>
          match skip_ws r with
          | [] => None
          | c :: r' =>
              if (c =? ch ",")%N then
                match parse_elements fuel' r' with
                | Some (vs, r'') => Some (v :: vs, r'')
                | None => None
                end
              else if (c =? ch "]")%N then Some ([v], r')
              else None
          end
      end
  end
with parse_members (fuel : nat) (s : jsstring)
    : option (list (jsstring * jsval) * jsstring) :=
  match fuel with
  | O => None
  | S fuel' =>
      match skip_ws s with
      | [] => None
      | q :: r =>
          if negb (q =? 34)%N then None else
          match parse_chars r with
          | None => None
          | Some (k, r1) =>
              match skip_ws r1 with
              | [] => None
              | c :: r2 =>
                  if negb (c =? ch ":")%N then None else
                  match parse_value fuel' r2 with
                  | None => None
                  | Some (v, r3) =>
                      match skip_ws r3 with
                      | [] => None
                      | c' :: r4 =>
                          if (c' =? ch ",")%N then
                            match parse_members fuel' r4 with
                            | Some (ms, r5) => Some ((k, v) :: ms, r5)
                            | None => None
                            end
                          else if (c' =? ch "}")%N then Some ([(k, v)], r4)
                          else None
                      end
                  end
              end
          end
      end
  end.

(** The outcome of a call that can throw. *)
Inductive completion (A : Type) :=
| Normal (a : A)
| Throw.
Arguments Normal {A} a.
Arguments Throw {A}.

Definition bind {A B} (c : completion A) (k : A -> completion B) : completion B :=
  match c with
  | Normal a => k a
  | Throw => Throw
  end.

Notation "x <- c ;; k" := (bind c (fun x => k))
  (at level 61, c at next level, right associativity).

(** [try { body } catch { return fallback }] *)
Definition try_catch {A} (body : completion A) (fallback : A) : A :=
  match body with
  | Normal a => a
  | Throw => fallback
  end.

(** [JSON.parse(text)]: one value between white space, or a [SyntaxError]. *)
Definition JSON_parse (text : jsstring) : completion jsval :=
  match parse_value (2 * length text + 1) text with
  | Some (v, rest) =>
      match skip_ws rest with
      | [] => Normal v
      | _ :: _ => Throw
      end
  | None => Throw
  end.

(** ** A board as a JavaScript value *)

Definition optional (k : string) (v : option jsstring) : list (jsstring * jsval) :=
  match v with
  | Some s => [(js k, JStr s)]
  | None => []
  end.

(** The task object, with its properties in the order [addTask] writes them.
    A property that holds [undefined] is left out, as [JSON.stringify]
    does. *)
Definition value_of_task (t : Task) : jsval :=
  JObj ([(js "id", JStr (id t)); (js "title", JStr (title t))]
        ++ optional "notes" (notes t)
        ++ optional "dueDate" (dueDate t)
        ++ [(js "done", JBool (done t)); (js "createdAt", JNum (createdAt t) 0)]).

Definition value_of_board (b : BoardState) : jsval :=
  JObj [(js "do", JArr (map value_of_task (do b)));
        (js "schedule", JArr (map value_of_task (schedule b)));
        (js "delegate", JArr (map value_of_task (delegate b)));
        (js "eliminate", JArr (map value_of_task (eliminate b)))].

Definition key_name (q : QuadrantKey) : jsstring :=
  match q with
  | Do => js "do"
  | Schedule => js "schedule"
  | Delegate => js "delegate"
  | Eliminate => js "eliminate"
  end.

(** Reading a value at the declared types: [None] when it is not a board. *)

Definition as_string (v : option jsval) : option jsstring :=
  match v with
  | Some (JStr s) => Some s
  | _ => None
  end.

Definition as_optional_string (v : option jsval) : option (option jsstring) :=
  match v with
  | None => Some None
  | Some (JStr s) => Some (Some s)
  | Some _ => None
  end.

Definition as_boolean (v : option jsval) : option bool :=
  match v with
  | Some (JBool b) => Some b
  | _ => None
  end.

Definition as_integer (v : option jsval) : option Z :=
  match v with
  | Some (JNum m e) =>
      if (0 <=? e)%Z then Some (m * 10 ^ e)%Z
      else if (m mod 10 ^ (- e) =? 0)%Z then Some (m / 10 ^ (- e))%Z
      else None
  | _ => None
  end.

Definition as_task (v : jsval) : option Task :=
  match v with
  | JObj props =>
      match as_string (lookup (js "id") props),
            as_string (lookup (js "title") props),
            as_optional_string (lookup (js "notes") props),
            as_boolean (lookup (js "done") props),
            as_integer (lookup (js "createdAt") props),
            as_optional_string (lookup (js "dueDate") props) with
      | Some i, Some t, Some n, Some d, Some c, Some u => Some (mkTask i t n d c u)
      | _, _, _, _, _, _ => None
      end
  | _ => None
  end.

Fixpoint as_tasks (vs : list jsval) : option (list Task) :=
  match vs with
  | [] => Some []
  | v :: vs' =>
      match as_task v, as_tasks vs' with
      | Some t, Some ts => Some (t :: ts)
      | _, _ => None
      end
  end.

Definition as_task_array (v : option jsval) : option (list Task) :=
  match v with
  | Some (JArr vs) => as_tasks vs
  | _ => None
  end.

Definition as_board (v : jsval) : option BoardState :=
  match v with
  | JObj props =>
      match as_task_array (lookup (js "do") props),
            as_task_array (lookup (js "schedule") props),
            as_task_array (lookup (js "delegate") props),
            as_task_array (lookup (js "eliminate") props) with
      | Some a, Some b, Some c, Some d => Some (mkBoard a b c d)
      | _, _, _, _ => None
      end
  | _ => None
  end.

(** ** [localStorage]

    The component uses one key, [STORAGE_KEY].  The storage is the entry
    under that key, the number of code units the browser accepts for it, and
    whether the page may use the storage at all: when it may not, every call
    throws; a value that does not fit makes [setItem] throw. *)

Definition STORAGE_KEY : jsstring := js "eisenhower_matrix_v1".

Record Storage := mkStorage {
  entry : option jsstring;
  room : N;
  denied : bool
}.

Definition getItem (st : Storage) : completion (option jsstring) :=
  if denied st then Throw else Normal (entry st).

Definition setItem (st : Storage) (value : jsstring) : completion Storage :=
  if denied st then Throw
  else if (room st <? N.of_nat (length value))%N then Throw
  else Normal (mkStorage (Some value) (room st) (denied st)).

Definition removeItem (st : Storage) : completion Storage :=
  if denied st then Throw else Normal (mkStorage None (room st) (denied st)).

(** [parsed.do], [parsed.schedule], ...: reading a property of [null] throws;
    a primitive or an array has no property of these names. *)
Definition member (v : jsval) (q : QuadrantKey) : completion (option jsval) :=
  match v with
  | JNull => Throw
  | JObj props => Normal (lookup (key_name q) props)
  | _ => Normal None
  end.

Definition loadState (st : Storage) : option jsval :=
  try_catch
    (raw <- getItem st ;;
     match raw with
     | None => Normal None
     | Some text =>
         if negb (str_truthy text) then Normal None else
         parsed <- JSON_parse text ;;
         d <- member parsed Do ;;
         if negb (truthy d) then Normal None else
         s <- member parsed Schedule ;;
         if negb (truthy s) then Normal None else
         g <- member parsed Delegate ;;
         if negb (truthy g) then Normal None else
         e <- member parsed Eliminate ;;
         if negb (truthy e) then Normal None else
         Normal (Some parsed)
     end)
    None.

Definition saveState (state : jsval) (st : Storage) : Storage :=
  try_catch (setItem st (JSON_stringify state)) st.

(** ** The render

    What the render does with the board it is given.  It throws where the
    code calls a method that the value does not have or reads a property of
    [null], and where React refuses a key or a child of an element.  The
    component catches no error: when its render throws, React unmounts it,
    and the effects of that render do not run. *)

(** [t.done], [t.id], [t.title], [t.dueDate], [t.notes]: reading a property
    of [null] throws; a primitive or an array has no property of these
    names. *)
Definition read (v : jsval) (k : string) : completion (option jsval) :=
  match v with
  | JNull => Throw
  | JObj props => Normal (lookup (js k) props)
  | _ => Normal None
  end.

Definition ensure (ok : bool) : completion unit :=
  if ok then Normal tt else Throw.

(** [Object.keys(board).flatMap((k) => board[k])]: the elements of the
    properties that are arrays, and the other properties as they are. *)
Definition flatMap (props : list (jsstring * jsval)) : list jsval :=
  flat_map (fun kv => match snd kv with
                      | JArr items => items
                      | v => [v]
                      end) props.

(** [all.filter((t) => t.done)] and [tasks.filter((t) => t.done)]: the
    callback reads [t.done] of every element. *)
Fixpoint reads_done (l : list jsval) : completion unit :=
  match l with
  | [] => Normal tt
  | t :: l' => _ <- read t "done" ;; reads_done l'
  end.

(** React makes a string of a key, ['' + key].  That throws for an object
    with a property [toString] of its own: a parsed property is not
    callable, and the inherited [valueOf] returns the object.  An array is
    joined from the strings of its elements. *)
Fixpoint to_string_ok (v : jsval) : bool :=
  match v with
  | JObj props =>
      match lookup (js "toString") props with
      | Some _ => false
      | None => true
      end
  | JArr items => forallb to_string_ok items
  | _ => true
  end.

(** A value as a child of an element: a string or a number is text, a
    boolean or [null] is nothing, an array is its elements as children; on an
    object React throws. *)
Fixpoint child_ok (v : jsval) : bool :=
  match v with
  | JObj _ => false
  | JArr items => forallb child_ok items
  | _ => true
  end.

Definition child (v : option jsval) : completion unit :=
  match v with
  | Some v' => ensure (child_ok v')
  | None => Normal tt
  end.

(** [v ? <span>... {v}</span> : null] *)
Definition child_if_truthy (v : option jsval) : completion unit :=
  if truthy v then child v else Normal tt.

(** A task row: the element is made with [key={t.id}], and shows [t.title],
    and [t.dueDate] and [t.notes] when they are truthy.  [t.done] goes to the
    style and to [checked], which take any value. *)
Definition TaskRow (t : jsval) : completion unit :=
  key <- read t "id" ;;
  _ <- ensure (match key with
              | Some k => to_string_ok k
              | None => true
              end) ;;
  title <- read t "title" ;;
  _ <- child title ;;
  dueDate <- read t "dueDate" ;;
  _ <- child_if_truthy dueDate ;;
  notes <- read t "notes" ;;
  child_if_truthy notes.

(** [tasks.map((t) => <TaskRow key={t.id} task={t} ... />)] *)
Fixpoint rows (l : list jsval) : completion unit :=
  match l with
  | [] => Normal tt
  | t :: l' => _ <- TaskRow t ;; rows l'
  end.

(** A quadrant card: [tasks.filter((t) => t.done).length], a method that
    only an array has, then [tasks.length] and a row for each task. *)
Definition QuadrantCard (tasks : option jsval) : completion unit :=
  match tasks with
  | Some (JArr items) => _ <- reads_done items ;; rows items
  | _ => Throw
  end.

(** The render of the page: [totals], then the four cards.  On a value that
    is no object it throws: [Object.keys(null)] throws, and a primitive or an
    array has no property [do], so that [tasks.filter] throws in the first
    card. *)
Definition render (board : jsval) : completion unit :=
  match board with
  | JObj props =>
      _ <- reads_done (flatMap props) ;;
      _ <- QuadrantCard (lookup (js "do") props) ;;
      _ <- QuadrantCard (lookup (js "schedule") props) ;;
      _ <- QuadrantCard (lookup (js "delegate") props) ;;
      QuadrantCard (lookup (js "eliminate") props)
  | _ => Throw
  end.

(** ** The component: hydration and saving

    [board] and [hydrated] are the component's state; [accesses] lists,
    oldest first, the calls of [loadState], [saveState] and [removeItem]
    that the component made.  Before the component is mounted, and after a
    render that threw unmounted it, the state is the initial one: the empty
    board, not hydrated. *)

Inductive Access :=
| Load
| Save (state : jsval)
| Remove.

Record Component := mkComponent {
  board : jsval;
  hydrated : bool;
  storage : Storage;
  accesses : list Access
}.

Definition initial (st : Storage) : Component :=
  mkComponent (value_of_board emptyBoard) false st [].

(** The second effect, [if (!hydrated) return; saveState(board)], run with
    the state of the render it belongs to. *)
Definition save_effect (c : Component) : Component :=
  if negb (hydrated c) then c
  else mkComponent (board c) (hydrated c) (saveState (board c) (storage c))
         (accesses c ++ [Save (board c)]).

(** After a render that threw: the component and its state are gone, the
    storage and what was done to it stay.  Loading the page again is the
    next [Mount]. *)
Definition unmounted (c : Component) : Component :=
  mkComponent (value_of_board emptyBoard) false (storage c) (accesses c).

(** The render of the state that was just set and, when it goes through,
    the second effect, whose dependencies are [board] and [hydrated]. *)
Definition commit (c : Component) : Component :=
  match render (board c) with
  | Normal _ => save_effect c
  | Throw => unmounted c
  end.

(** What happens in the page.  [Mount]: after the first commit the two
    effects run in order with the state of the first render, the first one
    being [const loaded = loadState(); if (loaded) setBoard(loaded);
    setHydrated(true)]; then the state they set is rendered, and the second
    effect runs again if [board] or [hydrated] changed.  [Dispatch h]: a
    handler runs; if it installs a new board object the component renders
    again and the second effect runs.  (An updater that throws unmounts the
    component as a render that throws does.)  [Reset] is [confirmReset]:
    [setBoard(emptyBoard())], then [removeItem] inside [try], then the render
    and the second effect. *)
Inductive Event :=
| Mount
| Dispatch (h : jsval -> option jsval)
| Reset.

Definition mount (c : Component) : Component :=
  let loaded := loadState (storage c) in
  let c1 := mkComponent (board c) (hydrated c) (storage c) (accesses c ++ [Load]) in
  let c2 := save_effect c1 in
  let next := match loaded with
              | Some v => if truthy loaded then v else board c
              | None => board c
              end in
  let c3 := mkComponent next true (storage c2) (accesses c2) in
  if truthy loaded || negb (hydrated c) then commit c3 else c3.

Definition dispatch (h : jsval -> option jsval) (c : Component) : Component :=
  match h (board c) with
  | None => c
  | Some v => commit (mkComponent v (hydrated c) (storage c) (accesses c))
  end.

Definition confirmReset (c : Component) : Component :=
  commit
    (mkComponent (value_of_board emptyBoard) (hydrated c)
       (try_catch (removeItem (storage c)) (storage c))
       (accesses c ++ [Remove])).

Definition step (c : Component) (e : Event) : Component :=
  match e with
  | Mount => mount c
  | Dispatch h => dispatch h c
  | Reset => confirmReset c
  end.

Definition steps (es : list Event) (c : Component) : Component :=
  fold_left step es c.

(** ** Sequences of operations *)

(** One call of an operation of the store, with its arguments. *)
Inductive Action :=
| AddTask (w : World) (q : QuadrantKey) (title : jsstring)
    (notes dueDate : option jsstring)
| UpdateTask (q : QuadrantKey) (taskId : jsstring) (patch : Patch)
| DeleteTask (q : QuadrantKey) (taskId : jsstring)
| ClearCompleted (q : QuadrantKey)
| MoveTask (from to : QuadrantKey) (taskId : jsstring)
| ResetAll.

Definition perform (a : Action) : Handler :=
  match a with
  | AddTask w q title notes dueDate => addTask w q title notes dueDate
  | UpdateTask q taskId patch => updateTask q taskId patch
  | DeleteTask q taskId => deleteTask q taskId
  | ClearCompleted q => clearCompleted q
  | MoveTask from to taskId => moveTask from to taskId
  | ResetAll => resetAll
  end.

(** The board after a sequence of calls, first call first. *)
Definition perform_all (acts : list Action) (b : BoardState) : BoardState :=
  fold_left (fun b a => run (perform a) b) acts b.

(** The boards the operations can produce from the empty board. *)
Inductive reachable : BoardState -> Prop :=
| reachable_empty : reachable emptyBoard
| reachable_step b a : reachable b -> reachable (run (perform a) b).

(** [Object.keys(board).flatMap(k => board[k])] *)
Definition all_tasks (b : BoardState) : list Task :=
  do b ++ schedule b ++ delegate b ++ eliminate b.

(** [totals]: the number of tasks and the number of done tasks. *)
Definition totals (b : BoardState) : nat * nat :=
  (length (all_tasks b), length (filter done (all_tasks b))).

(** The ids on the board, quadrant after quadrant. *)
Definition ids (b : BoardState) : list jsstring := map id (all_tasks b).

(** A call that cannot clash with an id on the board: an [addTask] that adds
    a task draws an id no task holds, and a patch does not name [id]. *)
Definition keeps_ids (b : BoardState) (a : Action) : Prop :=
  match a with
  | AddTask w _ title _ _ =>
      trim title = [] \/ ~ In (uid (random16 w) (now_uid w)) (ids b)
  | UpdateTask _ _ patch => p_id patch = None
  | _ => True
  end.

Inductive reachable_keeping_ids : BoardState -> Prop :=
| keeping_empty : reachable_keeping_ids emptyBoard
| keeping_step b a :
    reachable_keeping_ids b -> keeps_ids b a ->
    reachable_keeping_ids (run (perform a) b).

(** What the user can do to the board through the page. *)
Inductive Gesture :=
| Submit (w : World) (q : QuadrantKey) (title notes dueDate : jsstring)
    (showNotes : bool)
| SaveEdit (q : QuadrantKey) (t : Task) (draftTitle draftNotes draftDue : jsstring)
| Check (q : QuadrantKey) (t : Task) (checked : bool)
| Delete (q : QuadrantKey) (t : Task)
| ClearDone (q : QuadrantKey)
| Move (from to : QuadrantKey) (taskId : jsstring)
| ConfirmReset.

(** [submit] of a quadrant card:
    [onAdd(q, title, showNotes ? notes : undefined, dueDate || undefined)]. *)
Definition submit (w : World) (q : QuadrantKey) (title notes dueDate : jsstring)
    (showNotes : bool) : Handler :=
  addTask w q title
    (if showNotes then Some notes else None)
    (if str_truthy dueDate then Some dueDate else None).

Definition handle (g : Gesture) : Handler :=
  match g with
  | Submit w q title notes dueDate showNotes => submit w q title notes dueDate showNotes
  | SaveEdit q t draftTitle draftNotes draftDue =>
      saveEdit q t draftTitle draftNotes draftDue
  | Check q t checked => toggleDone q t checked
  | Delete q t => deleteTask q (id t)
  | ClearDone q => clearCompleted q
  | Move from to taskId => moveTask from to taskId
  | ConfirmReset => resetAll
  end.

Inductive reachable_by_gestures : BoardState -> Prop :=
| gestures_empty : reachable_by_gestures emptyBoard
| gestures_step b g :
    reachable_by_gestures b -> reachable_by_gestures (run (handle g) b).

(** A stored title is its own trimmed form and is not empty. *)
Definition title_ok (t : Task) : Prop :=
  trim (title t) = title t /\ title t <> [].

(** [whitespace_only s]: [s] is empty or made of white space. *)
Definition whitespace_only (s : jsstring) : Prop := Forall (fun c => is_space c = true) s.

(** ** Values that JSON can carry *)

(** No object of the value has two properties of one name. *)
Fixpoint well_keyed (v : jsval) : Prop :=
  match v with
  | JArr items => fold_right and True (map well_keyed items)
  | JObj props =>
      NoDup (map fst props) /\
      fold_right and True (map (fun kv => well_keyed (snd kv)) props)
  | _ => True
  end.

(** The property of a parsed value under a quadrant key, [None] when the
    value has none. *)
Definition property (v : jsval) (q : QuadrantKey) : option jsval :=
  match v with
  | JObj props => lookup (key_name q) props
  | _ => None
  end.

(** The four quadrant properties are all truthy. *)
Definition shape_ok (v : jsval) : bool :=
  truthy (property v Do) && truthy (property v Schedule) &&
  truthy (property v Delegate) && truthy (property v Eliminate).

(** Every [Save] in a list of accesses comes after a [Load]. *)
Definition saves_follow_load (l : list Access) : Prop :=
  forall before state after, l = before ++ Save state :: after -> In Load before.

(** ** Sample data *)

(** Two readings of the random source and the clock, half a second apart. *)
Definition world1 : World := mkWorld (js "0.8c3f1a") 1700000000000 1700000000000.
Definition world2 : World := mkWorld (js "0.1b22e7") 1700000000500 1700000000500.

Definition id1 : jsstring := uid (random16 world1) (now_uid world1).
Definition id2 : jsstring := uid (random16 world2) (now_uid world2).

(** The board after "Call dentist" and then "Buy milk" were added to Do. *)
Definition two_tasks : BoardState :=
  perform_all
    [AddTask world1 Do (js "Call dentist") None None;
     AddTask world2 Do (js " Buy milk ") (Some (js "2 litres")) (Some (js "2025-01-01"))]
    emptyBoard.

Definition dentist : Task :=
  mkTask id1 (js "Call dentist") None false 1700000000000 None.

Definition milk : Task :=
  mkTask id2 (js "Buy milk") (Some (js "2 litres")) false 1700000000500
    (Some (js "2025-01-01")).

(** A patch that names the title only. *)
Definition title_patch (s : jsstring) : Patch :=
  mkPatch None (Some s) None None None None.

(** A patch that names the id only. *)
Definition id_patch (s : jsstring) : Patch :=
  mkPatch (Some s) None None None None None.

(** A patch that names the done flag only. *)
Definition done_patch (d : bool) : Patch :=
  mkPatch None None None (Some d) None None.

(** Two tasks added while the random source and the clock read the same. *)
Definition same_draw : BoardState :=
  perform_all
    [AddTask world1 Do (js "Call dentist") None None;
     AddTask world1 Schedule (js "Buy milk") None None]
    emptyBoard.

(** Three tasks added to Do, the first two while the random source and the
    clock read the same: "Buy milk" and "Call dentist" have one id. *)
Definition twins : BoardState :=
  perform_all
    [AddTask world1 Do (js "Call dentist") None None;
     AddTask world1 Do (js "Buy milk") None None;
     AddTask world2 Do (js "Pay rent") None None]
    emptyBoard.

Definition milk_twin : Task :=
  mkTask id1 (js "Buy milk") None false 1700000000000 None.

Definition rent : Task :=
  mkTask id2 (js "Pay rent") None false 1700000000500 None.

(** A task whose id is patched to the id of another task. *)
Definition patched_id : BoardState :=
  perform_all
    [AddTask world1 Do (js "Call dentist") None None;
     AddTask world2 Schedule (js "Buy milk") None None;
     UpdateTask Schedule id2 (id_patch id1)]
    emptyBoard.

(** The title of "Call dentist" patched to two spaces. *)
Definition blank_title : BoardState :=
  run (updateTask Do id1 (title_patch (js "  "))) two_tasks.

(** A JSON text written with single quotes in place of double quotes. *)
Definition json_text (s : string) : jsstring :=
  map (fun c => if (c =? 39)%N then 34%N else c) (js s).

(** A storage with room for five million code units, holding nothing. *)
Definition empty_storage : Storage := mkStorage None 5000000 false.

(** A storage that takes at most ten code units. *)
Definition full_storage : Storage := mkStorage None 10 false.

(** A storage the page may not use. *)
Definition denied_storage : Storage := mkStorage None 5000000 true.

(** A storage that holds [text]. *)
Definition holding (text : jsstring) : Storage := mkStorage (Some text) 5000000 false.

(** A stored text that passes the shape check of [loadState] and is no board. *)
Definition not_a_board : jsstring :=
  json_text "{'do':1,'schedule':'later','delegate':true,'eliminate':{}}".

(** A stored text in which the key [delegate] is bound to [null]. *)
Definition null_quadrant : jsstring :=
  json_text "{'do':[],'schedule':[],'delegate':null,'eliminate':[]}".

(** A stored text in which the key [do] is bound to zero. *)
Definition zero_quadrant : jsstring :=
  json_text "{'do':0,'schedule':[],'delegate':[],'eliminate':[]}".

(** A stored text in which the key [schedule] is bound to the empty string. *)
Definition blank_quadrant : jsstring :=
  json_text "{'do':[],'schedule':'','delegate':[],'eliminate':[]}".

(** A stored text without the key [eliminate]. *)
Definition three_quadrants : jsstring :=
  json_text "{'do':[],'schedule':[],'delegate':[]}".

(** A stored text that is not JSON. *)
Definition broken_text : jsstring := json_text "{'do':[".

(** ** Predicates of the statements and proofs *)

(** The number of tasks of a list that have the id [x]. *)
Definition with_id (x : jsstring) (l : list Task) : nat :=
  length (filter (fun t => str_eqb (id t) x) l).

(** Ids are unique per quadrant and no id is in two quadrants. *)
Definition unique (b : BoardState) : Prop :=
  (forall q, NoDup (map id (get b q))) /\
  (forall q1 q2 x, q1 <> q2 ->
     In x (map id (get b q1)) -> ~ In x (map id (get b q2))).

(** Every title on the board is trimmed and not empty. *)
Definition titles_ok (b : BoardState) : Prop :=
  forall q t, In t (get b q) -> title_ok t.

(** Decimal digits, all of them. *)
Definition all_digits (ds : jsstring) : Prop := Forall (fun c => is_digit c = true) ds.

(** What may follow a number: not a digit, a point or an exponent mark. *)
Definition ends_number (rest : jsstring) : Prop :=
  match rest with
  | [] => True
  | c :: _ => is_digit c = false /\ c <> ch "." /\ c <> ch "e" /\ c <> ch "E"
  end.

(** What may follow a value inside an array or an object, or at the end. *)
Definition ends_value (rest : jsstring) : Prop :=
  match rest with
  | [] => True
  | c :: _ => c = ch "," \/ c = ch "]" \/ c = ch "}"
  end.

(** The first character of a printed value. *)
Definition opens_value (c : N) : Prop :=
  c = ch "{" \/ c = ch "[" \/ c = 34%N \/ c = ch "n" \/ c = ch "t" \/
  c = ch "f" \/ c = ch "-" \/ is_digit c = true.

(** A printed value, followed by what may follow a value, reads back as the
    value and leaves what follows. *)
Definition reads_back (v : jsval) : Prop :=
  forall n rest,
    ends_value rest ->
    (2 * length (JSON_stringify v ++ rest) < n)%nat ->
    parse_value n (JSON_stringify v ++ rest) = Some (v, rest).

(** One property as [JSON_stringify] writes it. *)
Definition print_member (kv : jsstring * jsval) : jsstring :=
  quote (fst kv) ++ ch ":" :: JSON_stringify (snd kv).

(** A run that succeeds takes at least one character. *)
Definition consumes (n : nat) : Prop :=
  (forall s v rest, parse_value n s = Some (v, rest) ->
     (length rest < length s)%nat) /\
  (forall s vs rest, parse_elements n s = Some (vs, rest) ->
     (length rest < length s)%nat) /\
  (forall s ms rest, parse_members n s = Some (ms, rest) ->
     (length rest < length s)%nat).

(** A run that succeeds with fuel [m] succeeds, with the same result, with
    any fuel above twice the length of the input. *)
Definition fuel_enough (m : nat) : Prop :=
  (forall s res n, parse_value m s = Some res ->
     (2 * length s < n)%nat -> parse_value n s = Some res) /\
  (forall s res n, parse_elements m s = Some res ->
     (2 * length s + 1 < n)%nat -> parse_elements n s = Some res) /\
  (forall s res n, parse_members m s = Some res ->
     (2 * length s + 1 < n)%nat -> parse_members n s = Some res).

(** What holds of the component at every moment: saves come after a load,
    and the component is hydrated only after a load. *)
Definition ordered (c : Component) : Prop :=
  saves_follow_load (accesses c) /\
  (hydrated c = true -> In Load (accesses c)).


(** ** The quadrant card and the task row *)

(** [completedCount] of a quadrant card: [tasks.filter((t) => t.done).length].
    The "Clear done" button is disabled when it is zero. *)
Definition completedCount (tasks : list Task) : nat :=
  length (filter done tasks).

(** [v || ""] *)
Definition or_empty (v : option jsstring) : jsstring :=
  match v with
  | Some s => if str_truthy s then s else []
  | None => []
  end.

(** The drafts a task row opens its editor with: [t.title], [t.notes || ""]
    and [t.dueDate || ""]. *)
Definition draftTitle (t : Task) : jsstring := title t.
Definition draftNotes (t : Task) : jsstring := or_empty (notes t).
Definition draftDue (t : Task) : jsstring := or_empty (dueDate t).

(** [onDragStart] of a task row: the text it hands to the drag, 
    [JSON.stringify({ from: q, taskId: t.id })]. *)
Definition onDragStart (q : QuadrantKey) (t : Task) : jsstring :=
  JSON_stringify (JObj [(js "from", JStr (key_name q)); (js "taskId", JStr (id t))]).

(** [payload.from], [payload.taskId]: reading a property of [null] throws; a
    primitive or an array has no property of these names. *)
Definition field (v : jsval) (k : string) : completion (option jsval) :=
  match v with
  | JNull => Throw
  | JObj props => Normal (lookup (js k) props)
  | _ => Normal None
  end.

(** What [onDrop] of a quadrant card does with the text of the drag: nothing,
    or a call [onMove(from, q, taskId)] with what the payload holds. *)
Inductive Dropped :=
| Ignored
| Moves (from taskId : option jsval).

Definition onDrop (raw : jsstring) : Dropped :=
  if negb (str_truthy raw) then Ignored else
  try_catch
    (payload <- JSON_parse raw ;;
     from <- field payload "from" ;;
     taskId <- field payload "taskId" ;;
     Normal (Moves from taskId))
    Ignored.

(** ** Predicates of the further statements *)

(** The number a string of hexadecimal digits denotes. *)
Definition read_hex (ds : jsstring) : N :=
  fold_left (fun a c => (16 * a + match hex_value c with
                                  | Some d => d
                                  | None => 0
                                  end)%N) ds 0%N.

(** Notes are absent, or trimmed and not empty. *)
Definition notes_ok (t : Task) : Prop :=
  match notes t with
  | Some n => trim n = n /\ n <> []
  | None => True
  end.

(** A due date is absent or not empty. *)
Definition due_ok (t : Task) : Prop :=
  match dueDate t with
  | Some d => d <> []
  | None => True
  end.

(** On the whole board notes and due dates are absent or not blank. *)
Definition optional_ok (b : BoardState) : Prop :=
  forall q t, In t (get b q) -> notes_ok t /\ due_ok t.

(** The number of tasks of the board that satisfy [p]. *)
Definition count (p : Task -> bool) (b : BoardState) : nat :=
  length (filter p (all_tasks b)).

(** The clock as the gestures read it: a [Submit] whose clock reads [t] or
    later moves the mark past its reading, a [Submit] whose clock reads
    earlier is not on time, and the other gestures do not read the clock. *)
Definition tick (t : Z) (g : Gesture) : option Z :=
  match g with
  | Submit w _ _ _ _ _ =>
      if (t <=? now_uid w)%Z then Some (now_uid w + 1)%Z else None
  | _ => Some t
  end.

(** The boards the gestures produce from the empty board while the clock
    never reads the same millisecond for two submits; the index is a time
    later than every reading so far. *)
Inductive reachable_on_time : Z -> BoardState -> Prop :=
| on_time_empty t : (0 <= t)%Z -> reachable_on_time t emptyBoard
| on_time_step t t' b g :
    reachable_on_time t b -> tick t g = Some t' ->
    reachable_on_time t' (run (handle g) b).

(** Every id on the board was drawn at a time before [t]. *)
Definition stamped (t : Z) (b : BoardState) : Prop :=
  forall x, In x (ids b) ->
    exists r t0, x = uid r t0 /\ (0 <= t0 < t)%Z.

(** The text of the empty board. *)
Definition empty_text : jsstring := JSON_stringify (value_of_board emptyBoard).

(** The operation of the store that a gesture calls, if it calls one. *)
Definition called (g : Gesture) : option Action :=
  match g with
  | Submit w q title notes dueDate showNotes =>
      Some (AddTask w q title
              (if showNotes then Some notes else None)
              (if str_truthy dueDate then Some dueDate else None))
  | SaveEdit q t draftTitle draftNotes draftDue =>
      if negb (str_truthy (trim draftTitle)) then None else
      Some (UpdateTask q (id t)
              {| p_id := None;
                 p_title := Some (trim draftTitle);
                 p_notes := Some (if str_truthy (trim draftNotes)
                                  then Some (trim draftNotes) else None);
                 p_done := None;
                 p_createdAt := None;
                 p_dueDate := Some (if str_truthy draftDue
                                    then Some draftDue else None) |})
  | Check q t checked =>
      Some (UpdateTask q (id t)
              {| p_id := None; p_title := None; p_notes := None;
                 p_done := Some checked; p_createdAt := None;
                 p_dueDate := None |})
  | Delete q t => Some (DeleteTask q (id t))
  | ClearDone q => Some (ClearCompleted q)
  | Move from to taskId => Some (MoveTask from to taskId)
  | ConfirmReset => Some ResetAll
  end.

(** ** Values that are written back as they were read

    The values on which the decimals and the property lists of the model
    are what JavaScript holds: every number is an integer below [2^53] in
    magnitude, written without an exponent, so that it is a double and
    [JSON.stringify] writes its digits; and no property name is a string of
    digits, which JavaScript would list before the other names. *)




(** * Properties of the board store *)

(** ** Strings *)

Lemma str_eqb_eq (a b : jsstring) : str_eqb a b = true <-> a = b.
Proof.
  revert b; induction a as [|x a IH]; intros [|y b]; simpl; split;
    try congruence; try reflexivity.
  - intros H. apply andb_prop in H as [Hx Hab].
    apply N.eqb_eq in Hx. apply IH in Hab. congruence.
  - intros H. injection H as -> ->. rewrite N.eqb_refl. simpl. now apply IH.
Qed.

Lemma str_eqb_neq (a b : jsstring) : str_eqb a b = false <-> a <> b.
Proof.
  rewrite <- str_eqb_eq. destruct (str_eqb a b); split; congruence.
Qed.

Lemma str_eqb_refl (a : jsstring) : str_eqb a a = true.
Proof. now apply str_eqb_eq. Qed.

Lemma str_truthy_false (s : jsstring) : str_truthy s = false <-> s = [].
Proof. destruct s; simpl; split; congruence. Qed.

Lemma str_truthy_true (s : jsstring) : str_truthy s = true <-> s <> [].
Proof. destruct s; simpl; split; congruence. Qed.

(** [trimStart] cuts a run of white space and stops at the first other unit. *)
Lemma trimStart_split (s : jsstring) :
  exists sp, s = sp ++ trimStart s /\ whitespace_only sp.
Proof.
  induction s as [|c s IH]; simpl.
  - exists []. split; [reflexivity | constructor].
  - destruct (is_space c) eqn:Hc.
    + destruct IH as (sp & Hs & Hsp). exists (c :: sp). split.
      * simpl. now rewrite <- Hs.
      * now constructor.
    + exists []. split; [reflexivity | constructor].
Qed.

Lemma trimStart_fixed (c : N) (s : jsstring) :
  is_space c = false -> trimStart (c :: s) = c :: s.
Proof. intros H. simpl. now rewrite H. Qed.

Lemma trimStart_head (s : jsstring) :
  trimStart s = [] \/ exists c r, trimStart s = c :: r /\ is_space c = false.
Proof.
  induction s as [|c s IH]; simpl; [now left|].
  destruct (is_space c) eqn:Hc; [exact IH|]. right. now exists c, s.
Qed.

Lemma trimStart_idem (s : jsstring) : trimStart (trimStart s) = trimStart s.
Proof.
  destruct (trimStart_head s) as [-> | (c & r & -> & Hc)]; [reflexivity|].
  now apply trimStart_fixed.
Qed.

Lemma trimStart_spaces (sp : jsstring) :
  whitespace_only sp -> trimStart sp = [].
Proof. induction 1 as [|c sp Hc _ IH]; simpl; [reflexivity | now rewrite Hc]. Qed.

Lemma trimStart_app_spaces (sp s : jsstring) :
  whitespace_only sp -> trimStart (sp ++ s) = trimStart s.
Proof. induction 1 as [|c sp Hc _ IH]; simpl; [reflexivity | now rewrite Hc]. Qed.

(** Cutting white space at the end leaves the first unit in place. *)
Lemma trimEnd_keeps_head (c : N) (r : jsstring) :
  is_space c = false ->
  exists r', trimEnd (c :: r) = c :: r'.
Proof.
  intros Hc. unfold trimEnd.
  destruct (trimStart_split (rev (c :: r))) as (sp & Hs & Hsp).
  assert (Hrev : c :: r = rev (trimStart (rev (c :: r))) ++ rev sp).
  { rewrite <- rev_app_distr, <- Hs, rev_involutive. reflexivity. }
  destruct (rev (trimStart (rev (c :: r)))) as [|d t] eqn:Ht.
  - simpl in Hrev.
    assert (Hin : In c (rev sp)) by (rewrite <- Hrev; now left).
    apply in_rev in Hin. unfold whitespace_only in Hsp.
    rewrite Forall_forall in Hsp. apply Hsp in Hin. congruence.
  - simpl in Hrev. injection Hrev as <- _. now exists t.
Qed.

Lemma trimEnd_idem (s : jsstring) : trimEnd (trimEnd s) = trimEnd s.
Proof. unfold trimEnd. now rewrite rev_involutive, trimStart_idem. Qed.

Theorem trim_idem (s : jsstring) : trim (trim s) = trim s.
Proof.
  unfold trim.
  destruct (trimStart_head s) as [-> | (c & r & -> & Hc)]; [reflexivity|].
  destruct (trimEnd_keeps_head c r Hc) as (r' & Hr).
  rewrite Hr, (trimStart_fixed c r' Hc), <- Hr. apply trimEnd_idem.
Qed.

Lemma trim_whitespace_only (s : jsstring) : whitespace_only s -> trim s = [].
Proof. intros H. unfold trim. now rewrite (trimStart_spaces s H). Qed.

Lemma trim_empty_whitespace_only (s : jsstring) : trim s = [] -> whitespace_only s.
Proof.
  unfold trim, trimEnd. intros H.
  destruct (trimStart_split s) as (sp & Hs & Hsp).
  destruct (trimStart_split (rev (trimStart s))) as (sp' & Hs' & Hsp').
  assert (Hnil : trimStart (rev (trimStart s)) = []).
  { apply (f_equal (@rev N)) in H. now rewrite rev_involutive in H. }
  rewrite Hnil, app_nil_r in Hs'.
  rewrite Hs. apply Forall_app. split; [exact Hsp|].
  unfold whitespace_only in *. rewrite Forall_forall in *.
  intros x Hx. apply Hsp'. rewrite <- Hs'. now apply in_rev in Hx.
Qed.

(** ** Reading and replacing a quadrant *)

Lemma QuadrantKey_eqb_eq (a b : QuadrantKey) : QuadrantKey_eqb a b = true <-> a = b.
Proof. destruct a, b; simpl; split; congruence. Qed.

Lemma get_put_same (b : BoardState) (q : QuadrantKey) (ts : list Task) :
  get (put b q ts) q = ts.
Proof. now destruct q. Qed.

Lemma get_put_other (b : BoardState) (q q' : QuadrantKey) (ts : list Task) :
  q' <> q -> get (put b q ts) q' = get b q'.
Proof. destruct q, q'; simpl; congruence. Qed.

Lemma put_get (b : BoardState) (q : QuadrantKey) : put b q (get b q) = b.
Proof. now destruct b, q. Qed.

Lemma board_ext (b b' : BoardState) : (forall q, get b q = get b' q) -> b = b'.
Proof.
  intros H. destruct b, b'.
  pose proof (H Do). pose proof (H Schedule).
  pose proof (H Delegate). pose proof (H Eliminate). simpl in *. congruence.
Qed.

Lemma find_split (x : jsstring) (l : list Task) (task : Task) :
  find (fun t => str_eqb (id t) x) l = Some task ->
  exists l1 l2, l = l1 ++ task :: l2 /\ id task = x /\
                (forall u, In u l1 -> id u <> x).
Proof.
  induction l as [|t l IH]; simpl; [discriminate|].
  destruct (str_eqb (id t) x) eqn:Ht.
  - intros [= ->]. exists [], l. repeat split.
    + now apply str_eqb_eq.
    + intros u [].
  - intros H. destruct (IH H) as (l1 & l2 & -> & Hid & Hl1).
    exists (t :: l1), l2. repeat split; [exact Hid|].
    intros u [<- | Hu]; [now apply str_eqb_neq | now apply Hl1].
Qed.

Lemma find_absent (x : jsstring) (l : list Task) :
  (forall u, In u l -> id u <> x) -> find (fun t => str_eqb (id t) x) l = None.
Proof.
  induction l as [|t l IH]; simpl; intros H; [reflexivity|].
  assert (Ht : str_eqb (id t) x = false) by (apply str_eqb_neq, H; now left).
  rewrite Ht. apply IH. intros u Hu. apply H. now right.
Qed.

Lemma filter_absent (x : jsstring) (l : list Task) :
  (forall u, In u l -> id u <> x) ->
  filter (fun t => negb (str_eqb (id t) x)) l = l.
Proof.
  induction l as [|t l IH]; simpl; intros H; [reflexivity|].
  assert (Ht : str_eqb (id t) x = false) by (apply str_eqb_neq, H; now left).
  rewrite Ht. simpl. f_equal. apply IH. intros u Hu. apply H. now right.
Qed.

Lemma map_absent (x : jsstring) (p : Patch) (l : list Task) :
  (forall u, In u l -> id u <> x) ->
  map (fun t => if str_eqb (id t) x then spread t p else t) l = l.
Proof.
  induction l as [|t l IH]; simpl; intros H; [reflexivity|].
  assert (Ht : str_eqb (id t) x = false) by (apply str_eqb_neq, H; now left).
  rewrite Ht. f_equal. apply IH. intros u Hu. apply H. now right.
Qed.

(** ** [moveTask] *)

Lemma moveTask_first (b : BoardState) (f t : QuadrantKey) (x : jsstring)
    (l1 l2 : list Task) (first : Task) :
  f <> t ->
  get b f = l1 ++ first :: l2 -> id first = x ->
  (forall u, In u l1 -> id u <> x) ->
  run (moveTask f t x) b =
    put (put b f (l1 ++ filter (fun u => negb (str_eqb (id u) x)) l2)) t
        (first :: get b t).
Proof.
  intros Hft Hsplit Hid Hl1. unfold run, moveTask.
  assert (Hne : QuadrantKey_eqb f t = false).
  { destruct (QuadrantKey_eqb f t) eqn:E; [|reflexivity].
    apply QuadrantKey_eqb_eq in E. contradiction. }
  rewrite Hne, Hsplit.
  assert (Hfind : find (fun u => str_eqb (id u) x) (l1 ++ first :: l2) = Some first).
  { clear - Hid Hl1. induction l1 as [|a l1 IH]; simpl.
    - apply str_eqb_eq in Hid. now rewrite Hid.
    - assert (Ha : str_eqb (id a) x = false) by (apply str_eqb_neq, Hl1; now left).
      rewrite Ha. apply IH. intros u Hu. apply Hl1. now right. }
  rewrite Hfind, filter_app. cbn [filter].
  apply str_eqb_eq in Hid. rewrite Hid. cbn [negb].
  now rewrite (filter_absent x l1 Hl1).
Qed.

Lemma moveTask_found (b : BoardState) (f t : QuadrantKey) (x : jsstring)
    (l1 l2 : list Task) (task : Task) :
  f <> t ->
  get b f = l1 ++ task :: l2 -> id task = x ->
  (forall u, In u l1 -> id u <> x) ->
  (forall u, In u l2 -> id u <> x) ->
  run (moveTask f t x) b = put (put b f (l1 ++ l2)) t (task :: get b t).
Proof.
  intros Hft Hsplit Hid Hl1 Hl2.
  rewrite (moveTask_first b f t x l1 l2 task Hft Hsplit Hid Hl1).
  now rewrite (filter_absent x l2 Hl2).
Qed.

Lemma with_id_none (x : jsstring) (l : list Task) :
  with_id x l = 0 <-> (forall u, In u l -> id u <> x).
Proof.
  unfold with_id. induction l as [|a l IH]; simpl.
  - split; [intros _ u [] | reflexivity].
  - destruct (str_eqb (id a) x) eqn:E; simpl.
    + split; [discriminate|]. intros H. exfalso.
      apply (H a); [now left | now apply str_eqb_eq].
    + rewrite IH. split.
      * intros H u [<- | Hu]; [now apply str_eqb_neq | now apply H].
      * intros H u Hu. apply H. now right.
Qed.

Lemma with_id_app (x : jsstring) (l1 l2 : list Task) :
  with_id x (l1 ++ l2) = with_id x l1 + with_id x l2.
Proof. unfold with_id. now rewrite filter_app, length_app. Qed.

(** The only task of a list with its id is the first one that [find]
    meets, and no task after it has the id. *)
Lemma with_id_once (x : jsstring) (l l1 l2 : list Task) (task first : Task) :
  with_id x l = 1 -> In task l -> id task = x ->
  l = l1 ++ first :: l2 -> id first = x ->
  (forall u, In u l1 -> id u <> x) ->
  first = task /\ (forall u, In u l2 -> id u <> x).
Proof.
  intros Hone Hin Hid -> Hfid Hl1.
  assert (H2 : forall u, In u l2 -> id u <> x).
  { apply with_id_none.
    rewrite with_id_app in Hone.
    rewrite (proj2 (with_id_none x l1) Hl1) in Hone.
    unfold with_id in *. cbn [filter] in Hone.
    apply str_eqb_eq in Hfid. rewrite Hfid in Hone. cbn [length] in Hone. lia. }
  split; [|exact H2].
  apply in_app_or in Hin. destruct Hin as [Hin | [Heq | Hin]].
  - exfalso. now apply (Hl1 task).
  - exact Heq.
  - exfalso. now apply (H2 task).
Qed.

(** C1.  [moveTask f t x] leaves the board as it is when [f = t], and when
    [f <> t] and no task of quadrant [f] has id [x].  When [f <> t] and
    [task] is the one task of [f] with id [x], that task is taken out of [f],
    whose other tasks keep their order, the very same task is put in front
    of [t], and the other two quadrants are unchanged.  When several tasks
    of [f] have id [x], all of them are taken out of [f] and the first of
    them alone is put in front of [t]. *)
Theorem moveTask_spec (b : BoardState) (f t : QuadrantKey) (x : jsstring) :
  (f = t -> run (moveTask f t x) b = b) /\
  (f <> t -> (forall u, In u (get b f) -> id u <> x) ->
     run (moveTask f t x) b = b) /\
  (f <> t -> forall task, In task (get b f) -> id task = x ->
     with_id x (get b f) = 1 ->
     exists l1 l2,
       get b f = l1 ++ task :: l2 /\
       get (run (moveTask f t x) b) f = l1 ++ l2 /\
       get (run (moveTask f t x) b) t = task :: get b t /\
       (forall q, q <> f -> q <> t -> get (run (moveTask f t x) b) q = get b q)) /\
  (f <> t -> forall first l1 l2,
     get b f = l1 ++ first :: l2 -> id first = x ->
     (forall u, In u l1 -> id u <> x) ->
     get (run (moveTask f t x) b) f =
       l1 ++ filter (fun u => negb (str_eqb (id u) x)) l2 /\
     (forall u, In u (get (run (moveTask f t x) b) f) -> id u <> x) /\
     get (run (moveTask f t x) b) t = first :: get b t /\
     (forall q, q <> f -> q <> t -> get (run (moveTask f t x) b) q = get b q)).
Proof.
  split; [|split; [|split]].
  - intros ->. unfold run, moveTask. destruct t; reflexivity.
  - intros Hft Habs. unfold run, moveTask.
    destruct (QuadrantKey_eqb f t); [reflexivity|].
    now rewrite (find_absent x (get b f) Habs).
  - intros Hft task Hin Hid Hone.
    destruct (find (fun u => str_eqb (id u) x) (get b f)) as [first|] eqn:Hfind.
    + destruct (find_split x _ _ Hfind) as (l1 & l2 & Hsplit & Hfid & Hl1).
      destruct (with_id_once x _ l1 l2 task first Hone Hin Hid Hsplit Hfid Hl1)
        as [-> Hl2].
      exists l1, l2.
      rewrite (moveTask_found b f t x l1 l2 task Hft Hsplit Hid Hl1 Hl2).
      split; [exact Hsplit|]. split; [|split].
      * rewrite get_put_other by congruence. apply get_put_same.
      * apply get_put_same.
      * intros q Hqf Hqt. now rewrite !get_put_other by congruence.
    + exfalso. apply (find_none _ _ Hfind) in Hin.
      apply str_eqb_neq in Hin. contradiction.
  - intros Hft first l1 l2 Hsplit Hfid Hl1.
    rewrite (moveTask_first b f t x l1 l2 first Hft Hsplit Hfid Hl1).
    assert (Hf : get (put (put b f (l1 ++ filter (fun u => negb (str_eqb (id u) x)) l2))
                        t (first :: get b t)) f =
                 l1 ++ filter (fun u => negb (str_eqb (id u) x)) l2).
    { rewrite get_put_other by congruence. apply get_put_same. }
    split; [exact Hf|]. split; [|split].
    + rewrite Hf. intros u Hu. apply in_app_or in Hu. destruct Hu as [Hu | Hu].
      * now apply Hl1.
      * apply filter_In in Hu. destruct Hu as [_ Hu].
        apply str_eqb_neq. now destruct (str_eqb (id u) x).
    + apply get_put_same.
    + intros q Hqf Hqt. now rewrite !get_put_other by congruence.
Qed.

(** ** [addTask] *)

(** C2.  When the title trims to the empty string [addTask] sets no state and
    the board stays as it is.  Otherwise one new task is put in front of
    quadrant [q]: its title is the trimmed input, it is not done, its notes
    are absent when none were given or when they trim to the empty string
    (and are the trimmed notes otherwise), and the other quadrants are
    unchanged. *)
Theorem addTask_spec (w : World) (b : BoardState) (q : QuadrantKey)
    (ttl : jsstring) (nts due : option jsstring) :
  (trim ttl = [] ->
     addTask w q ttl nts due b = None /\ run (addTask w q ttl nts due) b = b) /\
  (trim ttl <> [] ->
     exists task,
       get (run (addTask w q ttl nts due) b) q = task :: get b q /\
       title task = trim ttl /\
       done task = false /\
       id task = uid (random16 w) (now_uid w) /\
       createdAt task = now_created w /\
       (nts = None -> notes task = None) /\
       (forall n, nts = Some n -> trim n = [] -> notes task = None) /\
       (forall n, nts = Some n -> trim n <> [] -> notes task = Some (trim n)) /\
       (forall q', q' <> q -> get (run (addTask w q ttl nts due) b) q' = get b q')).
Proof.
  unfold run, addTask. split.
  - intros ->. simpl. split; reflexivity.
  - intros Hne. apply str_truthy_true in Hne. rewrite Hne. simpl.
    eexists. rewrite get_put_same. split; [reflexivity|]. simpl.
    repeat split.
    + now intros ->.
    + intros n -> Hn. now rewrite Hn.
    + intros n -> Hn. apply str_truthy_true in Hn. now rewrite Hn.
    + intros q' Hq'. now apply get_put_other.
Qed.

(** ** [updateTask] *)

(** C3.  When no task of quadrant [q] has id [x], [updateTask q x p] leaves
    the board as it is.  In every case the quadrant keeps its length and
    order; a task whose id is [x] is replaced by the merge of the old task
    with [p], every other task of [q] and every other quadrant is unchanged.
    In the merge a field named in [p] takes the value from [p] and a field not
    named keeps its value; a patch that names only [done] leaves the id, the
    title, the notes, the creation time and the due date as they were. *)
Theorem updateTask_spec (b : BoardState) (q : QuadrantKey) (x : jsstring)
    (p : Patch) :
  ((forall u, In u (get b q) -> id u <> x) -> run (updateTask q x p) b = b) /\
  length (get (run (updateTask q x p) b) q) = length (get b q) /\
  (forall i t, nth_error (get b q) i = Some t ->
     (id t = x ->
        nth_error (get (run (updateTask q x p) b) q) i = Some (spread t p)) /\
     (id t <> x ->
        nth_error (get (run (updateTask q x p) b) q) i = Some t)) /\
  (forall q', q' <> q -> get (run (updateTask q x p) b) q' = get b q') /\
  (forall t,
     (forall v, p_id p = Some v -> id (spread t p) = v) /\
     (p_id p = None -> id (spread t p) = id t) /\
     (forall v, p_title p = Some v -> title (spread t p) = v) /\
     (p_title p = None -> title (spread t p) = title t) /\
     (forall v, p_notes p = Some v -> notes (spread t p) = v) /\
     (p_notes p = None -> notes (spread t p) = notes t) /\
     (forall v, p_done p = Some v -> done (spread t p) = v) /\
     (p_done p = None -> done (spread t p) = done t) /\
     (forall v, p_createdAt p = Some v -> createdAt (spread t p) = v) /\
     (p_createdAt p = None -> createdAt (spread t p) = createdAt t) /\
     (forall v, p_dueDate p = Some v -> dueDate (spread t p) = v) /\
     (p_dueDate p = None -> dueDate (spread t p) = dueDate t)) /\
  (forall t v,
     spread t (mkPatch None None None (Some v) None None) =
     mkTask (id t) (title t) (notes t) v (createdAt t) (dueDate t)).
Proof.
  unfold run, updateTask. simpl. rewrite get_put_same.
  split; [|split; [|split; [|split; [|split]]]].
  - intros Habs. rewrite (map_absent x p _ Habs). apply put_get.
  - apply length_map.
  - intros i t Hi. rewrite nth_error_map, Hi. simpl. split; intros Hid.
    + apply str_eqb_eq in Hid. now rewrite Hid.
    + apply str_eqb_neq in Hid. now rewrite Hid.
  - intros q' Hq'. now apply get_put_other.
  - intros t. unfold spread, named. simpl.
    repeat split; try (intros v Hv; now rewrite Hv); intros Hv; now rewrite Hv.
  - reflexivity.
Qed.

(** ** [clearCompleted] *)

(** C9.  [clearCompleted q] removes from quadrant [q] exactly the tasks that
    are done: a task is in the new sequence as often as before when it is not
    done and not at all when it is done; a task that stays keeps its place
    between the kept tasks before it and the kept tasks after it; the other
    three quadrants are unchanged. *)
Theorem clearCompleted_spec (b : BoardState) (q : QuadrantKey) :
  (forall t, In t (get (run (clearCompleted q) b) q) <->
             In t (get b q) /\ done t = false) /\
  (forall l1 t l2, get b q = l1 ++ t :: l2 -> done t = false ->
     get (run (clearCompleted q) b) q =
       filter (fun u => negb (done u)) l1 ++ t :: filter (fun u => negb (done u)) l2) /\
  (forall l1 t l2, get b q = l1 ++ t :: l2 -> done t = true ->
     get (run (clearCompleted q) b) q =
       filter (fun u => negb (done u)) l1 ++ filter (fun u => negb (done u)) l2) /\
  ((forall t, In t (get b q) -> done t = false) ->
     run (clearCompleted q) b = b) /\
  (forall q', q' <> q -> get (run (clearCompleted q) b) q' = get b q').
Proof.
  unfold run, clearCompleted. simpl. rewrite get_put_same.
  split; [|split; [|split; [|split]]].
  - intros t. rewrite filter_In, negb_true_iff. reflexivity.
  - intros l1 t l2 -> Hd. rewrite filter_app. simpl. now rewrite Hd.
  - intros l1 t l2 -> Hd. rewrite filter_app. simpl. now rewrite Hd.
  - intros Hall.
    assert (Hkeep : filter (fun t => negb (done t)) (get b q) = get b q).
    { induction (get b q) as [|t l IH]; simpl; [reflexivity|].
      rewrite (Hall t) by now left. simpl. f_equal. apply IH.
      intros u Hu. apply Hall. now right. }
    rewrite Hkeep. apply put_get.
  - intros q' Hq'. now apply get_put_other.
Qed.

(** ** Unique ids *)

Lemma NoDup_app_iff {A} (l1 l2 : list A) :
  NoDup (l1 ++ l2) <->
  NoDup l1 /\ NoDup l2 /\ (forall a, In a l1 -> ~ In a l2).
Proof.
  induction l1 as [|x l1 IH]; simpl.
  - split; [intros H; repeat split; [constructor | exact H | intros a []] | tauto].
  - rewrite !NoDup_cons_iff, IH, in_app_iff. split.
    + intros (Hx & H1 & H2 & H12). repeat split; try tauto.
      intros a [<- | Ha]; [tauto | now apply H12].
    + intros ((Hx & H1) & H2 & H12). repeat split; try tauto.
      * intros [Hin | Hin]; [tauto | apply (H12 x); tauto].
      * intros a Ha. apply H12. now right.
Qed.

Lemma in_ids (b : BoardState) (x : jsstring) :
  In x (ids b) <-> exists q, In x (map id (get b q)).
Proof.
  unfold ids, all_tasks. rewrite !map_app, !in_app_iff. split.
  - intros [H | [H | [H | H]]];
      [exists Do | exists Schedule | exists Delegate | exists Eliminate]; exact H.
  - intros ([] & H); simpl in H; tauto.
Qed.

Lemma in_all_tasks (b : BoardState) (t : Task) :
  In t (all_tasks b) <-> exists q, In t (get b q).
Proof.
  unfold all_tasks. rewrite !in_app_iff. split.
  - intros [H | [H | [H | H]]];
      [exists Do | exists Schedule | exists Delegate | exists Eliminate]; exact H.
  - intros ([] & H); simpl in H; tauto.
Qed.

Lemma unique_NoDup (b : BoardState) : unique b <-> NoDup (ids b).
Proof.
  unfold unique, ids, all_tasks. rewrite !map_app, !NoDup_app_iff. split.
  - intros [Hq Hd].
    pose proof (Hq Do). pose proof (Hq Schedule).
    pose proof (Hq Delegate). pose proof (Hq Eliminate). simpl in *.
    repeat split; try assumption.
    + intros a Ha. apply (Hd Delegate Eliminate); [discriminate | exact Ha].
    + intros a Ha. rewrite in_app_iff. intros [Hb | Hb].
      * now apply (Hd Schedule Delegate a).
      * now apply (Hd Schedule Eliminate a).
    + intros a Ha. rewrite !in_app_iff. intros [Hb | [Hb | Hb]].
      * now apply (Hd Do Schedule a).
      * now apply (Hd Do Delegate a).
      * now apply (Hd Do Eliminate a).
  - intros (H1 & (H2 & (H3 & H4 & H34) & H234) & H1234). split.
    + intros []; assumption.
    + intros q1 q2 x Hne Hx1 Hx2.
      destruct q1, q2; simpl in *; try congruence;
        first [ apply (H1234 x); [assumption | rewrite !in_app_iff; tauto]
              | apply (H234 x); [assumption | rewrite !in_app_iff; tauto]
              | apply (H34 x); assumption ].
Qed.

(** Replacing a quadrant by tasks whose ids were already there, without
    repeating one, keeps the ids unique. *)
Lemma unique_put_within (b : BoardState) (q : QuadrantKey) (ts : list Task) :
  unique b ->
  NoDup (map id ts) ->
  (forall x, In x (map id ts) -> In x (map id (get b q))) ->
  unique (put b q ts).
Proof.
  intros [Hq Hd] Hts Hsub. split.
  - intros q'. destruct (QuadrantKey_eqb q' q) eqn:E.
    + apply QuadrantKey_eqb_eq in E. subst. now rewrite get_put_same.
    + rewrite get_put_other; [apply Hq|].
      intros ->. now rewrite (proj2 (QuadrantKey_eqb_eq q q)) in E.
  - intros q1 q2 x Hne H1 H2.
    assert (Hin : forall q', In x (map id (get (put b q ts) q')) ->
                             In x (map id (get b q'))).
    { intros q' H. destruct (QuadrantKey_eqb q' q) eqn:E.
      - apply QuadrantKey_eqb_eq in E. subst.
        rewrite get_put_same in H. now apply Hsub.
      - rewrite get_put_other in H; [exact H|].
        intros ->. now rewrite (proj2 (QuadrantKey_eqb_eq q q)) in E. }
    apply (Hd q1 q2 x Hne); now apply Hin.
Qed.

Lemma filter_ids_incl (f : Task -> bool) (l : list Task) (x : jsstring) :
  In x (map id (filter f l)) -> In x (map id l).
Proof.
  rewrite !in_map_iff. intros (t & Ht & Hin). exists t. split; [exact Ht|].
  now apply filter_In in Hin.
Qed.

Lemma filter_ids_NoDup (f : Task -> bool) (l : list Task) :
  NoDup (map id l) -> NoDup (map id (filter f l)).
Proof.
  induction l as [|t l IH]; simpl; [trivial|].
  rewrite NoDup_cons_iff. intros [Hnot Hl].
  destruct (f t); simpl; [|now apply IH].
  constructor; [|now apply IH].
  intros Hin. apply Hnot. now apply filter_ids_incl in Hin.
Qed.

Lemma unique_put_fresh (b : BoardState) (q : QuadrantKey) (t : Task) :
  unique b -> ~ In (id t) (ids b) -> unique (put b q (t :: get b q)).
Proof.
  intros [Hq Hd] Hfresh.
  assert (Hno : forall q', ~ In (id t) (map id (get b q'))).
  { intros q' H. apply Hfresh, in_ids. now exists q'. }
  assert (Hget : forall q' x, In x (map id (get (put b q (t :: get b q)) q')) ->
                   (q' = q /\ x = id t) \/ In x (map id (get b q'))).
  { intros q' x H. destruct (QuadrantKey_eqb q' q) eqn:E.
    - apply QuadrantKey_eqb_eq in E. subst. rewrite get_put_same in H.
      simpl in H. destruct H as [<- | H]; [now left | now right].
    - rewrite get_put_other in H; [now right|].
      intros ->. now rewrite (proj2 (QuadrantKey_eqb_eq q q)) in E. }
  split.
  - intros q'. destruct (QuadrantKey_eqb q' q) eqn:E.
    + apply QuadrantKey_eqb_eq in E. subst. rewrite get_put_same. simpl.
      constructor; [apply Hno | apply Hq].
    + rewrite get_put_other; [apply Hq|].
      intros ->. now rewrite (proj2 (QuadrantKey_eqb_eq q q)) in E.
  - intros q1 q2 x Hne H1 H2.
    apply Hget in H1. apply Hget in H2.
    destruct H1 as [[-> ->] | H1], H2 as [[-> H2] | H2].
    + congruence.
    + now apply (Hno q2).
    + subst x. now apply (Hno q1).
    + now apply (Hd q1 q2 x).
Qed.

Lemma spread_keeps_id (t : Task) (p : Patch) :
  p_id p = None -> id (spread t p) = id t.
Proof. intros H. simpl. now rewrite H. Qed.

Lemma map_spread_ids (x : jsstring) (p : Patch) (l : list Task) :
  p_id p = None ->
  map id (map (fun t => if str_eqb (id t) x then spread t p else t) l) = map id l.
Proof.
  intros Hp. rewrite map_map. apply map_ext. intros t.
  destruct (str_eqb (id t) x); [now apply spread_keeps_id | reflexivity].
Qed.

Lemma filter_drops_id (x : jsstring) (l : list Task) :
  ~ In x (map id (filter (fun t => negb (str_eqb (id t) x)) l)).
Proof.
  rewrite in_map_iff. intros (t & Ht & Hin).
  apply filter_In in Hin. destruct Hin as [_ Hin].
  apply negb_true_iff, str_eqb_neq in Hin. contradiction.
Qed.

Lemma unique_step (b : BoardState) (a : Action) :
  unique b -> keeps_ids b a -> unique (run (perform a) b).
Proof.
  intros Hu Hk. destruct a as [w q ttl nts due | q x p | q x | q | f t x | ];
    unfold run; simpl.
  - unfold addTask. destruct (str_truthy (trim ttl)) eqn:E; simpl; [|exact Hu].
    simpl in Hk. destruct Hk as [Hk | Hk].
    + rewrite Hk in E. discriminate E.
    + now apply (unique_put_fresh b q _ Hu).
  - unfold updateTask. simpl in Hk. apply (unique_put_within b q _ Hu).
    + rewrite (map_spread_ids x p _ Hk). apply Hu.
    + intros y. now rewrite (map_spread_ids x p _ Hk).
  - unfold deleteTask. apply (unique_put_within b q _ Hu).
    + apply filter_ids_NoDup, Hu.
    + intros y. apply filter_ids_incl.
  - unfold clearCompleted. apply (unique_put_within b q _ Hu).
    + apply filter_ids_NoDup, Hu.
    + intros y. apply filter_ids_incl.
  - unfold moveTask. destruct (QuadrantKey_eqb f t) eqn:Eft; [exact Hu|].
    assert (Hft : f <> t).
    { intros ->. now rewrite (proj2 (QuadrantKey_eqb_eq t t)) in Eft. }
    destruct (find (fun u => str_eqb (id u) x) (get b f)) as [task|] eqn:Hfind;
      [|exact Hu].
    apply find_some in Hfind. destruct Hfind as [Hin Hid].
    apply str_eqb_eq in Hid.
    set (from' := filter (fun u => negb (str_eqb (id u) x)) (get b f)).
    assert (Hu1 : unique (put b f from')).
    { apply (unique_put_within b f _ Hu).
      - apply filter_ids_NoDup, Hu.
      - intros y. apply filter_ids_incl. }
    assert (Hto : get (put b f from') t = get b t)
      by (apply get_put_other; congruence).
    rewrite <- Hto. apply (unique_put_fresh _ t task Hu1).
    rewrite in_ids. intros (q' & Hq'). rewrite Hid in Hq'.
    destruct (QuadrantKey_eqb q' f) eqn:E.
    + apply QuadrantKey_eqb_eq in E. subst q'. rewrite get_put_same in Hq'.
      now apply (filter_drops_id x (get b f)).
    + assert (Hq'f : q' <> f).
      { intros ->. now rewrite (proj2 (QuadrantKey_eqb_eq f f)) in E. }
      rewrite get_put_other in Hq' by exact Hq'f.
      destruct Hu as [_ Hd]. apply (Hd f q' x); [congruence | | exact Hq'].
      rewrite <- Hid. now apply in_map.
  - unfold resetAll. split; [intros []; constructor | intros [] [] y _ []].
Qed.

Lemma reachable_perform_all (acts : list Action) (b : BoardState) :
  reachable b -> reachable (perform_all acts b).
Proof.
  revert b. induction acts as [|a acts IH]; intros b Hb; simpl; [exact Hb|].
  apply IH. now constructor.
Qed.

(** C4, as the code has it.  Along every sequence of operations from the
    empty board in which each [addTask] draws an id that no task of the board
    holds and no [updateTask] patch names the [id] field, each task id is at
    most once on the whole board, hence in at most one quadrant. *)
Theorem ids_unique (b : BoardState) :
  reachable_keeping_ids b ->
  NoDup (ids b) /\
  (forall q1 q2 x,
     In x (map id (get b q1)) -> In x (map id (get b q2)) -> q1 = q2).
Proof.
  intros Hr.
  assert (Hu : unique b).
  { induction Hr as [|b a _ IH Hk].
    - split; [intros []; constructor | intros [] [] y _ []].
    - now apply unique_step. }
  split; [now apply unique_NoDup|].
  intros q1 q2 x H1 H2.
  destruct (QuadrantKey_eqb q1 q2) eqn:E; [now apply QuadrantKey_eqb_eq|].
  exfalso. destruct Hu as [_ Hd]. apply (Hd q1 q2 x); try assumption.
  intros ->. now rewrite (proj2 (QuadrantKey_eqb_eq q2 q2)) in E.
Qed.

Lemma ids_unique_witness :
  NoDup (ids two_tasks) /\
  (forall q1 q2 x,
     In x (map id (get two_tasks q1)) -> In x (map id (get two_tasks q2)) ->
     q1 = q2).
Proof.
  apply (ids_unique two_tasks).
  apply (keeping_step
           (run (perform (AddTask world1 Do (js "Call dentist") None None)) emptyBoard)
           (AddTask world2 Do (js " Buy milk ") (Some (js "2 litres"))
              (Some (js "2025-01-01")))).
  - apply (keeping_step emptyBoard (AddTask world1 Do (js "Call dentist") None None)).
    + apply keeping_empty.
    + right. intros [].
  - right. vm_compute. intros [H | []]. discriminate H.
Defined.

(** C4, as stated, fails on the code in two ways.  Two [addTask] calls that
    read the same random number in the same millisecond give two tasks one
    id, here in two quadrants; and an [updateTask] whose patch names [id] can
    give a task the id of another. *)
Lemma ids_can_clash :
  (reachable same_draw /\ ~ NoDup (ids same_draw) /\
   In id1 (map id (get same_draw Do)) /\
   In id1 (map id (get same_draw Schedule))) /\
  (reachable patched_id /\ ~ NoDup (ids patched_id)).
Proof.
  split; [split; [|split; [|split]] | split].
  - apply reachable_perform_all. constructor.
  - vm_compute. intros H. apply NoDup_cons_iff in H. destruct H as [H _].
    apply H. now left.
  - vm_compute. now left.
  - vm_compute. now left.
  - apply reachable_perform_all. constructor.
  - vm_compute. intros H. apply NoDup_cons_iff in H. destruct H as [H _].
    apply H. now left.
Qed.

(** ** Titles *)

Lemma title_ok_trim (s : jsstring) (t : Task) :
  title t = trim s -> trim s <> [] -> title_ok t.
Proof. intros Ht Hne. unfold title_ok. rewrite Ht. split; [apply trim_idem | exact Hne]. Qed.

Lemma titles_ok_put (b : BoardState) (q : QuadrantKey) (ts : list Task) :
  titles_ok b -> (forall t, In t ts -> title_ok t) -> titles_ok (put b q ts).
Proof.
  intros Hb Hts q' t Hin. destruct (QuadrantKey_eqb q' q) eqn:E.
  - apply QuadrantKey_eqb_eq in E. subst. rewrite get_put_same in Hin. now apply Hts.
  - rewrite get_put_other in Hin; [now apply (Hb q')|].
    intros ->. now rewrite (proj2 (QuadrantKey_eqb_eq q q)) in E.
Qed.

Lemma titles_ok_addTask w q ttl nts due (b : BoardState) :
  titles_ok b -> titles_ok (run (addTask w q ttl nts due) b).
Proof.
  intros Hb. unfold run, addTask.
  destruct (str_truthy (trim ttl)) eqn:E; simpl; [|exact Hb].
  apply titles_ok_put; [exact Hb|]. intros t [<- | Hin]; [|now apply (Hb q)].
  apply (title_ok_trim ttl); [reflexivity | now apply str_truthy_true].
Qed.

Lemma titles_ok_update (b : BoardState) (q : QuadrantKey) (x : jsstring) (p : Patch) :
  titles_ok b ->
  (forall t, title_ok t -> title_ok (spread t p)) ->
  titles_ok (run (updateTask q x p) b).
Proof.
  intros Hb Hp. unfold run, updateTask. apply titles_ok_put; [exact Hb|].
  intros t Hin. apply in_map_iff in Hin. destruct Hin as (u & <- & Hu).
  destruct (str_eqb (id u) x); [apply Hp|]; now apply (Hb q).
Qed.

Lemma titles_ok_filter (b : BoardState) (q : QuadrantKey) (f : Task -> bool) :
  titles_ok b -> titles_ok (put b q (filter f (get b q))).
Proof.
  intros Hb. apply titles_ok_put; [exact Hb|].
  intros t Hin. apply filter_In in Hin. now apply (Hb q).
Qed.

Lemma titles_ok_step (b : BoardState) (g : Gesture) :
  titles_ok b -> titles_ok (run (handle g) b).
Proof.
  intros Hb.
  destruct g as [w q ttl nts due sn | q t dT dN dD | q t c | q t | q | f t x | ];
    simpl.
  - apply titles_ok_addTask, Hb.
  - unfold run, saveEdit. destruct (str_truthy (trim dT)) eqn:E; simpl; [|exact Hb].
    apply (titles_ok_update b q (id t) _ Hb). intros u _.
    apply (title_ok_trim dT); [reflexivity | now apply str_truthy_true].
  - apply (titles_ok_update b q (id t) _ Hb). intros u Hu. exact Hu.
  - apply titles_ok_filter, Hb.
  - apply titles_ok_filter, Hb.
  - unfold run, moveTask. destruct (QuadrantKey_eqb f t); [exact Hb|].
    destruct (find (fun u => str_eqb (id u) x) (get b f)) as [task|] eqn:Hfind;
      [|exact Hb].
    apply find_some in Hfind. destruct Hfind as [Hin _].
    apply titles_ok_put; [now apply titles_ok_filter|].
    intros u [<- | Hu]; [now apply (Hb f) | now apply (Hb t)].
  - intros [] u [].
Qed.

(** C5, as the code has it.  The guard on edits is in [saveEdit], not in
    [updateTask]: [saveEdit] with a draft title that is empty or white space
    only sets no state, so the board and the prior title stay; and on every
    board that the page's gestures (submit, save edit, check, delete, clear
    done, move, reset) produce from the empty board, each stored title is its
    own trimmed form and is not empty. *)
Theorem titles_trimmed :
  (forall b, reachable_by_gestures b ->
     forall t, In t (all_tasks b) -> title_ok t) /\
  (forall q t draftTitle draftNotes draftDue b,
     whitespace_only draftTitle ->
     saveEdit q t draftTitle draftNotes draftDue b = None /\
     run (saveEdit q t draftTitle draftNotes draftDue) b = b) /\
  (forall w q ttl nts due b,
     whitespace_only ttl ->
     addTask w q ttl nts due b = None /\ run (addTask w q ttl nts due) b = b).
Proof.
  split; [|split].
  - intros b Hr t Hin. apply in_all_tasks in Hin. destruct Hin as (q & Hin).
    revert q t Hin. change (titles_ok b).
    induction Hr as [|b g _ IH]; [intros [] u [] | now apply titles_ok_step].
  - intros q t dT dN dD b Hw. unfold run, saveEdit.
    rewrite (trim_whitespace_only dT Hw). simpl. split; reflexivity.
  - intros w q ttl nts due b Hw. unfold run, addTask.
    rewrite (trim_whitespace_only ttl Hw). simpl. split; reflexivity.
Qed.

Lemma titles_trimmed_witness :
  title_ok dentist /\
  run (saveEdit Do dentist (js "  ") (js "") (js "")) two_tasks = two_tasks.
Proof.
  split.
  - apply (proj1 titles_trimmed two_tasks).
    + unfold two_tasks, perform_all. simpl fold_left.
      apply (gestures_step _ (Submit world2 Do (js " Buy milk ") (js "2 litres")
                                (js "2025-01-01") true)).
      apply (gestures_step _ (Submit world1 Do (js "Call dentist") (js "") (js "") false)).
      apply gestures_empty.
    + vm_compute. right. now left.
  - apply (proj1 (proj2 titles_trimmed)). repeat constructor.
Defined.

(** C5, as stated, fails on the code: [updateTask] applies a patch whose
    title is white space only.  The board changes, it is a board the
    operations reach, and the stored title is neither trimmed nor kept. *)
Lemma updateTask_blank_title :
  In dentist (get two_tasks Do) /\
  whitespace_only (js "  ") /\
  blank_title <> two_tasks /\
  reachable blank_title /\
  In (mkTask id1 (js "  ") None false 1700000000000 None) (all_tasks blank_title) /\
  ~ title_ok (mkTask id1 (js "  ") None false 1700000000000 None).
Proof.
  split; [|split; [|split; [|split; [|split]]]].
  - vm_compute. right. now left.
  - repeat constructor.
  - vm_compute. discriminate.
  - unfold blank_title. apply (reachable_step _ (UpdateTask Do id1 (title_patch (js "  ")))).
    apply reachable_perform_all. constructor.
  - vm_compute. right. now left.
  - intros [H _]. vm_compute in H. discriminate H.
Qed.

(** ** The operations on the sample board *)

Lemma moveTask_witness :
  run (moveTask Do Do id1) two_tasks = two_tasks /\
  run (moveTask Do Schedule (js "nonexistent")) two_tasks = two_tasks /\
  (exists l1 l2,
     get two_tasks Do = l1 ++ dentist :: l2 /\
     get (run (moveTask Do Schedule id1) two_tasks) Do = l1 ++ l2 /\
     get (run (moveTask Do Schedule id1) two_tasks) Schedule =
       dentist :: get two_tasks Schedule /\
     (forall q, q <> Do -> q <> Schedule ->
        get (run (moveTask Do Schedule id1) two_tasks) q = get two_tasks q)) /\
  get (run (moveTask Do Schedule id1) twins) Do =
    [rent] ++ filter (fun u => negb (str_eqb (id u) id1)) [dentist] /\
  get (run (moveTask Do Schedule id1) twins) Schedule = milk_twin :: get twins Schedule.
Proof.
  split; [|split; [|split]].
  - apply (proj1 (moveTask_spec two_tasks Do Do id1)). reflexivity.
  - apply (proj1 (proj2 (moveTask_spec two_tasks Do Schedule (js "nonexistent")))).
    + discriminate.
    + intros u Hu. vm_compute in Hu. destruct Hu as [<- | [<- | []]]; discriminate.
  - apply (proj1 (proj2 (proj2 (moveTask_spec two_tasks Do Schedule id1)))
             ltac:(discriminate) dentist).
    + vm_compute. right. now left.
    + reflexivity.
    + reflexivity.
  - assert (Hfirst := proj2 (proj2 (proj2 (moveTask_spec twins Do Schedule id1)))
                        ltac:(discriminate) milk_twin [rent] [dentist]
                        eq_refl eq_refl).
    destruct Hfirst as (Hf & _ & Ht & _).
    + intros u [<- | []]. vm_compute. discriminate.
    + split; [exact Hf | exact Ht].
Defined.

(** A board can hold two tasks with one id in one quadrant (two [addTask]
    calls that drew the same id).  Moving by that id takes both out of the
    source and puts only the first in the target: the other task, here
    "Call dentist", is on the board before the move and nowhere after it. *)
Lemma moveTask_loses_task :
  reachable twins /\
  In dentist (get twins Do) /\ id dentist = id1 /\
  get (run (moveTask Do Schedule id1) twins) Schedule <>
    dentist :: get twins Schedule /\
  ~ In dentist (all_tasks (run (moveTask Do Schedule id1) twins)) /\
  length (all_tasks twins) = 3 /\
  length (all_tasks (run (moveTask Do Schedule id1) twins)) = 2.
Proof.
  split; [|split; [|split; [|split; [|split; [|split]]]]].
  - apply reachable_perform_all. constructor.
  - vm_compute. right. right. now left.
  - reflexivity.
  - vm_compute. discriminate.
  - vm_compute. intros [H | [H | []]]; discriminate H.
  - reflexivity.
  - reflexivity.
Qed.

Lemma addTask_witness :
  run (addTask world1 Do (js "   ") None None) two_tasks = two_tasks /\
  exists task,
    get (run (addTask world1 Schedule (js " Pay rent ") (Some (js "  ")) None)
           two_tasks) Schedule = task :: get two_tasks Schedule /\
    title task = js "Pay rent" /\ done task = false /\ notes task = None.
Proof.
  split.
  - apply (proj1 (addTask_spec world1 two_tasks Do (js "   ") None None)).
    reflexivity.
  - destruct (proj2 (addTask_spec world1 two_tasks Schedule (js " Pay rent ")
                       (Some (js "  ")) None))
      as (task & Hget & Htitle & Hdone & _ & _ & _ & Hblank & _).
    + discriminate.
    + exists task. repeat split; try assumption.
      apply (Hblank (js "  ")); reflexivity.
Defined.

Lemma updateTask_witness :
  run (updateTask Do (js "nonexistent") (done_patch true)) two_tasks = two_tasks /\
  nth_error (get (run (updateTask Do id1 (done_patch true)) two_tasks) Do) 1 =
    Some (mkTask id1 (js "Call dentist") None true 1700000000000 None) /\
  nth_error (get (run (updateTask Do id1 (done_patch true)) two_tasks) Do) 0 =
    Some milk.
Proof.
  split; [|split].
  - apply (proj1 (updateTask_spec two_tasks Do (js "nonexistent") (done_patch true))).
    intros u Hu. vm_compute in Hu. destruct Hu as [<- | [<- | []]]; discriminate.
  - apply (proj1 (proj1 (proj2 (proj2 (updateTask_spec two_tasks Do id1 (done_patch true))))
                    1%nat dentist eq_refl)).
    reflexivity.
  - apply (proj2 (proj1 (proj2 (proj2 (updateTask_spec two_tasks Do id1 (done_patch true))))
                    0%nat milk eq_refl)).
    discriminate.
Defined.

Lemma clearCompleted_witness :
  get (run (clearCompleted Do)
         (run (updateTask Do id1 (done_patch true)) two_tasks)) Do = [milk] /\
  run (clearCompleted Do) two_tasks = two_tasks.
Proof.
  split.
  - apply (proj1 (proj2 (proj2 (clearCompleted_spec
                                  (run (updateTask Do id1 (done_patch true)) two_tasks) Do)))
             [milk] (mkTask id1 (js "Call dentist") None true 1700000000000 None) []);
      reflexivity.
  - apply (proj1 (proj2 (proj2 (proj2 (clearCompleted_spec two_tasks Do))))).
    intros t Ht. vm_compute in Ht. destruct Ht as [<- | [<- | []]]; reflexivity.
Defined.

(** The scenario of the specification, end to end. *)
Example scenario :
  let b1 := run (addTask world1 Do (js "Call dentist") None None) emptyBoard in
  let b2 := run (updateTask Do id1 (done_patch true)) b1 in
  let b3 := run (moveTask Do Schedule id1) b2 in
  let b4 := run (clearCompleted Schedule) b3 in
  b1 = mkBoard [dentist] [] [] [] /\
  totals b2 = (1%nat, 1%nat) /\
  b3 = mkBoard [] [mkTask id1 (js "Call dentist") None true 1700000000000 None] [] [] /\
  b4 = emptyBoard.
Proof. vm_compute. repeat split. Qed.

(** * Properties of the JSON functions *)

(** ** Strings *)

Lemma hex_value_digit (d : N) : (d < 16)%N -> hex_value (hex_digit d) = Some d.
Proof.
  intros H.
  assert (Hd : In d [0; 1; 2; 3; 4; 5; 6; 7; 8; 9; 10; 11; 12; 13; 14; 15]%N).
  { destruct d as [|p]; [now left|].
    do 4 (destruct p as [p|p|]; try (simpl; tauto); try lia). }
  simpl in Hd.
  repeat (destruct Hd as [<- | Hd]; [reflexivity|]). contradiction.
Qed.

Lemma hex4_escape (c : N) :
  (c < 65536)%N ->
  hex4 (hex_digit (c / 4096 mod 16)) (hex_digit (c / 256 mod 16))
       (hex_digit (c / 16 mod 16)) (hex_digit (c mod 16)) = Some c.
Proof.
  intros Hc. unfold hex4.
  rewrite !hex_value_digit by (apply N.mod_lt; discriminate).
  f_equal.
  replace (c / 256)%N with (c / 16 / 16)%N
    by (rewrite N.Div0.div_div; reflexivity).
  replace (c / 4096)%N with (c / 16 / 16 / 16)%N
    by (rewrite !N.Div0.div_div; reflexivity).
  pose proof (N.Div0.div_mod c 16) as E1.
  pose proof (N.Div0.div_mod (c / 16) 16) as E2.
  pose proof (N.Div0.div_mod (c / 16 / 16) 16) as E3.
  assert (Hsmall : (c / 16 / 16 / 16 < 16)%N)
    by (repeat apply N.Div0.div_lt_upper_bound; simpl; lia).
  rewrite (N.mod_small _ 16 Hsmall).
  set (q1 := (c / 16)%N) in *. set (r1 := (c mod 16)%N) in *.
  set (q2 := (q1 / 16)%N) in *. set (r2 := (q1 mod 16)%N) in *.
  set (q3 := (q2 / 16)%N) in *. set (r3 := (q2 mod 16)%N) in *.
  clearbody q1 r1 q2 r2 q3 r3. lia.
Qed.

Section Strings.

Local Opaque N.eqb N.ltb N.leb N.div N.modulo.

Lemma parse_chars_plain (c : N) (r : jsstring) :
  c <> 34%N -> c <> 92%N -> (32 <= c)%N ->
  parse_chars (c :: r) = push c (parse_chars r).
Proof.
  intros H1 H2 H3. simpl.
  rewrite (proj2 (N.eqb_neq c 34) H1), (proj2 (N.eqb_neq c 92) H2).
  now rewrite (proj2 (N.ltb_ge c 32) H3).
Qed.

Lemma parse_chars_unicode (c : N) (r : jsstring) :
  (c < 65536)%N ->
  parse_chars (unicode_escape c ++ r) = push c (parse_chars r).
Proof.
  intros Hc. unfold unicode_escape. simpl.
  change (92 =? 34)%N with false. change (92 =? 92)%N with true.
  change (ch "u" =? ch "u")%N with true. cbv iota.
  now rewrite (hex4_escape c Hc).
Qed.

Lemma parse_chars_short (c e : N) (r : jsstring) :
  short_escape c = Some e ->
  parse_chars (92%N :: e :: r) = push c (parse_chars r).
Proof.
  unfold short_escape. intros H.
  repeat match type of H with
         | (if (?a =? ?b)%N then _ else _) = _ =>
             destruct (N.eqb_spec a b) as [-> | _]; [injection H as <-; reflexivity|]
         end.
  discriminate.
Qed.

Lemma short_escape_none (c : N) :
  short_escape c = None -> c <> 34%N /\ c <> 92%N.
Proof.
  intros H. split; intros ->; discriminate H.
Qed.

Lemma surrogate_plain (c : N) :
  is_high_surrogate c = true \/ is_low_surrogate c = true ->
  c <> 34%N /\ c <> 92%N /\ (32 <= c)%N /\ (c < 65536)%N.
Proof.
  unfold is_high_surrogate, is_low_surrogate.
  rewrite !andb_true_iff, !N.leb_le. lia.
Qed.

(** What [quote] writes between the quotes reads back as the string. *)
Lemma parse_chars_quote_chars (s rest : jsstring) :
  parse_chars (quote_chars s ++ 34%N :: rest) = Some (s, rest).
Proof.
  remember (length s) as n eqn:Hn.
  assert (Hle : (length s <= n)%nat) by lia. clear Hn.
  revert s Hle. induction n as [|n IH]; intros [|c r] Hle; simpl in Hle;
    try lia; try reflexivity.
  assert (IHr : parse_chars (quote_chars r ++ 34%N :: rest) = Some (r, rest))
    by (apply IH; lia).
  cbn [quote_chars].
  destruct (short_escape c) as [e|] eqn:Hshort.
  { cbn [app]. rewrite (parse_chars_short c e _ Hshort), IHr. reflexivity. }
  destruct (short_escape_none c Hshort) as [Hq Hb].
  destruct (N.ltb_spec c 32) as [Hlt | Hge].
  { rewrite <- app_assoc, parse_chars_unicode, IHr by lia. reflexivity. }
  destruct (is_high_surrogate c) eqn:Hhigh.
  { destruct (surrogate_plain c (or_introl Hhigh)) as (_ & _ & _ & Hc).
    destruct r as [|d r'].
    - rewrite parse_chars_unicode by exact Hc. reflexivity.
    - destruct (is_low_surrogate d) eqn:Hlow.
      + destruct (surrogate_plain d (or_intror Hlow)) as (Hdq & Hdb & Hd32 & _).
        cbn [app].
        rewrite parse_chars_plain by assumption.
        rewrite parse_chars_plain by assumption.
        rewrite (IH r') by (simpl in Hle; lia). reflexivity.
      + rewrite <- app_assoc, parse_chars_unicode, IHr by exact Hc. reflexivity. }
  destruct (is_low_surrogate c) eqn:Hlow.
  { destruct (surrogate_plain c (or_intror Hlow)) as (_ & _ & _ & Hc).
    rewrite <- app_assoc, parse_chars_unicode, IHr by exact Hc. reflexivity. }
  cbn [app]. rewrite parse_chars_plain, IHr by assumption. reflexivity.
Qed.

End Strings.

(** ** Numbers *)

Lemma digits_value_snoc (ds : jsstring) (d : N) :
  digits_value (ds ++ [d]) = (10 * digits_value ds + (d - 48))%N.
Proof. unfold digits_value. now rewrite fold_left_app. Qed.

Lemma dec_pos_spec (fuel : nat) (n : N) (acc : jsstring) :
  (n < 2 ^ N.of_nat (S fuel))%N ->
  exists ds,
    dec_pos (S fuel) n acc = ds ++ acc /\ all_digits ds /\ digits_value ds = n /\
    exists d ds', ds = d :: ds' /\ (d = 48%N -> ds' = []).
Proof.
  revert n acc. induction fuel as [|fuel IH]; intros n acc Hn;
    rewrite Nat2N.inj_succ, N.pow_succ_r' in Hn.
  { assert (Hlt : (n < 10)%N)
      by (change (2 ^ N.of_nat 0)%N with 1%N in Hn; lia).
    cbn [dec_pos]. rewrite (proj2 (N.ltb_lt n 10) Hlt).
    exists [(48 + n mod 10)%N]. rewrite (N.mod_small n 10 Hlt).
    repeat split.
    - constructor; [|constructor]. unfold is_digit.
      apply andb_true_iff. rewrite !N.leb_le. lia.
    - unfold digits_value. cbn [fold_left]. lia.
    - exists (48 + n)%N, []. split; reflexivity. }
  remember (S fuel) as fuel1 eqn:Hfuel1.
  cbn [dec_pos]. destruct (N.ltb_spec n 10) as [Hlt | Hge].
  - exists [(48 + n mod 10)%N]. rewrite (N.mod_small n 10 Hlt).
    repeat split.
    + constructor; [|constructor]. unfold is_digit.
      apply andb_true_iff. rewrite !N.leb_le. lia.
    + unfold digits_value. cbn [fold_left]. lia.
    + exists (48 + n)%N, []. split; reflexivity.
  - pose proof (N.Div0.div_mod n 10) as Hdm.
    assert (Hr : (n mod 10 < 10)%N) by (apply N.mod_lt; discriminate).
    set (q := (n / 10)%N) in *. set (r := (n mod 10)%N) in *. clearbody q r.
    assert (Hdiv : (q < 2 ^ N.of_nat fuel1)%N) by lia.
    subst fuel1.
    destruct (IH q ((48 + r)%N :: acc) Hdiv)
      as (ds & Hds & Hall & Hval & d & ds' & Hhd & Hzero).
    exists (ds ++ [(48 + r)%N]). repeat split.
    + now rewrite Hds, <- app_assoc.
    + apply Forall_app. split; [exact Hall|].
      constructor; [|constructor]. unfold is_digit.
      apply andb_true_iff. rewrite !N.leb_le. lia.
    + rewrite digits_value_snoc, Hval. lia.
    + exists d, (ds' ++ [(48 + r)%N]). split; [now rewrite Hhd|].
      intros Hd. specialize (Hzero Hd). subst ds ds' d.
      unfold digits_value in Hval. cbn [fold_left] in Hval. lia.
Qed.

Lemma print_nat_spec (n : N) :
  all_digits (print_nat n) /\ digits_value (print_nat n) = n /\
  exists d ds', print_nat n = d :: ds' /\ (d = 48%N -> ds' = []).
Proof.
  unfold print_nat.
  assert (Hn : (n < 2 ^ N.of_nat (S (N.to_nat (N.log2 n))))%N).
  { rewrite Nat2N.inj_succ, N2Nat.id.
    destruct n as [|p]; [reflexivity|]. apply N.log2_spec. reflexivity. }
  destruct (dec_pos_spec _ n [] Hn) as (ds & Hds & Hall & Hval & Hhd).
  rewrite app_nil_r in Hds. rewrite Hds. auto.
Qed.

Lemma ends_number_not_digit (rest : jsstring) :
  ends_number rest ->
  match rest with [] => True | c :: _ => is_digit c = false end.
Proof. destruct rest; simpl; tauto. Qed.

Lemma digits_app (ds rest : jsstring) :
  all_digits ds ->
  match rest with [] => True | c :: _ => is_digit c = false end ->
  digits (ds ++ rest) = (ds, rest).
Proof.
  intros Hds Hrest. induction Hds as [|d ds Hd _ IH]; simpl.
  - destruct rest as [|c r]; [reflexivity|]. simpl. now rewrite Hrest.
  - now rewrite Hd, IH.
Qed.

Lemma is_digit_range (c : N) : is_digit c = true <-> (48 <= c <= 57)%N.
Proof. unfold is_digit. rewrite andb_true_iff, !N.leb_le. reflexivity. Qed.

Lemma digit_not_sign (d : N) :
  is_digit d = true -> d <> ch "-" /\ d <> ch "+".
Proof.
  rewrite is_digit_range. change (ch "-") with 45%N. change (ch "+") with 43%N. lia.
Qed.

Lemma eat_other (c d : N) (s : jsstring) :
  d <> c -> eat c (d :: s) = (false, d :: s).
Proof. intros H. unfold eat. now rewrite (proj2 (N.eqb_neq d c) H). Qed.

Lemma eat_digit (c d : N) (ds rest : jsstring) :
  is_digit d = true -> c = ch "-" \/ c = ch "+" ->
  forall s, s = d :: ds -> eat c (s ++ rest) = (false, s ++ rest).
Proof.
  intros Hd Hc s ->. apply eat_other.
  destruct (digit_not_sign d Hd). destruct Hc; congruence.
Qed.

Lemma eat_same (c : N) (s : jsstring) : eat c (c :: s) = (true, s).
Proof. unfold eat. now rewrite N.eqb_refl. Qed.

Lemma eat_ends (c : N) (rest : jsstring) :
  match rest with [] => True | d :: _ => d <> c end ->
  eat c rest = (false, rest).
Proof. destruct rest as [|d r]; [reflexivity|]. apply eat_other. Qed.

(** The magnitude and what follows it, without a fraction. *)
Lemma parse_exp_print (e : Z) (rest : jsstring) :
  ends_number rest ->
  parse_exp ((if (e =? 0)%Z then []
              else ch "e" :: (if (e <? 0)%Z then [ch "-"] else [])
                   ++ print_nat (Z.abs_N e)) ++ rest) = Some (e, rest).
Proof.
  intros Hrest. destruct (Z.eqb_spec e 0) as [-> | Hne].
  - simpl. destruct rest as [|c r]; [reflexivity|].
    destruct Hrest as (_ & _ & He & HE). unfold parse_exp.
    rewrite (proj2 (N.eqb_neq c (ch "e")) He), (proj2 (N.eqb_neq c (ch "E")) HE).
    reflexivity.
  - destruct (print_nat_spec (Z.abs_N e)) as (Hall & Hval & d & ds' & Hhd & _).
    cbn [app parse_exp]. rewrite N.eqb_refl. cbn [orb].
    assert (Hd : is_digit d = true).
    { rewrite Hhd in Hall. now inversion Hall. }
    destruct (Z.ltb_spec e 0) as [Hneg | Hpos].
    + cbn [app]. rewrite eat_same.
      rewrite (digits_app _ rest Hall (ends_number_not_digit rest Hrest)).
      rewrite Hhd at 1. rewrite Hval, N2Z.inj_abs_N. f_equal. f_equal. 
      rewrite Z.abs_neq; lia.
    + cbn [app].
      rewrite (eat_digit (ch "-") d ds' rest Hd (or_introl eq_refl) _ Hhd).
      rewrite (eat_digit (ch "+") d ds' rest Hd (or_intror eq_refl) _ Hhd).
      rewrite (digits_app _ rest Hall (ends_number_not_digit rest Hrest)).
      rewrite Hhd at 1. rewrite Hval, N2Z.inj_abs_N. f_equal. f_equal.
      rewrite Z.abs_eq; lia.
Qed.

Lemma parse_frac_none (s : jsstring) :
  match s with [] => True | c :: _ => c <> ch "." end ->
  parse_frac s = Some ([], s).
Proof. intros H. unfold parse_frac. now rewrite (eat_ends _ s H). Qed.

Lemma print_number_head (m e : Z) :
  exists c r, print_number m e = c :: r /\ (c = ch "-" \/ is_digit c = true).
Proof.
  unfold print_number.
  destruct (print_nat_spec (Z.abs_N m)) as (Hall & _ & d & ds' & Hhd & _).
  destruct (m <? 0)%Z.
  - eexists _, _. split; [reflexivity | now left].
  - rewrite Hhd. eexists _, _. split; [reflexivity|]. right.
    rewrite Hhd in Hall. now inversion Hall.
Qed.

(** A printed number reads back as the same number. *)
Lemma parse_number_print (m e : Z) (rest : jsstring) :
  ends_number rest ->
  parse_number (print_number m e ++ rest) = Some (m, e, rest).
Proof.
  intros Hrest. unfold print_number, parse_number.
  destruct (print_nat_spec (Z.abs_N m)) as (Hall & Hval & d & ds' & Hhd & Hzero).
  assert (Hd : is_digit d = true) by (rewrite Hhd in Hall; now inversion Hall).
  set (tail := (if (e =? 0)%Z then []
                else ch "e" :: (if (e <? 0)%Z then [ch "-"] else [])
                     ++ print_nat (Z.abs_N e)) ++ rest).
  assert (Htail : match tail with
                  | [] => True
                  | c :: _ => is_digit c = false /\ c <> ch "."
                  end).
  { unfold tail. destruct (e =? 0)%Z.
    - simpl. destruct rest; simpl in *; tauto.
    - simpl. split; [reflexivity | discriminate]. }
  assert (Hsign : eat (ch "-")
                    (((if (m <? 0)%Z then [ch "-"] else []) ++ print_nat (Z.abs_N m)
                      ++ (if (e =? 0)%Z then []
                          else ch "e" :: (if (e <? 0)%Z then [ch "-"] else [])
                               ++ print_nat (Z.abs_N e))) ++ rest) =
                  ((m <? 0)%Z, print_nat (Z.abs_N m) ++ tail)).
  { unfold tail. destruct (m <? 0)%Z.
    - cbn [app]. rewrite eat_same. now rewrite <- app_assoc.
    - cbn [app]. rewrite <- app_assoc.
      apply (eat_digit (ch "-") d ds' _ Hd (or_introl eq_refl) _ Hhd). }
  rewrite Hsign.
  rewrite (digits_app _ tail Hall) by (destruct tail; tauto).
  rewrite Hhd.
  assert (Hlead : ((d =? 48)%N && str_truthy ds') = false).
  { destruct (N.eqb_spec d 48) as [Hd0 | _]; [|reflexivity].
    now rewrite (Hzero Hd0). }
  rewrite Hlead.
  rewrite parse_frac_none by (destruct tail; tauto).
  unfold tail. rewrite (parse_exp_print e rest Hrest).
  rewrite app_nil_r, <- Hhd, Hval, N2Z.inj_abs_N. cbn [length].
  replace (e - Z.of_nat 0)%Z with e by lia.
  replace (if (m <? 0)%Z then (- Z.abs m)%Z else Z.abs m) with m; [reflexivity|].
  destruct (Z.ltb_spec m 0); [rewrite Z.abs_neq | rewrite Z.abs_eq]; lia.
Qed.

(** ** Values *)

Lemma jsval_ind (P : jsval -> Prop) :
  P JNull ->
  (forall b, P (JBool b)) ->
  (forall m e, P (JNum m e)) ->
  (forall s, P (JStr s)) ->
  (forall items, Forall P items -> P (JArr items)) ->
  (forall props, Forall (fun kv => P (snd kv)) props -> P (JObj props)) ->
  forall v, P v.
Proof.
  intros Hnull Hbool Hnum Hstr Harr Hobj.
  fix IH 1. intros [ | b | m e | s | items | props ].
  - exact Hnull.
  - apply Hbool.
  - apply Hnum.
  - apply Hstr.
  - apply Harr. induction items as [|v items IHitems]; constructor.
    + apply IH.
    + exact IHitems.
  - apply Hobj. induction props as [|[k v] props IHprops]; constructor.
    + apply IH.
    + exact IHprops.
Qed.

Lemma ends_value_number (rest : jsstring) : ends_value rest -> ends_number rest.
Proof.
  destruct rest as [|c r]; simpl; [trivial|].
  intros [-> | [-> | ->]]; repeat split; discriminate.
Qed.

Lemma ends_value_skip (rest : jsstring) : ends_value rest -> skip_ws rest = rest.
Proof.
  destruct rest as [|c r]; simpl; [trivial|].
  intros [-> | [-> | ->]]; reflexivity.
Qed.

Lemma digit_cases (c : N) :
  is_digit c = true ->
  In c [48; 49; 50; 51; 52; 53; 54; 55; 56; 57]%N.
Proof.
  rewrite is_digit_range. intros H. simpl.
  destruct (N.eq_dec c 48) as [-> | ?]; [tauto|].
  destruct (N.eq_dec c 49) as [-> | ?]; [tauto|].
  destruct (N.eq_dec c 50) as [-> | ?]; [tauto|].
  destruct (N.eq_dec c 51) as [-> | ?]; [tauto|].
  destruct (N.eq_dec c 52) as [-> | ?]; [tauto|].
  destruct (N.eq_dec c 53) as [-> | ?]; [tauto|].
  destruct (N.eq_dec c 54) as [-> | ?]; [tauto|].
  destruct (N.eq_dec c 55) as [-> | ?]; [tauto|].
  destruct (N.eq_dec c 56) as [-> | ?]; [tauto|].
  destruct (N.eq_dec c 57) as [-> | ?]; [tauto|]. lia.
Qed.

Lemma opens_value_facts (c : N) :
  opens_value c ->
  is_json_ws c = false /\ c <> ch "]" /\ c <> ch "}".
Proof.
  intros H. unfold opens_value in H.
  repeat (destruct H as [-> | H]; [repeat split; discriminate|]).
  apply digit_cases in H. simpl in H.
  repeat (destruct H as [<- | H]; [repeat split; discriminate|]). contradiction.
Qed.

Lemma stringify_opens (v : jsval) :
  exists c r, JSON_stringify v = c :: r /\ opens_value c.
Proof.
  unfold opens_value. destruct v as [ | [|] | m e | s | items | props ].
  - eexists _, _. split; [reflexivity | tauto].
  - eexists _, _. split; [reflexivity | tauto].
  - eexists _, _. split; [reflexivity | tauto].
  - destruct (print_number_head m e) as (c & r & Hc & Hhead).
    exists c, r. split; [exact Hc | tauto].
  - eexists _, _. split; [reflexivity | tauto].
  - eexists _, _. split; [reflexivity | tauto].
  - eexists _, _. split; [reflexivity | tauto].
Qed.

(** One step of each parser on the input it is made for. *)

Lemma parse_value_null (n : nat) (r : jsstring) :
  parse_value (S n) (js "null" ++ r) = Some (JNull, r).
Proof. reflexivity. Qed.

Lemma parse_value_true (n : nat) (r : jsstring) :
  parse_value (S n) (js "true" ++ r) = Some (JBool true, r).
Proof. reflexivity. Qed.

Lemma parse_value_false (n : nat) (r : jsstring) :
  parse_value (S n) (js "false" ++ r) = Some (JBool false, r).
Proof. reflexivity. Qed.

Lemma parse_value_string (n : nat) (r : jsstring) :
  parse_value (S n) (34%N :: r) =
  match parse_chars r with
  | Some (str, r') => Some (JStr str, r')
  | None => None
  end.
Proof. reflexivity. Qed.

Lemma parse_value_number (n : nat) (c : N) (r : jsstring) :
  c = ch "-" \/ is_digit c = true ->
  parse_value (S n) (c :: r) =
  match parse_number (c :: r) with
  | Some (m, e, r') => Some (JNum m e, r')
  | None => None
  end.
Proof.
  intros [-> | H]; [reflexivity|].
  apply digit_cases in H. simpl in H.
  repeat (destruct H as [<- | H]; [reflexivity|]). contradiction.
Qed.

Lemma parse_value_array (n : nat) (r : jsstring) :
  parse_value (S n) (ch "[" :: r) =
  match skip_ws r with
  | d :: r' =>
      if (d =? ch "]")%N then Some (JArr [], r')
      else
        match parse_elements n r with
        | Some (vs, r'') => Some (JArr vs, r'')
        | None => None
        end
  | [] => None
  end.
Proof. reflexivity. Qed.

Lemma parse_value_object (n : nat) (r : jsstring) :
  parse_value (S n) (ch "{" :: r) =
  match skip_ws r with
  | d :: r' =>
      if (d =? ch "}")%N then Some (JObj [], r')
      else
        match parse_members n r with
        | Some (ms, r'') => Some (JObj (fold_left set_prop ms []), r'')
        | None => None
        end
  | [] => None
  end.
Proof. reflexivity. Qed.

Lemma parse_elements_step (n : nat) (s : jsstring) :
  parse_elements (S n) s =
  match parse_value n s with
  | None => None
  | Some (v, r) =>
      match skip_ws r with
      | [] => None
      | c :: r' =>
          if (c =? ch ",")%N then
            match parse_elements n r' with
            | Some (vs, r'') => Some (v :: vs, r'')
            | None => None
            end
          else if (c =? ch "]")%N then Some ([v], r')
          else None
      end
  end.
Proof. reflexivity. Qed.

Lemma parse_members_step (n : nat) (r : jsstring) :
  parse_members (S n) (34%N :: r) =
  match parse_chars r with
  | None => None
  | Some (k, r1) =>
      match skip_ws r1 with
      | [] => None
      | c :: r2 =>
          if negb (c =? ch ":")%N then None else
          match parse_value n r2 with
          | None => None
          | Some (v, r3) =>
              match skip_ws r3 with
              | [] => None
              | c' :: r4 =>
                  if (c' =? ch ",")%N then
                    match parse_members n r4 with
                    | Some (ms, r5) => Some ((k, v) :: ms, r5)
                    | None => None
                    end
                  else if (c' =? ch "}")%N then Some ([(k, v)], r4)
                  else None
              end
          end
      end
  end.
Proof. reflexivity. Qed.

(** Defining properties of distinct names lists them in order. *)

Lemma set_prop_new (props : list (jsstring * jsval)) (k : jsstring) (v : jsval) :
  ~ In k (map fst props) -> set_prop props (k, v) = props ++ [(k, v)].
Proof.
  induction props as [|[k' v'] props IH]; simpl; intros Hk; [reflexivity|].
  assert (Hne : str_eqb k' k = false) by (apply str_eqb_neq; tauto).
  rewrite Hne. f_equal. apply IH. tauto.
Qed.

Lemma fold_set_prop (ms acc : list (jsstring * jsval)) :
  NoDup (map fst (acc ++ ms)) -> fold_left set_prop ms acc = acc ++ ms.
Proof.
  revert acc. induction ms as [|[k v] ms IH]; intros acc Hnd; simpl.
  - now rewrite app_nil_r.
  - rewrite set_prop_new.
    + rewrite IH; rewrite <- app_assoc; [reflexivity | exact Hnd].
    + rewrite map_app in Hnd. simpl in Hnd.
      apply NoDup_remove_2 in Hnd. rewrite in_app_iff in Hnd. tauto.
Qed.

Ltac lengths :=
  repeat first [rewrite length_app in * | progress cbn [length] in * ]; lia.

Lemma parse_elements_print (vs : list jsval) :
  vs <> [] -> Forall reads_back vs ->
  forall n rest,
    (2 * length (join (map JSON_stringify vs) ++ ch "]" :: rest) + 1 < n)%nat ->
    parse_elements n (join (map JSON_stringify vs) ++ ch "]" :: rest) =
    Some (vs, rest).
Proof.
  induction vs as [|v vs IH]; [congruence|]. intros _ Hall n rest Hn.
  inversion Hall as [|v' vs' Hv Hvs]; subst.
  destruct n as [|n]; [lia|]. rewrite parse_elements_step.
  destruct vs as [|v2 vs].
  - cbn [map join] in *.
    rewrite (Hv n (ch "]" :: rest)); [reflexivity | simpl; tauto | lengths].
  - change (join (map JSON_stringify (v :: v2 :: vs)))
      with (JSON_stringify v ++ ch "," :: join (map JSON_stringify (v2 :: vs))) in *.
    rewrite <- app_assoc in *. cbn [app] in *.
    rewrite (Hv n); [| simpl; tauto | lengths].
    cbn [skip_ws is_json_ws]. change (is_json_ws (ch ",")) with false. cbv iota.
    rewrite N.eqb_refl.
    rewrite IH; [reflexivity | discriminate | exact Hvs | lengths].
Qed.

Lemma parse_members_print (ms : list (jsstring * jsval)) :
  ms <> [] -> Forall (fun kv => reads_back (snd kv)) ms ->
  forall n rest,
    (2 * length (join (map print_member ms) ++ ch "}" :: rest) + 1 < n)%nat ->
    parse_members n (join (map print_member ms) ++ ch "}" :: rest) =
    Some (ms, rest).
Proof.
  induction ms as [|[k v] ms IH]; [congruence|]. intros _ Hall n rest Hn.
  inversion Hall as [|kv' ms' Hv Hms]; subst. simpl in Hv.
  destruct n as [|n]; [lia|].
  assert (Hmember : forall tail,
            print_member (k, v) ++ tail =
            34%N :: quote_chars k ++ 34%N :: ch ":" :: JSON_stringify v ++ tail).
  { intros tail. unfold print_member, quote. simpl fst. simpl snd.
    cbn [app]. now rewrite <- !app_assoc. }
  destruct ms as [|kv2 ms].
  - cbn [map join] in *. rewrite Hmember in *.
    rewrite parse_members_step, parse_chars_quote_chars.
    change (skip_ws (ch ":" :: JSON_stringify v ++ ch "}" :: rest))
      with (ch ":" :: JSON_stringify v ++ ch "}" :: rest).
    cbv iota. rewrite N.eqb_refl. cbn [negb].
    rewrite (Hv n (ch "}" :: rest)); [reflexivity | simpl; tauto | lengths].
  - change (join (map print_member ((k, v) :: kv2 :: ms)))
      with (print_member (k, v) ++ ch "," :: join (map print_member (kv2 :: ms))) in *.
    rewrite <- app_assoc in *. rewrite Hmember in *.
    rewrite parse_members_step, parse_chars_quote_chars.
    cbn [app] in *.
    match goal with
    | |- context [skip_ws (ch ":" :: ?t)] =>
        change (skip_ws (ch ":" :: t)) with (ch ":" :: t)
    end.
    cbv iota. rewrite N.eqb_refl. cbn [negb].
    rewrite (Hv n); [| simpl; tauto | lengths].
    match goal with
    | |- context [skip_ws (ch "," :: ?t)] =>
        change (skip_ws (ch "," :: t)) with (ch "," :: t)
    end.
    cbv iota. rewrite N.eqb_refl.
    rewrite IH; [reflexivity | discriminate | exact Hms | lengths].
Qed.

Lemma well_keyed_items (items : list jsval) :
  fold_right and True (map well_keyed items) -> Forall well_keyed items.
Proof.
  induction items as [|v items IH]; simpl; [constructor|].
  intros [Hv Hitems]. constructor; [exact Hv | now apply IH].
Qed.

Lemma well_keyed_props (props : list (jsstring * jsval)) :
  fold_right and True (map (fun kv => well_keyed (snd kv)) props) ->
  Forall (fun kv => well_keyed (snd kv)) props.
Proof.
  induction props as [|kv props IH]; simpl; [constructor|].
  intros [Hv Hprops]. constructor; [exact Hv | now apply IH].
Qed.

Lemma Forall_imp2 {A} (P Q : A -> Prop) (l : list A) :
  Forall (fun x => P x -> Q x) l -> Forall P l -> Forall Q l.
Proof.
  induction 1 as [|x l Hx _ IH]; intros HP; constructor;
    inversion HP; subst; auto.
Qed.

Lemma parse_value_print (v : jsval) : well_keyed v -> reads_back v.
Proof.
  induction v as [ | b | m e | s | items IH | props IH ] using jsval_ind;
    intros Hwk n rest Hrest Hn; (destruct n as [|n]; [lia|]).
  - apply parse_value_null.
  - destruct b; [apply parse_value_true | apply parse_value_false].
  - cbn [JSON_stringify] in *.
    destruct (print_number_head m e) as (c & r & Hc & Hhead).
    rewrite Hc. cbn [app]. rewrite (parse_value_number n c _ Hhead).
    change (c :: r ++ rest) with ((c :: r) ++ rest). rewrite <- Hc.
    now rewrite (parse_number_print m e rest (ends_value_number rest Hrest)).
  - cbn [JSON_stringify]. unfold quote. cbn [app]. rewrite <- app_assoc.
    cbn [app]. rewrite parse_value_string, parse_chars_quote_chars. reflexivity.
  - cbn [JSON_stringify] in *. cbn [app] in *. rewrite <- app_assoc in *.
    cbn [app] in *. rewrite parse_value_array.
    cbn [well_keyed] in Hwk. apply well_keyed_items in Hwk.
    pose proof (Forall_imp2 _ _ _ IH Hwk) as Hall.
    destruct items as [|v items]; [reflexivity|].
    destruct (stringify_opens v) as (c & r & Hc & Hopen).
    destruct (opens_value_facts c Hopen) as (Hws & Hclose & _).
    assert (Hhead : exists t, join (map JSON_stringify (v :: items)) = c :: t).
    { cbn [map join]. rewrite Hc. destruct (map JSON_stringify items); eexists; reflexivity. }
    destruct Hhead as (t & Ht).
    rewrite Ht at 1. cbn [app skip_ws]. rewrite Hws.
    rewrite (proj2 (N.eqb_neq c (ch "]")) Hclose).
    rewrite parse_elements_print; [reflexivity | discriminate | exact Hall | lengths].
  - cbn [JSON_stringify] in *. cbn [app] in *. rewrite <- app_assoc in *.
    cbn [app] in *. rewrite parse_value_object.
    cbn [well_keyed] in Hwk. destruct Hwk as [Hnd Hwk].
    apply well_keyed_props in Hwk.
    pose proof (Forall_imp2 _ _ _ IH Hwk) as Hall.
    destruct props as [|kv props]; [reflexivity|].
    change (fun kv0 : jsstring * jsval =>
              quote (fst kv0) ++ ch ":" :: JSON_stringify (snd kv0))
      with print_member in *.
    assert (Hhead : exists t, join (map print_member (kv :: props)) = 34%N :: t).
    { assert (Hq : exists t, print_member kv = 34%N :: t)
        by (eexists; reflexivity).
      destruct Hq as (t & Hq). cbn [map join]. rewrite Hq.
      destruct (map print_member props); eexists; reflexivity. }
    destruct Hhead as (t & Ht).
    rewrite Ht at 1. cbn [app skip_ws].
    change (is_json_ws 34) with false. cbv iota.
    change (34 =? ch "}")%N with false. cbv iota.
    rewrite parse_members_print; [| discriminate | exact Hall |].
    + now rewrite (fold_set_prop (kv :: props) []).
    + lengths.
Qed.

(** [JSON.parse(JSON.stringify(v))] is [v]. *)
Theorem JSON_parse_stringify (v : jsval) :
  well_keyed v -> JSON_parse (JSON_stringify v) = Normal v.
Proof.
  intros Hwk. unfold JSON_parse.
  pose proof (parse_value_print v Hwk (2 * length (JSON_stringify v) + 1) []) as H.
  rewrite app_nil_r in H. rewrite H; [reflexivity | exact I | lia].
Qed.

(** ** The fuel of the parser

    Whatever a run of the parser returns with some fuel, it returns with the
    fuel that [JSON_parse] gives it: a [Throw] of [JSON_parse] is a syntax
    error and never a lack of fuel. *)

Lemma skip_ws_length (s : jsstring) : (length (skip_ws s) <= length s)%nat.
Proof.
  induction s as [|c s IH]; simpl; [lia|]. destruct (is_json_ws c); simpl; lia.
Qed.

Lemma skip_ws_cons (s r : jsstring) (c : N) :
  skip_ws s = c :: r -> (length r < length s)%nat.
Proof. intros H. pose proof (skip_ws_length s). rewrite H in *. simpl in *. lia. Qed.

Lemma push_some {A} (c : N) (p : option (jsstring * A)) (s : jsstring) (rest : A) :
  push c p = Some (s, rest) -> exists s', p = Some (s', rest) /\ s = c :: s'.
Proof.
  destruct p as [[s' rest']|]; simpl; [|discriminate].
  intros [= <- <-]. now exists s'.
Qed.

Lemma parse_chars_length (s str rest : jsstring) :
  parse_chars s = Some (str, rest) -> (length rest < length s)%nat.
Proof.
  remember (length s) as n eqn:Hn.
  assert (Hle : (length s <= n)%nat) by lia. clear Hn.
  revert s str rest Hle. induction n as [|n IH]; intros [|c r] str rest Hle H;
    simpl in Hle; try lia; try discriminate H.
  cbn [parse_chars] in H.
  destruct (c =? 34)%N; [injection H as _ <-; simpl; lia|].
  destruct (c =? 92)%N.
  - destruct r as [|e r1]; [discriminate|].
    destruct (e =? ch "u")%N.
    + destruct r1 as [|h1 [|h2 [|h3 [|h4 r2]]]]; try discriminate.
      destruct (hex4 h1 h2 h3 h4); [|discriminate].
      apply push_some in H. destruct H as (s' & H & _).
      apply IH in H; simpl in *; lia.
    + destruct (unescape e); [|discriminate].
      apply push_some in H. destruct H as (s' & H & _).
      apply IH in H; simpl in *; lia.
  - destruct (c <? 32)%N; [discriminate|].
    apply push_some in H. destruct H as (s' & H & _).
    apply IH in H; simpl in *; lia.
Qed.

Lemma digits_length (s ds rest : jsstring) :
  digits s = (ds, rest) -> length s = (length ds + length rest)%nat.
Proof.
  revert ds rest. induction s as [|c s IH]; intros ds rest H; simpl in H.
  - now injection H as <- <-.
  - destruct (is_digit c).
    + destruct (digits s) as [ds' r'] eqn:E. injection H as <- <-.
      simpl. now rewrite (IH ds' r' eq_refl).
    + now injection H as <- <-.
Qed.

Lemma eat_length (c : N) (s rest : jsstring) (b : bool) :
  eat c s = (b, rest) -> (length rest <= length s)%nat.
Proof.
  unfold eat. destruct s as [|d s]; [now intros [= _ <-]|].
  destruct (d =? c)%N; intros [= _ <-]; simpl; lia.
Qed.

Lemma parse_frac_length (s frac rest : jsstring) :
  parse_frac s = Some (frac, rest) -> (length rest <= length s)%nat.
Proof.
  unfold parse_frac. destruct (eat (ch ".") s) as [point r] eqn:Heat.
  apply eat_length in Heat. destruct point.
  - destruct (digits r) as [fs r'] eqn:Hd. apply digits_length in Hd.
    destruct fs; [discriminate|]. intros [= _ <-]. lia.
  - now intros [= _ <-].
Qed.

Lemma parse_exp_length (s rest : jsstring) (x : Z) :
  parse_exp s = Some (x, rest) -> (length rest <= length s)%nat.
Proof.
  unfold parse_exp. destruct s as [|c r]; [now intros [= _ <-]|].
  destruct ((c =? ch "e")%N || (c =? ch "E")%N); [|now intros [= _ <-]].
  destruct (eat (ch "-") r) as [minus r1] eqn:Hminus.
  apply eat_length in Hminus.
  assert (Hplus : forall plus r2,
            (if minus then (false, r1) else eat (ch "+") r) = (plus, r2) ->
            (length r2 <= length r)%nat).
  { intros plus r2. destruct minus; [now intros [= _ <-]|]. apply eat_length. }
  destruct (if minus then (false, r1) else eat (ch "+") r) as [plus r2].
  specialize (Hplus plus r2 eq_refl).
  destruct (digits r2) as [es r3] eqn:Hd. apply digits_length in Hd.
  destruct es; [discriminate|]. intros [= _ <-]. simpl. lia.
Qed.

Lemma parse_number_length (s rest : jsstring) (m e : Z) :
  parse_number s = Some (m, e, rest) -> (length rest < length s)%nat.
Proof.
  unfold parse_number. destruct (eat (ch "-") s) as [neg s1] eqn:Heat.
  apply eat_length in Heat.
  destruct (digits s1) as [int s2] eqn:Hd. apply digits_length in Hd.
  destruct int as [|d int']; [discriminate|].
  destruct ((d =? 48)%N && str_truthy int'); [discriminate|].
  destruct (parse_frac s2) as [[frac s3]|] eqn:Hfrac; [|discriminate].
  apply parse_frac_length in Hfrac.
  destruct (parse_exp s3) as [[x s4]|] eqn:Hexp; [|discriminate].
  apply parse_exp_length in Hexp.
  intros [= _ _ <-]. simpl in Hd. lia.
Qed.

Lemma strip_prefix_length (lit s rest : jsstring) :
  strip_prefix lit s = Some rest -> (length rest + length lit = length s)%nat.
Proof.
  revert s. induction lit as [|c lit IH]; intros s H; simpl in H.
  - injection H as <-. simpl. lia.
  - destruct s as [|d s]; [discriminate|].
    destruct (c =? d)%N; [|discriminate]. apply IH in H. simpl. lia.
Qed.

Lemma parser_consumes (n : nat) : consumes n.
Proof.
  induction n as [|n (IHv & IHe & IHm)]; [repeat split; discriminate|].
  assert (Hvalue : forall s v rest, parse_value (S n) s = Some (v, rest) ->
                     (length rest < length s)%nat).
  { intros s v rest H. cbn [parse_value] in H.
    destruct (skip_ws s) as [|c r] eqn:Hskip; [discriminate|].
    apply skip_ws_cons in Hskip.
    destruct (c =? ch "{")%N.
    { destruct (skip_ws r) as [|d r'] eqn:Hskip'; [discriminate|].
      apply skip_ws_cons in Hskip'.
      destruct (d =? ch "}")%N; [injection H as _ <-; lia|].
      destruct (parse_members n r) as [[ms r'']|] eqn:Hm; [|discriminate].
      apply IHm in Hm. injection H as _ <-. lia. }
    destruct (c =? ch "[")%N.
    { destruct (skip_ws r) as [|d r'] eqn:Hskip'; [discriminate|].
      apply skip_ws_cons in Hskip'.
      destruct (d =? ch "]")%N; [injection H as _ <-; lia|].
      destruct (parse_elements n r) as [[vs r'']|] eqn:He; [|discriminate].
      apply IHe in He. injection H as _ <-. lia. }
    destruct (c =? 34)%N.
    { destruct (parse_chars r) as [[str r']|] eqn:Hc; [|discriminate].
      apply parse_chars_length in Hc. injection H as _ <-. lia. }
    destruct (strip_prefix (js "null") (c :: r)) as [r'|] eqn:H1.
    { apply strip_prefix_length in H1. injection H as _ <-. simpl in H1. lia. }
    destruct (strip_prefix (js "true") (c :: r)) as [r'|] eqn:H2.
    { apply strip_prefix_length in H2. injection H as _ <-. simpl in H2. lia. }
    destruct (strip_prefix (js "false") (c :: r)) as [r'|] eqn:H3.
    { apply strip_prefix_length in H3. injection H as _ <-. simpl in H3. lia. }
    destruct (parse_number (c :: r)) as [[[m e] r']|] eqn:H4; [|discriminate].
    apply parse_number_length in H4. injection H as _ <-. simpl in H4. lia. }
  repeat split; [exact Hvalue | |].
  - intros s vs rest H. cbn [parse_elements] in H.
    destruct (parse_value n s) as [[v r]|] eqn:Hv; [|discriminate].
    apply IHv in Hv.
    destruct (skip_ws r) as [|c r'] eqn:Hskip; [discriminate|].
    apply skip_ws_cons in Hskip.
    destruct (c =? ch ",")%N.
    + destruct (parse_elements n r') as [[vs' r'']|] eqn:He; [|discriminate].
      apply IHe in He. injection H as _ <-. lia.
    + destruct (c =? ch "]")%N; [|discriminate]. injection H as _ <-. lia.
  - intros s ms rest H. cbn [parse_members] in H.
    destruct (skip_ws s) as [|q r] eqn:Hskip; [discriminate|].
    apply skip_ws_cons in Hskip.
    destruct (negb (q =? 34)%N); [discriminate|].
    destruct (parse_chars r) as [[k r1]|] eqn:Hc; [|discriminate].
    apply parse_chars_length in Hc.
    destruct (skip_ws r1) as [|c r2] eqn:Hskip1; [discriminate|].
    apply skip_ws_cons in Hskip1.
    destruct (negb (c =? ch ":")%N); [discriminate|].
    destruct (parse_value n r2) as [[v r3]|] eqn:Hv; [|discriminate].
    apply IHv in Hv.
    destruct (skip_ws r3) as [|c' r4] eqn:Hskip3; [discriminate|].
    apply skip_ws_cons in Hskip3.
    destruct (c' =? ch ",")%N.
    + destruct (parse_members n r4) as [[ms' r5]|] eqn:Hm; [|discriminate].
      apply IHm in Hm. injection H as _ <-. lia.
    + destruct (c' =? ch "}")%N; [|discriminate]. injection H as _ <-. lia.
Qed.

Lemma parser_fuel (m : nat) : fuel_enough m.
Proof.
  induction m as [|m (IHv & IHe & IHm)]; [repeat split; discriminate|].
  destruct (parser_consumes m) as (Cv & Ce & Cm).
  repeat split.
  - intros s res [|n] H Hn; [lia|]. cbn [parse_value] in *.
    destruct (skip_ws s) as [|c r] eqn:Hskip; [discriminate|].
    apply skip_ws_cons in Hskip.
    destruct (c =? ch "{")%N.
    { destruct (skip_ws r) as [|d r'] eqn:Hskip'; [discriminate|].
      destruct (d =? ch "}")%N; [exact H|].
      destruct (parse_members m r) as [[ms r'']|] eqn:Hm; [|discriminate].
      rewrite (IHm r (ms, r'') n Hm); [exact H | lia]. }
    destruct (c =? ch "[")%N.
    { destruct (skip_ws r) as [|d r'] eqn:Hskip'; [discriminate|].
      destruct (d =? ch "]")%N; [exact H|].
      destruct (parse_elements m r) as [[vs r'']|] eqn:He; [|discriminate].
      rewrite (IHe r (vs, r'') n He); [exact H | lia]. }
    exact H.
  - intros s res [|n] H Hn; [lia|]. cbn [parse_elements] in *.
    destruct (parse_value m s) as [[v r]|] eqn:Hv; [|discriminate].
    rewrite (IHv s (v, r) n Hv) by lia. apply Cv in Hv.
    destruct (skip_ws r) as [|c r'] eqn:Hskip; [discriminate|].
    apply skip_ws_cons in Hskip.
    destruct (c =? ch ",")%N; [|exact H].
    destruct (parse_elements m r') as [[vs' r'']|] eqn:He; [|discriminate].
    rewrite (IHe r' (vs', r'') n He); [exact H | lia].
  - intros s res [|n] H Hn; [lia|]. cbn [parse_members] in *.
    destruct (skip_ws s) as [|q r] eqn:Hskip; [discriminate|].
    apply skip_ws_cons in Hskip.
    destruct (negb (q =? 34)%N); [discriminate|].
    destruct (parse_chars r) as [[k r1]|] eqn:Hc; [|discriminate].
    apply parse_chars_length in Hc.
    destruct (skip_ws r1) as [|c r2] eqn:Hskip1; [discriminate|].
    apply skip_ws_cons in Hskip1.
    destruct (negb (c =? ch ":")%N); [discriminate|].
    destruct (parse_value m r2) as [[v r3]|] eqn:Hv; [|discriminate].
    rewrite (IHv r2 (v, r3) n Hv) by lia. apply Cv in Hv.
    destruct (skip_ws r3) as [|c' r4] eqn:Hskip3; [discriminate|].
    apply skip_ws_cons in Hskip3.
    destruct (c' =? ch ",")%N; [|exact H].
    destruct (parse_members m r4) as [[ms' r5]|] eqn:Hm; [|discriminate].
    rewrite (IHm r4 (ms', r5) n Hm); [exact H | lia].
Qed.

(** [JSON_parse] returns a value exactly when some run of the parser reads
    the whole text as that value. *)
Theorem JSON_parse_any_fuel (text : jsstring) (v : jsval) :
  JSON_parse text = Normal v <->
  exists fuel rest, parse_value fuel text = Some (v, rest) /\ skip_ws rest = [].
Proof.
  unfold JSON_parse. split.
  - destruct (parse_value (2 * length text + 1) text) as [[v' rest]|] eqn:H;
      [|discriminate].
    destruct (skip_ws rest) eqn:Hrest; [|discriminate].
    intros [= <-]. now exists (2 * length text + 1)%nat, rest.
  - intros (fuel & rest & H & Hrest).
    destruct (parser_fuel fuel) as (Hv & _ & _).
    rewrite (Hv text (v, rest) (2 * length text + 1)%nat H) by lia.
    now rewrite Hrest.
Qed.

(** * Properties of loading and saving *)

Lemma JSON_parse_empty : JSON_parse [] = Throw.
Proof. reflexivity. Qed.

(** What [loadState] returns once the stored text has parsed. *)
Lemma loadState_parsed (st : Storage) (text : jsstring) (parsed : jsval) :
  getItem st = Normal (Some text) ->
  JSON_parse text = Normal parsed ->
  loadState st = if shape_ok parsed then Some parsed else None.
Proof.
  intros Hget Hparse. unfold loadState. rewrite Hget.
  cbn [bind]. destruct text as [|c text]; [discriminate Hparse|].
  cbn [str_truthy negb]. rewrite Hparse. cbn [bind]. unfold shape_ok.
  destruct parsed as [ | b | m e | s | items | props ]; try reflexivity.
  cbn [member bind property].
  destruct (truthy (lookup (key_name Do) props)); [|reflexivity].
  destruct (truthy (lookup (key_name Schedule) props)); [|reflexivity].
  destruct (truthy (lookup (key_name Delegate) props)); [|reflexivity].
  destruct (truthy (lookup (key_name Eliminate) props)); reflexivity.
Qed.

Lemma shape_ok_false (v : jsval) (q : QuadrantKey) :
  truthy (property v q) = false -> shape_ok v = false.
Proof.
  unfold shape_ok. intros H. destruct q; rewrite H;
    repeat rewrite ?andb_false_r, ?andb_false_l; reflexivity.
Qed.

Lemma shape_ok_true (v : jsval) :
  (forall q, truthy (property v q) = true) -> shape_ok v = true.
Proof.
  intros H. unfold shape_ok.
  now rewrite (H Do), (H Schedule), (H Delegate), (H Eliminate).
Qed.

Lemma loadState_some (st : Storage) (v : jsval) :
  loadState st = Some v ->
  exists text,
    getItem st = Normal (Some text) /\ str_truthy text = true /\
    JSON_parse text = Normal v /\ shape_ok v = true /\
    exists props, v = JObj props.
Proof.
  unfold loadState.
  destruct (getItem st) as [[text|]|] eqn:Hget; cbn [bind try_catch];
    try discriminate.
  destruct (str_truthy text) eqn:Htext; cbn [negb]; [|discriminate].
  destruct (JSON_parse text) as [parsed|] eqn:Hparse; cbn [bind try_catch];
    [|discriminate].
  destruct parsed as [ | b | m e | s | items | props ]; cbn [member bind try_catch];
    try discriminate.
  destruct (truthy (lookup (key_name Do) props)) eqn:H1;
    cbn [negb bind try_catch]; [|discriminate].
  destruct (truthy (lookup (key_name Schedule) props)) eqn:H2;
    cbn [negb bind try_catch]; [|discriminate].
  destruct (truthy (lookup (key_name Delegate) props)) eqn:H3;
    cbn [negb bind try_catch]; [|discriminate].
  destruct (truthy (lookup (key_name Eliminate) props)) eqn:H4;
    cbn [negb bind try_catch]; [|discriminate].
  intros [= <-]. exists text.
  split; [reflexivity|]. split; [exact Htext|]. split; [exact Hparse|].
  split; [|now exists props].
  unfold shape_ok. cbn [property]. now rewrite H1, H2, H3, H4.
Qed.

(** C7.  [loadState] is a function to an optional value: whatever is
    stored, it returns and does not throw.  It returns absent when nothing is
    stored under the key, when reading the storage throws, when the stored
    text is empty or does not parse, and when the parsed value has no
    property under one of the four quadrant keys. *)
Theorem loadState_absent (st : Storage) :
  (getItem st = Normal None -> loadState st = None) /\
  (getItem st = Throw -> loadState st = None) /\
  (getItem st = Normal (Some []) -> loadState st = None) /\
  (forall text, getItem st = Normal (Some text) -> JSON_parse text = Throw ->
     loadState st = None) /\
  (forall text parsed q, getItem st = Normal (Some text) ->
     JSON_parse text = Normal parsed -> property parsed q = None ->
     loadState st = None).
Proof.
  split; [|split; [|split; [|split]]].
  - intros H. unfold loadState. now rewrite H.
  - intros H. unfold loadState. now rewrite H.
  - intros H. unfold loadState. now rewrite H.
  - intros text Hget Hparse. unfold loadState. rewrite Hget. cbn [bind].
    destruct (str_truthy text); [|reflexivity]. cbn [negb]. now rewrite Hparse.
  - intros text parsed q Hget Hparse Hmissing.
    rewrite (loadState_parsed st text parsed Hget Hparse).
    rewrite (shape_ok_false parsed q); [reflexivity|]. now rewrite Hmissing.
Qed.

Lemma loadState_absent_witness :
  loadState empty_storage = None /\
  loadState denied_storage = None /\
  loadState (holding broken_text) = None /\
  loadState (holding three_quadrants) = None.
Proof.
  split; [|split; [|split]].
  - apply (proj1 (loadState_absent empty_storage)). reflexivity.
  - apply (proj1 (proj2 (loadState_absent denied_storage))). reflexivity.
  - apply (proj1 (proj2 (proj2 (proj2 (loadState_absent (holding broken_text)))))
             broken_text); reflexivity.
  - apply (proj2 (proj2 (proj2 (proj2 (loadState_absent (holding three_quadrants)))))
             three_quadrants
             (JObj [(js "do", JArr []); (js "schedule", JArr []);
                    (js "delegate", JArr [])])
             Eliminate); reflexivity.
Defined.

(** C10.  The check of [loadState] is truthiness of the four quadrant
    properties and nothing more.  A stored text that parses to a value whose
    four properties are truthy is returned as parsed, whatever the properties
    hold: some stored text gives a result that is no board.  A quadrant key
    bound to a falsy value, such as [null], zero or the empty string, counts
    as missing: the result is absent. *)
Theorem loadState_shallow :
  (forall st text parsed,
     getItem st = Normal (Some text) ->
     JSON_parse text = Normal parsed ->
     (forall q, truthy (property parsed q) = true) ->
     loadState st = Some parsed) /\
  (exists text v,
     loadState (holding text) = Some v /\ as_board v = None) /\
  (forall st text parsed q v,
     getItem st = Normal (Some text) -> JSON_parse text = Normal parsed ->
     property parsed q = Some v -> truthy (Some v) = false ->
     loadState st = None) /\
  truthy (Some JNull) = false /\
  truthy (Some (JNum 0 0)) = false /\
  truthy (Some (JStr [])) = false.
Proof.
  split; [|split; [|split; [|repeat split]]].
  - intros st text parsed Hget Hparse Hall.
    rewrite (loadState_parsed st text parsed Hget Hparse).
    now rewrite (shape_ok_true parsed Hall).
  - exists not_a_board. eexists. split; [vm_compute; reflexivity | reflexivity].
  - intros st text parsed q v Hget Hparse Hprop Hfalsy.
    rewrite (loadState_parsed st text parsed Hget Hparse).
    rewrite (shape_ok_false parsed q); [reflexivity|]. now rewrite Hprop.
Qed.

Lemma loadState_shallow_witness :
  loadState (holding not_a_board) =
    Some (JObj [(js "do", JNum 1 0); (js "schedule", JStr (js "later"));
                (js "delegate", JBool true); (js "eliminate", JObj [])]) /\
  loadState (holding null_quadrant) = None /\
  loadState (holding zero_quadrant) = None /\
  loadState (holding blank_quadrant) = None.
Proof.
  split; [|split; [|split]].
  - apply (proj1 loadState_shallow (holding not_a_board) not_a_board);
      try reflexivity. intros []; reflexivity.
  - apply (proj1 (proj2 (proj2 loadState_shallow)) (holding null_quadrant)
             null_quadrant
             (JObj [(js "do", JArr []); (js "schedule", JArr []);
                    (js "delegate", JNull); (js "eliminate", JArr [])])
             Delegate JNull); reflexivity.
  - apply (proj1 (proj2 (proj2 loadState_shallow)) (holding zero_quadrant)
             zero_quadrant
             (JObj [(js "do", JNum 0 0); (js "schedule", JArr []);
                    (js "delegate", JArr []); (js "eliminate", JArr [])])
             Do (JNum 0 0)); reflexivity.
  - apply (proj1 (proj2 (proj2 loadState_shallow)) (holding blank_quadrant)
             blank_quadrant
             (JObj [(js "do", JArr []); (js "schedule", JStr []);
                    (js "delegate", JArr []); (js "eliminate", JArr [])])
             Schedule (JStr [])); reflexivity.
Defined.

(** ** Saving and loading a board *)

Lemma well_keyed_task (t : Task) : well_keyed (value_of_task t).
Proof.
  destruct t as [i ttl [n|] d c [u|]]; simpl; (split; [|tauto]);
    repeat constructor; simpl; intuition discriminate.
Qed.

Lemma well_keyed_tasks (ts : list Task) :
  fold_right and True (map well_keyed (map value_of_task ts)).
Proof.
  induction ts as [|t ts IH]; simpl; [exact I|].
  split; [apply well_keyed_task | exact IH].
Qed.

Lemma well_keyed_board (b : BoardState) : well_keyed (value_of_board b).
Proof.
  unfold value_of_board. cbn [well_keyed map fst snd fold_right]. split.
  - repeat constructor; simpl; intuition discriminate.
  - repeat split; apply well_keyed_tasks.
Qed.

Lemma as_task_value (t : Task) : as_task (value_of_task t) = Some t.
Proof.
  destruct t as [i ttl [n|] d c [u|]]; unfold as_task, value_of_task; simpl;
    now rewrite Z.mul_1_r.
Qed.

Lemma as_tasks_value (ts : list Task) : as_tasks (map value_of_task ts) = Some ts.
Proof.
  induction ts as [|t ts IH]; [reflexivity|].
  cbn [map as_tasks]. now rewrite as_task_value, IH.
Qed.

(** A board read back from its own value is the board. *)
Lemma as_board_value (b : BoardState) : as_board (value_of_board b) = Some b.
Proof.
  destruct b as [a s d e]. unfold as_board, value_of_board. simpl.
  now rewrite !as_tasks_value.
Qed.

Lemma shape_ok_board (b : BoardState) : shape_ok (value_of_board b) = true.
Proof. reflexivity. Qed.

Lemma stringify_board_nonempty (b : BoardState) :
  JSON_stringify (value_of_board b) <> [].
Proof. discriminate. Qed.

(** C6, as the code has it.  When the write goes through, that is, when
    [setItem] does not throw, [saveState] followed by [loadState] returns the
    value of the board, for every board: with empty quadrants or not, with or
    without notes and due dates.  Read at the type of a board the result is
    the board that was saved.  (When the write throws, [saveState] swallows
    the error and the storage keeps what it held.) *)
Theorem save_then_load (b : BoardState) (st st' : Storage) :
  setItem st (JSON_stringify (value_of_board b)) = Normal st' ->
  saveState (value_of_board b) st = st' /\
  loadState (saveState (value_of_board b) st) = Some (value_of_board b) /\
  as_board (value_of_board b) = Some b.
Proof.
  intros Hset. unfold saveState. rewrite Hset. cbn [try_catch].
  split; [reflexivity|]. split; [|apply as_board_value].
  assert (Hget : getItem st' = Normal (Some (JSON_stringify (value_of_board b)))).
  { unfold setItem in Hset. destruct (denied st) eqn:Hden; [discriminate|].
    destruct (room st <? _)%N; [discriminate|].
    injection Hset as <-. reflexivity. }
  rewrite (loadState_parsed st' _ (value_of_board b) Hget).
  - now rewrite shape_ok_board.
  - apply JSON_parse_stringify, well_keyed_board.
Qed.

Lemma save_then_load_witness :
  saveState (value_of_board two_tasks) empty_storage =
    holding (JSON_stringify (value_of_board two_tasks)) /\
  loadState (saveState (value_of_board two_tasks) empty_storage) =
    Some (value_of_board two_tasks) /\
  as_board (value_of_board two_tasks) = Some two_tasks.
Proof.
  apply (save_then_load two_tasks empty_storage
           (holding (JSON_stringify (value_of_board two_tasks)))).
  vm_compute. reflexivity.
Defined.

(** C6, as stated, fails on the code: a write that throws is swallowed.  In
    a storage without room for the text, or one the page may not use,
    [saveState] leaves the storage as it was and [loadState] does not return
    the board. *)
Lemma save_can_fail :
  loadState (saveState (value_of_board two_tasks) full_storage) = None /\
  loadState (saveState (value_of_board two_tasks) denied_storage) = None /\
  loadState (saveState (value_of_board two_tasks)
               (mkStorage (Some (JSON_stringify (value_of_board emptyBoard))) 60 false))
    = Some (value_of_board emptyBoard) /\
  value_of_board emptyBoard <> value_of_board two_tasks.
Proof.
  split; [|split; [|split]]; try (vm_compute; reflexivity).
  vm_compute. discriminate.
Qed.
(** * Hydration and saving *)

Lemma snoc_split {A} (l before after : list A) (x y : A) :
  l ++ [x] = before ++ y :: after ->
  (after = [] /\ l = before /\ x = y) \/
  (exists after', after = after' ++ [x] /\ l = before ++ y :: after').
Proof.
  destruct after as [|a after] using rev_ind; intros H.
  - left. apply app_inj_tail in H. tauto.
  - right. exists after.
    change (before ++ y :: after ++ [a]) with (before ++ (y :: after) ++ [a]) in H.
    rewrite app_assoc in H. apply app_inj_tail in H. destruct H as [-> ->]. tauto.
Qed.

Lemma saves_follow_load_nil : saves_follow_load [].
Proof. intros [|a before] state after H; discriminate H. Qed.

Lemma saves_follow_load_other (l : list Access) (a : Access) :
  (forall state, a <> Save state) ->
  saves_follow_load l -> saves_follow_load (l ++ [a]).
Proof.
  intros Ha Hl before state after H.
  apply snoc_split in H. destruct H as [(_ & _ & Heq) | (after' & _ & Heq)].
  - now apply Ha in Heq.
  - now apply (Hl before state after').
Qed.

Lemma saves_follow_load_save (l : list Access) (state : jsval) :
  In Load l -> saves_follow_load l -> saves_follow_load (l ++ [Save state]).
Proof.
  intros Hin Hl before state' after H.
  apply snoc_split in H. destruct H as [(_ & <- & _) | (after' & _ & Heq)].
  - exact Hin.
  - now apply (Hl before state' after').
Qed.

(** ** Boards of the declared type render *)

Lemma reads_done_app (l1 l2 : list jsval) :
  reads_done l1 = Normal tt -> reads_done l2 = Normal tt ->
  reads_done (l1 ++ l2) = Normal tt.
Proof.
  intros H1 H2. induction l1 as [|t l1 IH]; [exact H2|].
  cbn [app reads_done] in *. destruct (read t "done"); [|discriminate].
  cbn [bind] in *. now apply IH.
Qed.

Lemma reads_done_tasks (ts : list Task) :
  reads_done (map value_of_task ts) = Normal tt.
Proof. induction ts as [|t ts IH]; [reflexivity|]. exact IH. Qed.

Lemma TaskRow_task (t : Task) : TaskRow (value_of_task t) = Normal tt.
Proof.
  destruct t as [i ttl n d c u]. unfold TaskRow, value_of_task.
  destruct n as [n|], u as [u|]; cbn;
    unfold child_if_truthy, truthy;
    repeat match goal with
           | |- context [str_truthy ?s] => destruct (str_truthy s); cbn
           end; reflexivity.
Qed.

Lemma rows_tasks (ts : list Task) : rows (map value_of_task ts) = Normal tt.
Proof.
  induction ts as [|t ts IH]; [reflexivity|].
  cbn [map rows]. now rewrite TaskRow_task.
Qed.

Lemma QuadrantCard_tasks (ts : list Task) :
  QuadrantCard (Some (JArr (map value_of_task ts))) = Normal tt.
Proof. unfold QuadrantCard. rewrite reads_done_tasks. apply rows_tasks. Qed.

Lemma render_board (b : BoardState) : render (value_of_board b) = Normal tt.
Proof.
  unfold render, value_of_board.
  assert (Hall : reads_done
            (flatMap [(js "do", JArr (map value_of_task (do b)));
                      (js "schedule", JArr (map value_of_task (schedule b)));
                      (js "delegate", JArr (map value_of_task (delegate b)));
                      (js "eliminate", JArr (map value_of_task (eliminate b)))])
          = Normal tt).
  { unfold flatMap. cbn [flat_map snd]. rewrite app_nil_r.
    repeat apply reads_done_app; apply reads_done_tasks. }
  rewrite Hall. cbn [bind].
  change (lookup (js "do") _) with (Some (JArr (map value_of_task (do b)))).
  rewrite QuadrantCard_tasks. cbn [bind].
  change (lookup (js "schedule") _) with (Some (JArr (map value_of_task (schedule b)))).
  rewrite QuadrantCard_tasks. cbn [bind].
  change (lookup (js "delegate") _) with (Some (JArr (map value_of_task (delegate b)))).
  rewrite QuadrantCard_tasks. cbn [bind].
  change (lookup (js "eliminate") _) with (Some (JArr (map value_of_task (eliminate b)))).
  apply QuadrantCard_tasks.
Qed.

Lemma render_cases (v : jsval) : render v = Normal tt \/ render v = Throw.
Proof. destruct (render v) as [[]|]; [now left | now right]. Qed.

(** ** The order of the accesses *)

Lemma ordered_save_effect (c : Component) : ordered c -> ordered (save_effect c).
Proof.
  intros [Hs Hh]. unfold save_effect.
  destruct (hydrated c) eqn:E; cbn [negb]; [|rewrite <- E in Hh; now split].
  specialize (Hh eq_refl). split; cbn.
  - now apply saves_follow_load_save.
  - intros _. apply in_or_app. now left.
Qed.

Lemma ordered_commit (c : Component) : ordered c -> ordered (commit c).
Proof.
  intros Hc. unfold commit. destruct (render (board c)).
  - now apply ordered_save_effect.
  - destruct Hc as [Hs _]. split; [exact Hs | discriminate].
Qed.

Lemma ordered_mount (c : Component) : ordered c -> ordered (mount c).
Proof.
  intros [Hs Hh]. unfold mount.
  set (c1 := mkComponent (board c) (hydrated c) (storage c) (accesses c ++ [Load])).
  assert (H1 : ordered c1).
  { split; cbn.
    - apply saves_follow_load_other; [discriminate | exact Hs].
    - intros _. apply in_or_app. right. now left. }
  assert (Hload : In Load (accesses (save_effect c1))).
  { unfold save_effect, c1. cbn. destruct (hydrated c); cbn;
      rewrite ?in_app_iff; simpl; tauto. }
  pose proof (ordered_save_effect c1 H1) as [Hs2 _].
  match goal with
  | |- ordered (if _ then commit ?c3 else ?c3) =>
      assert (H3 : ordered c3) by (split; [exact Hs2 | intros _; exact Hload]);
      destruct (_ || _); [now apply ordered_commit | exact H3]
  end.
Qed.

Lemma commit_accesses (c : Component) (a : Access) :
  In a (accesses c) -> In a (accesses (commit c)).
Proof.
  intros H. unfold commit, save_effect, unmounted.
  destruct (render (board c)); [|exact H].
  destruct (hydrated c); cbn; [|exact H]. apply in_or_app. now left.
Qed.

Lemma mount_loads (c : Component) : In Load (accesses (mount c)).
Proof.
  unfold mount.
  set (c1 := mkComponent (board c) (hydrated c) (storage c) (accesses c ++ [Load])).
  assert (Hload : In Load (accesses (save_effect c1))).
  { unfold save_effect, c1. cbn. destruct (hydrated c); cbn;
      rewrite ?in_app_iff; simpl; tauto. }
  destruct (_ || _); [|exact Hload].
  apply commit_accesses. exact Hload.
Qed.

Lemma ordered_step (c : Component) (e : Event) : ordered c -> ordered (step c e).
Proof.
  intros Hc. destruct e as [ | h | ]; cbn [step].
  - now apply ordered_mount.
  - unfold dispatch. destruct (h (board c)); [|exact Hc].
    apply ordered_commit. exact Hc.
  - unfold confirmReset. apply ordered_commit. destruct Hc as [Hs Hh].
    split; cbn.
    + apply saves_follow_load_other; [discriminate | exact Hs].
    + intros H. apply in_or_app. left. auto.
Qed.

Lemma ordered_steps (es : list Event) (c : Component) :
  ordered c -> ordered (steps es c).
Proof.
  revert c. induction es as [|e es IH]; intros c Hc; [exact Hc|].
  apply IH. now apply ordered_step.
Qed.

Lemma save_effect_hydrated (c : Component) :
  hydrated (save_effect c) = hydrated c.
Proof. unfold save_effect. destruct (hydrated c) eqn:E; cbn; congruence. Qed.

Lemma save_effect_unhydrated (c : Component) :
  hydrated c = false -> save_effect c = c.
Proof. intros H. unfold save_effect. now rewrite H. Qed.

(** Without a mount nothing is saved and the component is not hydrated. *)
Lemma unhydrated_step (c : Component) (e : Event) :
  e <> Mount -> hydrated c = false ->
  hydrated (step c e) = false /\
  forall state, In (Save state) (accesses (step c e)) -> In (Save state) (accesses c).
Proof.
  intros He Hc. destruct e as [ | h | ]; [contradiction | |]; cbn [step].
  - unfold dispatch. destruct (h (board c)) as [v|]; [|now split].
    unfold commit. cbn [board]. destruct (render v).
    + rewrite save_effect_unhydrated by exact Hc. now split.
    + now split.
  - unfold confirmReset, commit. cbn [board].
    rewrite render_board, save_effect_unhydrated by exact Hc. cbn.
    split; [exact Hc|]. intros state Hin.
    apply in_app_or in Hin. destruct Hin as [Hin | [Hin | []]];
      [exact Hin | discriminate Hin].
Qed.

Lemma unmounted_steps (es : list Event) (c : Component) :
  Forall (fun e => e <> Mount) es -> hydrated c = false ->
  hydrated (steps es c) = false /\
  forall state, In (Save state) (accesses (steps es c)) -> In (Save state) (accesses c).
Proof.
  revert c. induction es as [|e es IH]; intros c Hes Hc; [now split|].
  inversion Hes as [|e' es' He Hes']; subst.
  destruct (unhydrated_step c e He Hc) as [H1 H2].
  destruct (IH (step c e) Hes' H1) as [H3 H4].
  split; [exact H3|]. intros state Hin. apply H2, H4. exact Hin.
Qed.

Lemma loaded_truthy (st : Storage) (v : jsval) :
  loadState st = Some v -> truthy (Some v) = true.
Proof.
  intros H. destruct (loadState_some st v H) as (_ & _ & _ & _ & _ & props & ->).
  reflexivity.
Qed.

Lemma mount_loaded (st : Storage) (v : jsval) :
  loadState st = Some v ->
  mount (initial st) = commit (mkComponent v true st [Load]).
Proof.
  intros H. unfold mount, initial, save_effect. cbn.
  rewrite H, (loaded_truthy st v H). reflexivity.
Qed.

Lemma mount_nothing (st : Storage) :
  loadState st = None ->
  mount (initial st) =
    commit (mkComponent (value_of_board emptyBoard) true st [Load]).
Proof.
  intros H. unfold mount, initial, save_effect. cbn. now rewrite H.
Qed.

Lemma commit_renders (c : Component) :
  render (board c) = Normal tt -> hydrated c = true ->
  commit c = mkComponent (board c) true (saveState (board c) (storage c))
               (accesses c ++ [Save (board c)]).
Proof.
  intros Hr Hh. unfold commit, save_effect. now rewrite Hr, Hh.
Qed.

(** C8.  Whatever happens in the page and in whatever order, no save comes
    before a load in what the component does to the storage, and as long as
    the page is not mounted nothing is saved.  Mounting loads.  When nothing
    is loaded, or what is loaded renders, the component is hydrated and saves
    the board it holds, right after the load; when what is loaded makes the
    render throw, nothing is saved.  Once the component is hydrated, a
    handler that installs a new board that renders is followed at once by a
    save of that whole board, and so is a reset; a handler that leaves the
    board object in place changes nothing, and after a render that throws
    nothing is saved.  Every board of the declared type renders. *)
Theorem hydration_order :
  (forall st es, saves_follow_load (accesses (steps es (initial st)))) /\
  (forall st es, Forall (fun e => e <> Mount) es ->
     hydrated (steps es (initial st)) = false /\
     forall state, ~ In (Save state) (accesses (steps es (initial st)))) /\
  (forall c, In Load (accesses (mount c))) /\
  (forall st, loadState st = None ->
     hydrated (mount (initial st)) = true /\
     board (mount (initial st)) = value_of_board emptyBoard /\
     accesses (mount (initial st)) = [Load; Save (value_of_board emptyBoard)] /\
     storage (mount (initial st)) = saveState (value_of_board emptyBoard) st) /\
  (forall st v, loadState st = Some v -> render v = Normal tt ->
     hydrated (mount (initial st)) = true /\
     board (mount (initial st)) = v /\
     accesses (mount (initial st)) = [Load; Save v] /\
     storage (mount (initial st)) = saveState v st) /\
  (forall st v, loadState st = Some v -> render v = Throw ->
     hydrated (mount (initial st)) = false /\
     accesses (mount (initial st)) = [Load] /\
     storage (mount (initial st)) = st) /\
  (forall c h v, hydrated c = true -> h (board c) = Some v ->
     render v = Normal tt ->
     hydrated (step c (Dispatch h)) = true /\
     board (step c (Dispatch h)) = v /\
     accesses (step c (Dispatch h)) = accesses c ++ [Save v] /\
     storage (step c (Dispatch h)) = saveState v (storage c)) /\
  (forall c h v, h (board c) = Some v -> render v = Throw ->
     hydrated (step c (Dispatch h)) = false /\
     accesses (step c (Dispatch h)) = accesses c /\
     storage (step c (Dispatch h)) = storage c) /\
  (forall c h, h (board c) = None -> step c (Dispatch h) = c) /\
  (forall c, hydrated c = true ->
     hydrated (step c Reset) = true /\
     board (step c Reset) = value_of_board emptyBoard /\
     accesses (step c Reset) =
       accesses c ++ [Remove; Save (value_of_board emptyBoard)]) /\
  (forall b, render (value_of_board b) = Normal tt).
Proof.
  split; [|split; [|split; [|split; [|split; [|split; [|split; [|split;
    [|split; [|split]]]]]]]]].
  - intros st es. apply ordered_steps. split; [apply saves_follow_load_nil|].
    discriminate.
  - intros st es Hes.
    destruct (unmounted_steps es (initial st) Hes eq_refl) as [H1 H2].
    split; [exact H1|]. intros state Hin. apply H2 in Hin. exact Hin.
  - apply mount_loads.
  - intros st H. rewrite (mount_nothing st H), commit_renders;
      [|apply render_board | reflexivity].
    repeat split.
  - intros st v H Hr. rewrite (mount_loaded st v H), commit_renders;
      [|exact Hr | reflexivity].
    repeat split.
  - intros st v H Hr. rewrite (mount_loaded st v H). unfold commit. cbn [board].
    rewrite Hr. repeat split.
  - intros c h v Hh Hv Hr. cbn [step]. unfold dispatch. rewrite Hv.
    rewrite commit_renders; [|exact Hr | exact Hh].
    repeat split.
  - intros c h v Hv Hr. cbn [step]. unfold dispatch, commit. rewrite Hv.
    cbn [board]. rewrite Hr. repeat split.
  - intros c h Hv. cbn [step]. unfold dispatch. now rewrite Hv.
  - intros c Hh. cbn [step]. unfold confirmReset.
    rewrite commit_renders; [|apply render_board | exact Hh].
    cbn. rewrite <- app_assoc. repeat split.
  - apply render_board.
Qed.

Lemma hydration_order_witness :
  let c := mount (initial empty_storage) in
  let h := fun _ : jsval =>
             option_map value_of_board
               (addTask world1 Do (js "Call dentist") None None emptyBoard) in
  let v := value_of_board (mkBoard [dentist] [] [] []) in
  (hydrated (step c (Dispatch h)) = true /\
   board (step c (Dispatch h)) = v /\
   accesses (step c (Dispatch h)) = accesses c ++ [Save v] /\
   storage (step c (Dispatch h)) = saveState v (storage c)) /\
  (hydrated (mount (initial (holding not_a_board))) = false /\
   accesses (mount (initial (holding not_a_board))) = [Load] /\
   storage (mount (initial (holding not_a_board))) = holding not_a_board).
Proof.
  split.
  - apply (proj1 (proj2 (proj2 (proj2 (proj2 (proj2 (proj2 hydration_order))))))
             (mount (initial empty_storage))
             (fun _ : jsval =>
                option_map value_of_board
                  (addTask world1 Do (js "Call dentist") None None emptyBoard))
             (value_of_board (mkBoard [dentist] [] [] []))).
    + reflexivity.
    + vm_compute. reflexivity.
    + vm_compute. reflexivity.
  - apply (proj1 (proj2 (proj2 (proj2 (proj2 (proj2 hydration_order)))))
             (holding not_a_board)
             (JObj [(js "do", JNum 1 0); (js "schedule", JStr (js "later"));
                    (js "delegate", JBool true); (js "eliminate", JObj [])])).
    + vm_compute. reflexivity.
    + vm_compute. reflexivity.
Defined.

(** From an empty storage: mount, add a task, mark it done, reset.  The
    storage is read first, then every state is saved in turn. *)
Example session :
  let added := run (addTask world1 Do (js "Call dentist") None None) emptyBoard in
  let ticked := run (toggleDone Do dentist true) added in
  let c := steps [Mount;
                  Dispatch (fun _ => Some (value_of_board added));
                  Dispatch (fun _ => Some (value_of_board ticked));
                  Reset]
             (initial empty_storage) in
  accesses c =
    [Load;
     Save (value_of_board emptyBoard);
     Save (value_of_board (mkBoard [dentist] [] [] []));
     Save (value_of_board
             (mkBoard [mkTask id1 (js "Call dentist") None true 1700000000000 None]
                [] [] []));
     Remove;
     Save (value_of_board emptyBoard)] /\
  loadState (storage c) = Some (value_of_board emptyBoard).
Proof. vm_compute. split; reflexivity. Qed.

(** * Further properties of the board store *)

(** ** [deleteTask] *)

(** X1.  [deleteTask q x] removes from quadrant [q] every task whose id is
    [x] and nothing else: the tasks with another id stay, in order; no task
    with id [x] is left; with no such task the board is as it was; the other
    quadrants are unchanged. *)
Theorem deleteTask_spec (b : BoardState) (q : QuadrantKey) (x : jsstring) :
  (forall t, In t (get (run (deleteTask q x) b) q) <->
             In t (get b q) /\ id t <> x) /\
  (forall l1 t l2, get b q = l1 ++ t :: l2 -> id t <> x ->
     get (run (deleteTask q x) b) q =
       filter (fun u => negb (str_eqb (id u) x)) l1 ++ t ::
       filter (fun u => negb (str_eqb (id u) x)) l2) /\
  ((forall u, In u (get b q) -> id u <> x) -> run (deleteTask q x) b = b) /\
  (forall q', q' <> q -> get (run (deleteTask q x) b) q' = get b q').
Proof.
  unfold run, deleteTask. simpl. rewrite get_put_same.
  split; [|split; [|split]].
  - intros t. rewrite filter_In, negb_true_iff, str_eqb_neq. reflexivity.
  - intros l1 t l2 -> Hid. rewrite filter_app. simpl.
    apply str_eqb_neq in Hid. now rewrite Hid.
  - intros Habs. rewrite (filter_absent x _ Habs). apply put_get.
  - intros q' Hq'. now apply get_put_other.
Qed.

Lemma deleteTask_witness :
  get (run (deleteTask Do id1) two_tasks) Do = [milk] /\
  run (deleteTask Schedule id1) two_tasks = two_tasks.
Proof.
  split.
  - apply (proj1 (proj2 (deleteTask_spec two_tasks Do id1)) [] milk [dentist]).
    + reflexivity.
    + discriminate.
  - apply (proj1 (proj2 (proj2 (deleteTask_spec two_tasks Schedule id1)))).
    intros u [].
Defined.

Lemma put_put (b : BoardState) (q : QuadrantKey) (l1 l2 : list Task) :
  put (put b q l1) q l2 = put b q l2.
Proof. now destruct q. Qed.

Lemma put_swap (b : BoardState) (q1 q2 : QuadrantKey) (l1 l2 : list Task) :
  q1 <> q2 -> put (put b q1 l1) q2 l2 = put (put b q2 l2) q1 l1.
Proof. destruct q1, q2; simpl; congruence. Qed.

(** X2.  Moving a task and then deleting it where it arrived is deleting it
    where it was: when no task of the target quadrant has the id, 
    [deleteTask t x] after [moveTask f t x] gives the board of
    [deleteTask f x]. *)
Theorem delete_after_move (b : BoardState) (f t : QuadrantKey) (x : jsstring) :
  f <> t ->
  (forall u, In u (get b t) -> id u <> x) ->
  run (deleteTask t x) (run (moveTask f t x) b) = run (deleteTask f x) b.
Proof.
  intros Hft Ht. unfold run, deleteTask, moveTask.
  assert (Hne : QuadrantKey_eqb f t = false).
  { destruct (QuadrantKey_eqb f t) eqn:E; [|reflexivity].
    apply QuadrantKey_eqb_eq in E. contradiction. }
  rewrite Hne.
  destruct (find (fun u => str_eqb (id u) x) (get b f)) as [task|] eqn:Hfind.
  - apply find_some in Hfind. destruct Hfind as [_ Hid].
    rewrite get_put_same. cbn [filter]. rewrite Hid. cbn [negb].
    rewrite (filter_absent x _ Ht), put_put, put_swap by exact Hft.
    now rewrite put_get.
  - rewrite (filter_absent x _ Ht), put_get.
    rewrite filter_absent; [now rewrite put_get|].
    intros u Hu. apply str_eqb_neq. apply (find_none _ _ Hfind u Hu).
Qed.

Lemma delete_after_move_witness :
  run (deleteTask Schedule id1) (run (moveTask Do Schedule id1) two_tasks) =
  run (deleteTask Do id1) two_tasks.
Proof.
  apply (delete_after_move two_tasks Do Schedule id1).
  - discriminate.
  - intros u [].
Defined.

(** ** [totals] *)

Lemma count_put (p : Task -> bool) (b : BoardState) (q : QuadrantKey)
    (l : list Task) :
  (count p (put b q l) + length (filter p (get b q)) =
   count p b + length (filter p l))%nat.
Proof.
  unfold count, all_tasks.
  destruct q; simpl; rewrite !filter_app, !length_app; lia.
Qed.

Lemma totals_count (b : BoardState) :
  totals b = (count (fun _ => true) b, count done b).
Proof. unfold totals, count. now rewrite filter_true. Qed.




Lemma filter_done_cleared (l : list Task) :
  filter done (filter (fun t => negb (done t)) l) = [].
Proof.
  induction l as [|t l IH]; simpl; [reflexivity|].
  destruct (done t) eqn:E; simpl; [exact IH | now rewrite E].
Qed.

Lemma filter_split_length {A} (p : A -> bool) (l : list A) :
  (length (filter p l) + length (filter (fun a => negb (p a)) l) = length l)%nat.
Proof. induction l as [|a l IH]; simpl; [lia|]. destruct (p a); simpl; lia. Qed.

(** X4.  [clearCompleted q] removes as many tasks as the card counts done in
    the quadrant ([completedCount]): the quadrant shrinks by that number, so
    do the total and the number of done tasks, no done task is left in the
    quadrant, and when the count is zero (the button is disabled) the board
    is as it was. *)
Theorem clearCompleted_count (b : BoardState) (q : QuadrantKey) :
  (length (get (run (clearCompleted q) b) q) + completedCount (get b q) =
   length (get b q))%nat /\
  (fst (totals (run (clearCompleted q) b)) + completedCount (get b q) =
   fst (totals b))%nat /\
  (snd (totals (run (clearCompleted q) b)) + completedCount (get b q) =
   snd (totals b))%nat /\
  completedCount (get (run (clearCompleted q) b) q) = 0%nat /\
  (completedCount (get b q) = 0%nat -> run (clearCompleted q) b = b).
Proof.
  rewrite !totals_count. cbn [fst snd].
  unfold run, clearCompleted, completedCount. rewrite get_put_same.
  pose proof (filter_split_length done (get b q)) as Hsplit.
  split; [lia|].
  pose proof (count_put (fun _ => true) b q
                (filter (fun t => negb (done t)) (get b q))) as Hall.
  pose proof (count_put done b q
                (filter (fun t => negb (done t)) (get b q))) as Hdone.
  rewrite !filter_true in Hall. rewrite filter_done_cleared in *.
  cbn [length] in *.
  split; [lia|]. split; [lia|]. split; [reflexivity|].
  intros Hzero.
  assert (Hkeep : filter (fun t => negb (done t)) (get b q) = get b q).
  { clear - Hzero. induction (get b q) as [|t l IH]; simpl in *; [reflexivity|].
    destruct (done t); simpl in *; [discriminate|]. f_equal. now apply IH. }
  rewrite Hkeep. apply put_get.
Qed.

Lemma clearCompleted_count_witness :
  run (clearCompleted Do) two_tasks = two_tasks.
Proof.
  apply (proj2 (proj2 (proj2 (proj2 (clearCompleted_count two_tasks Do))))).
  reflexivity.
Defined.

Lemma filter_other_ids (p : Task -> bool) (x : jsstring) (l : list Task) :
  (forall u, In u l -> id u <> x) ->
  filter p (filter (fun t => negb (str_eqb (id t) x)) l) = filter p l.
Proof. intros H. now rewrite (filter_absent x l H). Qed.

(** X5.  [moveTask] keeps the numbers of the board when the id is on one
    task of the source quadrant only: whatever the property, as many tasks
    have it after the move as before; in particular the total and the number
    of done tasks stay. *)
Theorem moveTask_count (b : BoardState) (f t : QuadrantKey) (x : jsstring)
    (p : Task -> bool) :
  NoDup (map id (get b f)) ->
  count p (run (moveTask f t x) b) = count p b /\
  totals (run (moveTask f t x) b) = totals b.
Proof.
  intros Hnd.
  assert (Hcount : forall p', count p' (run (moveTask f t x) b) = count p' b).
  { intros p'. unfold run, moveTask.
    destruct (QuadrantKey_eqb f t) eqn:Eft; [reflexivity|].
    assert (Hft : f <> t).
    { intros ->. now rewrite (proj2 (QuadrantKey_eqb_eq t t)) in Eft. }
    destruct (find (fun u => str_eqb (id u) x) (get b f)) as [task|] eqn:Hfind;
      [|reflexivity].
    destruct (find_split x _ _ Hfind) as (l1 & l2 & Hsplit & Hid & Hl1).
    assert (Hl2 : forall u, In u l2 -> id u <> x).
    { intros u Hu Hux. rewrite Hsplit, map_app in Hnd. cbn [map] in Hnd.
      apply NoDup_remove_2 in Hnd. apply Hnd. apply in_or_app. right.
      rewrite Hid, <- Hux. now apply in_map. }
    set (from' := filter (fun u => negb (str_eqb (id u) x)) (get b f)).
    assert (Hfrom : from' = l1 ++ l2).
    { unfold from'. rewrite Hsplit, filter_app. cbn [filter].
      apply str_eqb_eq in Hid. rewrite Hid. cbn [negb].
      now rewrite (filter_absent x l1 Hl1), (filter_absent x l2 Hl2). }
    pose proof (count_put p' b f from') as H1.
    pose proof (count_put p' (put b f from') t (task :: get b t)) as H2.
    rewrite (get_put_other b f t from') in H2 by congruence.
    rewrite Hfrom in H1. rewrite Hsplit in H1.
    rewrite !filter_app, !length_app in H1. cbn [filter] in *.
    rewrite <- Hfrom in H1.
    destruct (p' task); cbn [length] in *; lia. }
  split; [apply Hcount|]. rewrite !totals_count. now rewrite !Hcount.
Qed.

Lemma moveTask_count_witness :
  count done (run (moveTask Do Schedule id1) two_tasks) = count done two_tasks /\
  totals (run (moveTask Do Schedule id1) two_tasks) = totals two_tasks.
Proof.
  apply (moveTask_count two_tasks Do Schedule id1 done).
  vm_compute. repeat constructor; simpl; intuition discriminate.
Defined.

(** ** [uid] *)

Lemma read_hex_snoc (ds : jsstring) (c : N) :
  read_hex (ds ++ [c]) =
  (16 * read_hex ds + match hex_value c with Some d => d | None => 0 end)%N.
Proof. unfold read_hex. now rewrite fold_left_app. Qed.

Lemma hex_digit_not_minus (d : N) : (d < 16)%N -> hex_digit d <> 45%N.
Proof.
  intros H. unfold hex_digit. destruct (N.ltb_spec d 10); lia.
Qed.

Lemma hex_pos_spec (fuel : nat) (n : N) (acc : jsstring) :
  (n < 2 ^ N.of_nat (S fuel))%N ->
  exists ds,
    hex_pos (S fuel) n acc = ds ++ acc /\ ~ In 45%N ds /\ read_hex ds = n.
Proof.
  revert n acc. induction fuel as [|fuel IH]; intros n acc Hn;
    rewrite Nat2N.inj_succ, N.pow_succ_r' in Hn.
  { assert (Hlt : (n < 16)%N)
      by (change (2 ^ N.of_nat 0)%N with 1%N in Hn; lia).
    cbn [hex_pos]. rewrite (proj2 (N.ltb_lt n 16) Hlt).
    exists [hex_digit (n mod 16)]. rewrite (N.mod_small n 16 Hlt).
    repeat split.
    - intros [H | []]. now apply (hex_digit_not_minus n Hlt).
    - unfold read_hex. cbn [fold_left]. rewrite (hex_value_digit n Hlt). lia. }
  remember (S fuel) as fuel1 eqn:Hfuel1.
  cbn [hex_pos]. destruct (N.ltb_spec n 16) as [Hlt | Hge].
  - exists [hex_digit (n mod 16)]. rewrite (N.mod_small n 16 Hlt).
    repeat split.
    + intros [H | []]. now apply (hex_digit_not_minus n Hlt).
    + unfold read_hex. cbn [fold_left]. rewrite (hex_value_digit n Hlt). lia.
  - pose proof (N.Div0.div_mod n 16) as Hdm.
    assert (Hr : (n mod 16 < 16)%N) by (apply N.mod_lt; discriminate).
    set (q := (n / 16)%N) in *. set (r := (n mod 16)%N) in *. clearbody q r.
    assert (Hdiv : (q < 2 ^ N.of_nat fuel1)%N) by lia.
    subst fuel1.
    destruct (IH q (hex_digit r :: acc) Hdiv) as (ds & Hds & Hminus & Hval).
    exists (ds ++ [hex_digit r]). repeat split.
    + now rewrite Hds, <- app_assoc.
    + rewrite in_app_iff. intros [H | [H | []]]; [now apply Hminus|].
      now apply (hex_digit_not_minus r Hr).
    + rewrite read_hex_snoc, Hval, (hex_value_digit r Hr). lia.
Qed.

(** The hexadecimal text of a clock reading has no minus sign and denotes
    the reading. *)
Lemma toString16_spec (z : Z) :
  (0 <= z)%Z ->
  ~ In 45%N (toString16 z) /\ read_hex (toString16 z) = Z.to_N z.
Proof.
  intros Hz. unfold toString16. rewrite (proj2 (Z.ltb_ge z 0) Hz).
  assert (Hn : (Z.abs_N z < 2 ^ N.of_nat (S (N.to_nat (N.log2 (Z.abs_N z)))))%N).
  { rewrite Nat2N.inj_succ, N2Nat.id.
    destruct (Z.abs_N z) as [|p]; [reflexivity|]. apply N.log2_spec. reflexivity. }
  destruct (hex_pos_spec _ _ [] Hn) as (ds & Hds & Hminus & Hval).
  rewrite app_nil_r in Hds. cbv zeta. rewrite Hds. split; [exact Hminus|].
  rewrite Hval. apply Zabs2N.abs_N_nonneg. exact Hz.
Qed.

Lemma split_at_last {A} (x : A) (l1 l2 r1 r2 : list A) :
  l1 ++ x :: r1 = l2 ++ x :: r2 -> ~ In x r1 -> ~ In x r2 ->
  l1 = l2 /\ r1 = r2.
Proof.
  revert l2. induction l1 as [|a l1 IH]; intros [|c l2] H H1 H2; simpl in H.
  - injection H as <-. now split.
  - injection H as <- ->. exfalso. apply H1. apply in_or_app. right. now left.
  - injection H as -> <-. exfalso. apply H2. apply in_or_app. right. now left.
  - injection H as <- H. destruct (IH l2 H H1 H2) as [-> ->]. now split.
Qed.

(** The clock and the random text can be read off an id. *)
Lemma uid_parts (r1 r2 : jsstring) (t1 t2 : Z) :
  (0 <= t1)%Z -> (0 <= t2)%Z ->
  uid r1 t1 = uid r2 t2 ->
  slice2 r1 = slice2 r2 /\ toString16 t1 = toString16 t2.
Proof.
  intros H1 H2 Huid. unfold uid in Huid.
  change (js "-" ++ toString16 t1) with (45%N :: toString16 t1) in Huid.
  change (js "-" ++ toString16 t2) with (45%N :: toString16 t2) in Huid.
  destruct (toString16_spec t1 H1) as [Hm1 _].
  destruct (toString16_spec t2 H2) as [Hm2 _].
  apply (split_at_last _ _ _ _ _ Huid Hm1 Hm2).
Qed.

Lemma toString16_inj (t1 t2 : Z) :
  (0 <= t1)%Z -> (0 <= t2)%Z -> toString16 t1 = toString16 t2 -> t1 = t2.
Proof.
  intros H1 H2 H.
  destruct (toString16_spec t1 H1) as [_ Hv1].
  destruct (toString16_spec t2 H2) as [_ Hv2].
  rewrite H in Hv1. rewrite Hv1 in Hv2. lia.
Qed.

(** X6.  An id tells when it was drawn and from which random text: two calls
    of [uid] that give the same id read the same clock, when the clock is
    not negative, and the same random text from its third character on.  So
    two calls at different milliseconds never give the same id. *)
Theorem uid_clock (r1 r2 : jsstring) (t1 t2 : Z) :
  (0 <= t1)%Z -> (0 <= t2)%Z ->
  uid r1 t1 = uid r2 t2 ->
  t1 = t2 /\ slice2 r1 = slice2 r2.
Proof.
  intros H1 H2 Huid.
  destruct (uid_parts r1 r2 t1 t2 H1 H2 Huid) as [Hr Ht].
  split; [|exact Hr]. now apply toString16_inj.
Qed.

Lemma uid_clock_witness :
  uid (random16 world1) (now_uid world1) <> uid (random16 world1) (now_uid world2).
Proof.
  intros H.
  destruct (uid_clock (random16 world1) (random16 world1)
              (now_uid world1) (now_uid world2)) as [Ht _].
  - vm_compute. discriminate.
  - vm_compute. discriminate.
  - exact H.
  - vm_compute in Ht. discriminate Ht.
Defined.

(** ** Unique ids while the clock moves on *)

Lemma handle_called (g : Gesture) (b : BoardState) :
  run (handle g) b =
  match called g with
  | Some a => run (perform a) b
  | None => b
  end.
Proof.
  destruct g as [w q ttl nts due sn | q t dT dN dD | q t c | q t | q | f t x | ];
    try reflexivity.
  unfold run, handle, saveEdit, called.
  destruct (negb (str_truthy (trim dT))); reflexivity.
Qed.

Lemma in_ids_put (b : BoardState) (q q' : QuadrantKey) (l : list Task)
    (x : jsstring) :
  In x (map id (get (put b q l) q')) ->
  (q' = q /\ In x (map id l)) \/ (q' <> q /\ In x (map id (get b q'))).
Proof.
  intros H. destruct (QuadrantKey_eqb q' q) eqn:E.
  - apply QuadrantKey_eqb_eq in E. subst. rewrite get_put_same in H. now left.
  - assert (Hne : q' <> q).
    { intros ->. now rewrite (proj2 (QuadrantKey_eqb_eq q q)) in E. }
    rewrite get_put_other in H by exact Hne. now right.
Qed.

(** The ids after an operation were there before, or the operation is an
    [addTask] and the id is the one it drew. *)
Lemma ids_perform (a : Action) (b : BoardState) (x : jsstring) :
  match a with UpdateTask _ _ p => p_id p = None | _ => True end ->
  In x (ids (run (perform a) b)) ->
  In x (ids b) \/
  match a with
  | AddTask w _ _ _ _ => x = uid (random16 w) (now_uid w)
  | _ => False
  end.
Proof.
  intros Hp Hin. apply in_ids in Hin. destruct Hin as (q' & Hin).
  assert (Hold : forall q0, In x (map id (get b q0)) -> In x (ids b))
    by (intros q0 H; apply in_ids; now exists q0).
  destruct a as [w q ttl nts due | q y p | q y | q | f t y | ];
    unfold run in Hin; cbn [perform] in Hin.
  - unfold addTask in Hin. destruct (negb (str_truthy (trim ttl)));
      [left; now apply (Hold q')|].
    apply in_ids_put in Hin. destruct Hin as [[-> Hin] | [_ Hin]].
    + cbn [map] in Hin. destruct Hin as [<- | Hin]; [now right|].
      left. now apply (Hold q).
    + left. now apply (Hold q').
  - unfold updateTask in Hin. left.
    apply in_ids_put in Hin. destruct Hin as [[-> Hin] | [_ Hin]].
    + rewrite (map_spread_ids y p _ Hp) in Hin. now apply (Hold q).
    + now apply (Hold q').
  - unfold deleteTask in Hin. left.
    apply in_ids_put in Hin. destruct Hin as [[-> Hin] | [_ Hin]].
    + apply filter_ids_incl in Hin. now apply (Hold q).
    + now apply (Hold q').
  - unfold clearCompleted in Hin. left.
    apply in_ids_put in Hin. destruct Hin as [[-> Hin] | [_ Hin]].
    + apply filter_ids_incl in Hin. now apply (Hold q).
    + now apply (Hold q').
  - unfold moveTask in Hin. left.
    destruct (QuadrantKey_eqb f t); [now apply (Hold q')|].
    destruct (find (fun u => str_eqb (id u) y) (get b f)) as [task|] eqn:Hfind;
      [|now apply (Hold q')].
    apply find_some in Hfind. destruct Hfind as [Htask _].
    apply in_ids_put in Hin. destruct Hin as [[-> Hin] | [_ Hin]].
    + cbn [map] in Hin. destruct Hin as [<- | Hin].
      * apply (Hold f). now apply in_map.
      * now apply (Hold t).
    + apply in_ids_put in Hin. destruct Hin as [[-> Hin] | [_ Hin]].
      * apply filter_ids_incl in Hin. now apply (Hold f).
      * now apply (Hold q').
  - unfold resetAll in Hin. destruct q'; destruct Hin.
Qed.

Lemma called_no_id (g : Gesture) (a : Action) :
  called g = Some a ->
  match a with UpdateTask _ _ p => p_id p = None | _ => True end.
Proof.
  destruct g as [w q ttl nts due sn | q t dT dN dD | q t c | q t | q | f t x | ];
    cbn [called]; try (intros [= <-]; exact I || reflexivity).
  destruct (negb (str_truthy (trim dT))); [discriminate|].
  intros [= <-]. reflexivity.
Qed.

Lemma on_time_invariant (t : Z) (b : BoardState) :
  reachable_on_time t b -> (0 <= t)%Z /\ unique b /\ stamped t b.
Proof.
  induction 1 as [t Ht | t t' b g _ (Ht & Hu & Hs) Htick].
  - split; [exact Ht|]. split.
    + split; [intros []; constructor | intros [] [] y _ []].
    + intros x [].
  - rewrite handle_called.
    destruct (called g) as [a|] eqn:Hcalled.
    2:{ destruct g; cbn [tick called] in *; try discriminate.
        injection Htick as <-. auto. }
    pose proof (called_no_id g a Hcalled) as Hnoid.
    assert (Ht' : (t <= t')%Z /\
                  match a with
                  | AddTask w _ _ _ _ => (t <= now_uid w)%Z /\ t' = (now_uid w + 1)%Z
                  | _ => True
                  end).
    { destruct g as [w q ttl nts due sn | q u dT dN dD | q u c | q u | q | f u x | ];
        cbn [tick called] in *.
      - destruct (Z.leb_spec t (now_uid w)); [|discriminate].
        injection Htick as <-. injection Hcalled as <-. split; [lia|]. split; [lia|reflexivity].
      - destruct (negb (str_truthy (trim dT))); [discriminate|].
        injection Htick as <-. injection Hcalled as <-. split; [lia | exact I].
      - injection Htick as <-. injection Hcalled as <-. split; [lia | exact I].
      - injection Htick as <-. injection Hcalled as <-. split; [lia | exact I].
      - injection Htick as <-. injection Hcalled as <-. split; [lia | exact I].
      - injection Htick as <-. injection Hcalled as <-. split; [lia | exact I].
      - injection Htick as <-. injection Hcalled as <-. split; [lia | exact I]. }
    destruct Ht' as [Hle Hadd].
    split; [lia|]. split.
    + apply unique_step; [exact Hu|].
      destruct a as [w q ttl nts due | q y p | q y | q | f u y | ]; cbn [keeps_ids];
        try exact I; try exact Hnoid.
      right. intros Hin. destruct (Hs _ Hin) as (r & t0 & Heq & Ht0).
      destruct Hadd as [Hnow _].
      assert (H0 : (0 <= now_uid w)%Z) by lia.
      assert (H1 : (0 <= t0)%Z) by lia.
      destruct (uid_parts (random16 w) r (now_uid w) t0 H0 H1 Heq) as [_ Hhex].
      apply (toString16_inj _ _ H0 H1) in Hhex. lia.
    + intros x Hin. apply (ids_perform a b x Hnoid) in Hin.
      destruct Hin as [Hin | Hnew].
      * destruct (Hs x Hin) as (r & t0 & Heq & Ht0). exists r, t0. split; [exact Heq | lia].
      * destruct a as [w q ttl nts due | | | | | ]; try contradiction.
        destruct Hadd as [Hnow ->]. exists (random16 w), (now_uid w).
        split; [exact Hnew | lia].
Qed.

(** X7.  Through the page, ids stay unique as long as the clock moves on:
    on every board that the gestures produce from the empty board, with a
    clock that is not negative and reads a later millisecond at every
    submit, each id is on the board at most once. *)
Theorem ids_unique_on_time (t : Z) (b : BoardState) :
  reachable_on_time t b -> NoDup (ids b).
Proof.
  intros H. apply unique_NoDup. now apply (on_time_invariant t b).
Qed.

Lemma ids_unique_on_time_witness : NoDup (ids two_tasks).
Proof.
  apply (ids_unique_on_time 1700000000501 two_tasks).
  apply (on_time_step 1700000000001 1700000000501
           (run (handle (Submit world1 Do (js "Call dentist") (js "") (js "") false))
              emptyBoard)
           (Submit world2 Do (js " Buy milk ") (js "2 litres") (js "2025-01-01") true)).
  - apply (on_time_step 0 1700000000001 emptyBoard
             (Submit world1 Do (js "Call dentist") (js "") (js "") false)).
    + apply on_time_empty. discriminate.
    + reflexivity.
  - reflexivity.
Defined.

(** ** The editor and the checkbox of a task row *)

Lemma same_id_same_task (l : list Task) (t u : Task) :
  NoDup (map id l) -> In t l -> In u l -> id u = id t -> u = t.
Proof.
  induction l as [|a l IH]; intros Hnd Ht Hu Hid; [destruct Ht|].
  cbn [map] in Hnd. apply NoDup_cons_iff in Hnd. destruct Hnd as [Ha Hnd].
  destruct Ht as [-> | Ht], Hu as [-> | Hu].
  - reflexivity.
  - exfalso. apply Ha. rewrite <- Hid. now apply in_map.
  - exfalso. apply Ha. rewrite Hid. now apply in_map.
  - now apply IH.
Qed.

Lemma map_fixed (f : Task -> Task) (l : list Task) :
  (forall u, In u l -> f u = u) -> map f l = l.
Proof.
  intros H. rewrite <- (map_id l) at 2. apply map_ext_in. exact H.
Qed.

Lemma or_empty_trimmed (v : option jsstring) :
  match v with Some n => trim n = n /\ n <> [] | None => True end ->
  (if str_truthy (trim (or_empty v)) then Some (trim (or_empty v)) else None) = v.
Proof.
  destruct v as [n|]; [|reflexivity]. intros [Htrim Hne].
  apply str_truthy_true in Hne. cbn [or_empty]. now rewrite Hne, Htrim, Hne.
Qed.

Lemma or_empty_present (v : option jsstring) :
  match v with Some d => d <> [] | None => True end ->
  (if str_truthy (or_empty v) then Some (or_empty v) else None) = v.
Proof.
  destruct v as [d|]; [|reflexivity]. intros Hne.
  apply str_truthy_true in Hne. cbn [or_empty]. now rewrite Hne, Hne.
Qed.

(** X8.  Opening the editor of a task and saving without a change leaves the
    board as it is: [saveEdit] with the drafts the row starts from ([t.title],
    [t.notes || ""], [t.dueDate || ""]) is the identity, when the task is the
    only one of its quadrant with its id, its title is trimmed and not empty,
    its notes are absent or trimmed and not empty, and its due date is absent
    or not empty. *)
Theorem saveEdit_unchanged (b : BoardState) (q : QuadrantKey) (t : Task) :
  In t (get b q) ->
  NoDup (map id (get b q)) ->
  title_ok t -> notes_ok t -> due_ok t ->
  run (saveEdit q t (draftTitle t) (draftNotes t) (draftDue t)) b = b.
Proof.
  intros Hin Hnd [Htrim Hne] Hnotes Hdue.
  unfold run, saveEdit, draftTitle, draftNotes, draftDue.
  rewrite Htrim. apply str_truthy_true in Hne. rewrite Hne. cbn [negb].
  unfold updateTask.
  rewrite (or_empty_trimmed (notes t) Hnotes), (or_empty_present (dueDate t) Hdue).
  rewrite map_fixed; [apply put_get|].
  intros u Hu. destruct (str_eqb (id u) (id t)) eqn:E; [|reflexivity].
  apply str_eqb_eq in E. rewrite (same_id_same_task _ t u Hnd Hin Hu E).
  now destruct t.
Qed.

Lemma saveEdit_unchanged_witness :
  run (saveEdit Do milk (draftTitle milk) (draftNotes milk) (draftDue milk))
    two_tasks = two_tasks.
Proof.
  apply (saveEdit_unchanged two_tasks Do milk).
  - now left.
  - vm_compute. repeat constructor; simpl; intuition discriminate.
  - split; [reflexivity | discriminate].
  - split; [reflexivity | discriminate].
  - discriminate.
Defined.

(** X9.  Ticking the checkbox of a task and ticking it back leaves the board
    as it was, when the task is the only one of its quadrant with its id. *)
Theorem toggleDone_back (b : BoardState) (q : QuadrantKey) (t : Task) :
  In t (get b q) ->
  NoDup (map id (get b q)) ->
  run (toggleDone q t (done t)) (run (toggleDone q t (negb (done t))) b) = b.
Proof.
  intros Hin Hnd. unfold run, toggleDone, updateTask.
  rewrite get_put_same, put_put, map_map.
  rewrite map_fixed; [apply put_get|].
  intros u Hu. destruct (str_eqb (id u) (id t)) eqn:E.
  - cbn [spread named p_id p_title p_notes p_done p_createdAt p_dueDate id].
    rewrite E.
    apply str_eqb_eq in E. rewrite (same_id_same_task _ t u Hnd Hin Hu E).
    now destruct t.
  - now rewrite E.
Qed.

Lemma toggleDone_back_witness :
  run (toggleDone Do dentist false) (run (toggleDone Do dentist true) two_tasks) =
  two_tasks.
Proof.
  apply (toggleDone_back two_tasks Do dentist).
  - right. now left.
  - vm_compute. repeat constructor; simpl; intuition discriminate.
Defined.

(** ** What the gestures keep *)

Lemma optional_ok_put (b : BoardState) (q : QuadrantKey) (ts : list Task) :
  optional_ok b -> (forall t, In t ts -> notes_ok t /\ due_ok t) ->
  optional_ok (put b q ts).
Proof.
  intros Hb Hts q' t Hin. destruct (QuadrantKey_eqb q' q) eqn:E.
  - apply QuadrantKey_eqb_eq in E. subst. rewrite get_put_same in Hin. now apply Hts.
  - rewrite get_put_other in Hin; [now apply (Hb q')|].
    intros ->. now rewrite (proj2 (QuadrantKey_eqb_eq q q)) in E.
Qed.

Lemma trimmed_notes_ok (n : jsstring) (t : Task) :
  notes t = (if str_truthy (trim n) then Some (trim n) else None) -> notes_ok t.
Proof.
  unfold notes_ok. intros ->. destruct (str_truthy (trim n)) eqn:E; [|exact I].
  split; [apply trim_idem | now apply str_truthy_true].
Qed.

Lemma present_due_ok (d : jsstring) (t : Task) :
  dueDate t = (if str_truthy d then Some d else None) -> due_ok t.
Proof.
  unfold due_ok. intros ->. destruct (str_truthy d) eqn:E; [|exact I].
  now apply str_truthy_true.
Qed.

Lemma optional_ok_step (b : BoardState) (g : Gesture) :
  optional_ok b -> optional_ok (run (handle g) b).
Proof.
  intros Hb.
  destruct g as [w q ttl nts due sn | q t dT dN dD | q t c | q t | q | f t x | ];
    cbn [handle].
  - unfold run, submit, addTask.
    destruct (negb (str_truthy (trim ttl))); [exact Hb|].
    apply optional_ok_put; [exact Hb|].
    intros u [<- | Hu]; [|now apply (Hb q)]. split.
    + destruct sn; [now apply (trimmed_notes_ok nts) | exact I].
    + unfold due_ok. cbn [dueDate].
      destruct (str_truthy due) eqn:E; [|exact I].
      rewrite E. now apply str_truthy_true.
  - unfold run, saveEdit.
    destruct (negb (str_truthy (trim dT))); [exact Hb|].
    unfold updateTask. apply optional_ok_put; [exact Hb|].
    intros u Hu. apply in_map_iff in Hu. destruct Hu as (v & <- & Hv).
    destruct (str_eqb (id v) (id t)); [|now apply (Hb q)]. split.
    + now apply (trimmed_notes_ok dN).
    + now apply (present_due_ok dD).
  - unfold run, toggleDone, updateTask. apply optional_ok_put; [exact Hb|].
    intros u Hu. apply in_map_iff in Hu. destruct Hu as (v & <- & Hv).
    destruct (str_eqb (id v) (id t)); exact (Hb q v Hv).
  - unfold run, deleteTask. apply optional_ok_put; [exact Hb|].
    intros u Hu. apply filter_In in Hu. now apply (Hb q).
  - unfold run, clearCompleted. apply optional_ok_put; [exact Hb|].
    intros u Hu. apply filter_In in Hu. now apply (Hb q).
  - unfold run, moveTask. destruct (QuadrantKey_eqb f t); [exact Hb|].
    destruct (find (fun u => str_eqb (id u) x) (get b f)) as [task|] eqn:Hfind;
      [|exact Hb].
    apply find_some in Hfind. destruct Hfind as [Hin _].
    apply optional_ok_put.
    + apply optional_ok_put; [exact Hb|].
      intros u Hu. apply filter_In in Hu. now apply (Hb f).
    + intros u [<- | Hu]; [now apply (Hb f) | now apply (Hb t)].
  - intros [] u [].
Qed.

(** X10.  Blank notes and blank due dates are never stored: on every board
    that the page's gestures produce from the empty board, the notes of a
    task are absent or trimmed and not empty, and its due date is absent or
    not empty. *)
Theorem optional_fields_normal (b : BoardState) :
  reachable_by_gestures b ->
  forall t, In t (all_tasks b) -> notes_ok t /\ due_ok t.
Proof.
  intros Hr t Hin. apply in_all_tasks in Hin. destruct Hin as (q & Hin).
  revert q t Hin. change (optional_ok b).
  induction Hr as [|b g _ IH]; [intros [] u [] | now apply optional_ok_step].
Qed.

Lemma optional_fields_normal_witness : notes_ok milk /\ due_ok milk.
Proof.
  apply (optional_fields_normal two_tasks).
  - apply (gestures_step _ (Submit world2 Do (js " Buy milk ") (js "2 litres")
                              (js "2025-01-01") true)).
    apply (gestures_step _ (Submit world1 Do (js "Call dentist") (js "") (js "") false)).
    apply gestures_empty.
  - now left.
Defined.

(** X11.  A gesture never changes the id or the creation time of a task: a
    task on the board after a gesture has the id and the creation time of a
    task that was on the board before, or the gesture is a submit, and the
    task is the one it added, with the id it drew, the clock it read, and not
    done. *)
Theorem gesture_keeps_identity (g : Gesture) (b : BoardState) (t' : Task) :
  In t' (all_tasks (run (handle g) b)) ->
  (exists t, In t (all_tasks b) /\ id t = id t' /\ createdAt t = createdAt t') \/
  (exists w q ttl nts due sn,
     g = Submit w q ttl nts due sn /\
     id t' = uid (random16 w) (now_uid w) /\
     createdAt t' = now_created w /\ done t' = false /\ title t' = trim ttl).
Proof.
  intros Hin. apply in_all_tasks in Hin. destruct Hin as (q' & Hin).
  assert (Hold : forall q0 u, In u (get b q0) -> id u = id t' ->
                   createdAt u = createdAt t' ->
                   exists t, In t (all_tasks b) /\ id t = id t' /\
                             createdAt t = createdAt t').
  { intros q0 u Hu Hid Hc. exists u. split; [|now split].
    apply in_all_tasks. now exists q0. }
  assert (Hput : forall q l, In t' (get (put b q l) q') ->
                   In t' l \/ In t' (get b q')).
  { intros q l H. destruct (QuadrantKey_eqb q' q) eqn:E.
    - apply QuadrantKey_eqb_eq in E. subst. rewrite get_put_same in H. now left.
    - rewrite get_put_other in H; [now right|].
      intros ->. now rewrite (proj2 (QuadrantKey_eqb_eq q q)) in E. }
  assert (Hsame : In t' (get b q') ->
                  exists t, In t (all_tasks b) /\ id t = id t' /\
                            createdAt t = createdAt t')
    by (intros H; now apply (Hold q' t')).
  destruct g as [w q ttl nts due sn | q t dT dN dD | q t c | q t | q | f t x | ];
    cbn [handle] in Hin; unfold run in Hin.
  - unfold submit, addTask in Hin.
    destruct (negb (str_truthy (trim ttl))); [left; now apply Hsame|].
    apply Hput in Hin. destruct Hin as [[<- | Hin] | Hin].
    + right. exists w, q, ttl, nts, due, sn. repeat split.
    + left. now apply (Hold q t').
    + left. now apply Hsame.
  - left. unfold saveEdit in Hin.
    destruct (negb (str_truthy (trim dT))); [now apply Hsame|].
    unfold updateTask in Hin. apply Hput in Hin. destruct Hin as [Hin | Hin];
      [|now apply Hsame].
    apply in_map_iff in Hin. destruct Hin as (u & <- & Hu).
    destruct (str_eqb (id u) (id t)); now apply (Hold q u).
  - left. unfold toggleDone, updateTask in Hin. apply Hput in Hin.
    destruct Hin as [Hin | Hin]; [|now apply Hsame].
    apply in_map_iff in Hin. destruct Hin as (u & <- & Hu).
    destruct (str_eqb (id u) (id t)); now apply (Hold q u).
  - left. unfold deleteTask in Hin. apply Hput in Hin.
    destruct Hin as [Hin | Hin]; [|now apply Hsame].
    apply filter_In in Hin. now apply (Hold q t').
  - left. unfold clearCompleted in Hin. apply Hput in Hin.
    destruct Hin as [Hin | Hin]; [|now apply Hsame].
    apply filter_In in Hin. now apply (Hold q t').
  - left. unfold moveTask in Hin.
    destruct (QuadrantKey_eqb f t); [now apply Hsame|].
    destruct (find (fun u => str_eqb (id u) x) (get b f)) as [task|] eqn:Hfind;
      [|now apply Hsame].
    apply find_some in Hfind. destruct Hfind as [Htask _].
    destruct (QuadrantKey_eqb q' t) eqn:Et.
    + apply QuadrantKey_eqb_eq in Et. subst q'. rewrite get_put_same in Hin.
      destruct Hin as [<- | Hin]; [now apply (Hold f task) | now apply (Hold t t')].
    + rewrite get_put_other in Hin
        by (intros ->; now rewrite (proj2 (QuadrantKey_eqb_eq t t)) in Et).
      apply Hput in Hin. destruct Hin as [Hin | Hin]; [|now apply Hsame].
      apply filter_In in Hin. now apply (Hold f t').
  - unfold resetAll in Hin. destruct q'; destruct Hin.
Qed.

Lemma gesture_keeps_identity_witness :
  exists t, In t (all_tasks two_tasks) /\ id t = id1 /\
            createdAt t = 1700000000000%Z.
Proof.
  destruct (gesture_keeps_identity
              (SaveEdit Do dentist (js "Call the dentist") (js "") (js "2025-02-02"))
              two_tasks
              (mkTask id1 (js "Call the dentist") None false 1700000000000
                 (Some (js "2025-02-02"))))
    as [H | (w & q & ttl & nts & due & sn & Hg & _)].
  - vm_compute. right. now left.
  - exact H.
  - discriminate Hg.
Defined.

(** * Further properties of loading, saving and dragging *)

(** ** Drag and drop *)

Lemma key_name_inj (q q' : QuadrantKey) : key_name q = key_name q' -> q = q'.
Proof. destruct q, q'; simpl; intros H; try reflexivity; discriminate H. Qed.

(** X12.  What a task row hands to a drag, a quadrant card reads back at the
    drop: [onDrop] on the text of [onDragStart] for task [t] of quadrant [q]
    calls [onMove] with the key of [q], which names no other quadrant, and
    the id of [t].  A drag that carries no text, a text that is not JSON and
    the text [null] make [onDrop] do nothing. *)
Theorem drag_then_drop (q : QuadrantKey) (t : Task) :
  onDrop (onDragStart q t) =
    Moves (Some (JStr (key_name q))) (Some (JStr (id t))) /\
  (forall q', key_name q' = key_name q -> q' = q) /\
  onDrop [] = Ignored /\
  (forall raw, JSON_parse raw = Throw -> onDrop raw = Ignored) /\
  (forall raw, JSON_parse raw = Normal JNull -> onDrop raw = Ignored).
Proof.
  split; [|split; [|split; [|split]]].
  - unfold onDrop, onDragStart.
    rewrite JSON_parse_stringify.
    + reflexivity.
    + cbn. split; [|tauto]. repeat constructor; simpl; intuition discriminate.
  - intros q' H. now apply key_name_inj.
  - reflexivity.
  - intros raw H. unfold onDrop. rewrite H. now destruct (str_truthy raw).
  - intros raw H. unfold onDrop. rewrite H. now destruct (str_truthy raw).
Qed.

Lemma drag_then_drop_witness :
  onDrop (onDragStart Do dentist) =
    Moves (Some (JStr (js "do"))) (Some (JStr id1)) /\
  onDrop broken_text = Ignored /\
  onDrop (js "null") = Ignored.
Proof.
  split; [|split].
  - apply (proj1 (drag_then_drop Do dentist)).
  - apply (proj1 (proj2 (proj2 (proj2 (drag_then_drop Do dentist))))). reflexivity.
  - apply (proj2 (proj2 (proj2 (proj2 (drag_then_drop Do dentist))))). reflexivity.
Defined.

(** ** What [loadState] returns *)

(** X13.  Whatever [loadState] returns other than absent is an object that
    was parsed from a stored text that is not empty, with a truthy value
    under each of the four quadrant keys; it is truthy itself, so the
    component installs it. *)
Theorem loadState_sound (st : Storage) (v : jsval) :
  loadState st = Some v ->
  exists text props,
    getItem st = Normal (Some text) /\ text <> [] /\
    JSON_parse text = Normal v /\ v = JObj props /\
    (forall q, truthy (property v q) = true) /\
    truthy (Some v) = true.
Proof.
  intros H.
  destruct (loadState_some st v H)
    as (text & Hget & Htext & Hparse & Hshape & props & ->).
  exists text, props.
  split; [exact Hget|]. split; [now apply str_truthy_true|].
  split; [exact Hparse|]. split; [reflexivity|]. split; [|reflexivity].
  unfold shape_ok in Hshape. apply andb_prop in Hshape as [Hshape H4].
  apply andb_prop in Hshape as [Hshape H3]. apply andb_prop in Hshape as [H1 H2].
  intros []; assumption.
Qed.

Lemma loadState_sound_witness :
  exists text props,
    getItem (holding not_a_board) = Normal (Some text) /\ text <> [] /\
    JSON_parse text =
      Normal (JObj [(js "do", JNum 1 0); (js "schedule", JStr (js "later"));
                    (js "delegate", JBool true); (js "eliminate", JObj [])]) /\
    JObj [(js "do", JNum 1 0); (js "schedule", JStr (js "later"));
          (js "delegate", JBool true); (js "eliminate", JObj [])] = JObj props /\
    (forall q, truthy (property
                         (JObj [(js "do", JNum 1 0); (js "schedule", JStr (js "later"));
                                (js "delegate", JBool true); (js "eliminate", JObj [])])
                         q) = true) /\
    truthy (Some (JObj [(js "do", JNum 1 0); (js "schedule", JStr (js "later"));
                        (js "delegate", JBool true); (js "eliminate", JObj [])])) = true.
Proof.
  apply (loadState_sound (holding not_a_board)). vm_compute. reflexivity.
Defined.

(** ** Mounting, reloading and resetting *)

Lemma loadState_after_setItem (st st' : Storage) (v : jsval) :
  setItem st (JSON_stringify v) = Normal st' ->
  well_keyed v -> shape_ok v = true ->
  loadState st' = Some v.
Proof.
  intros Hset Hwk Hshape.
  assert (Hget : getItem st' = Normal (Some (JSON_stringify v))).
  { unfold setItem in Hset. destruct (denied st) eqn:Hden; [discriminate|].
    destruct (room st <? _)%N; [discriminate|].
    injection Hset as <-. reflexivity. }
  rewrite (loadState_parsed st' _ v Hget (JSON_parse_stringify v Hwk)).
  now rewrite Hshape.
Qed.

(** X14.  A stored text that [loadState] does not accept is lost at the
    first mount: the component keeps the empty board, and the save that
    follows hydration writes the empty board over what was stored, when the
    write goes through. *)
Theorem mount_discards (st st' : Storage) :
  loadState st = None ->
  setItem st empty_text = Normal st' ->
  board (mount (initial st)) = value_of_board emptyBoard /\
  accesses (mount (initial st)) = [Load; Save (value_of_board emptyBoard)] /\
  storage (mount (initial st)) = st' /\
  entry st' = Some empty_text /\
  loadState st' = Some (value_of_board emptyBoard).
Proof.
  intros Hload Hset. unfold mount, initial, save_effect. cbn. rewrite Hload. cbn.
  unfold saveState. fold empty_text. rewrite Hset. cbn.
  repeat split.
  - unfold setItem in Hset. destruct (denied st); [discriminate|].
    destruct (room st <? _)%N; [discriminate|]. now injection Hset as <-.
  - apply (loadState_after_setItem st st' (value_of_board emptyBoard) Hset).
    + apply well_keyed_board.
    + reflexivity.
Qed.

Lemma mount_discards_witness :
  board (mount (initial (holding null_quadrant))) = value_of_board emptyBoard /\
  accesses (mount (initial (holding null_quadrant))) =
    [Load; Save (value_of_board emptyBoard)] /\
  storage (mount (initial (holding null_quadrant))) = holding empty_text /\
  entry (holding empty_text) = Some empty_text /\
  loadState (holding empty_text) = Some (value_of_board emptyBoard).
Proof.
  apply (mount_discards (holding null_quadrant) (holding empty_text)).
  - vm_compute. reflexivity.
  - vm_compute. reflexivity.
Defined.

(** X15.  What the page shows comes back after a reload: when a hydrated
    component installs a board and the write of the save goes through, a
    component that mounts anew on the storage left behind holds that board. *)
Theorem reload_restores (c : Component) (h : jsval -> option jsval)
    (b' : BoardState) (st' : Storage) :
  hydrated c = true ->
  h (board c) = Some (value_of_board b') ->
  setItem (storage c) (JSON_stringify (value_of_board b')) = Normal st' ->
  storage (step c (Dispatch h)) = st' /\
  board (mount (initial st')) = value_of_board b' /\
  as_board (board (mount (initial st'))) = Some b'.
Proof.
  intros Hh Hv Hset.
  assert (Hload : loadState st' = Some (value_of_board b')).
  { apply (loadState_after_setItem (storage c) st' _ Hset).
    - apply well_keyed_board.
    - reflexivity. }
  assert (Hboard : board (mount (initial st')) = value_of_board b').
  { rewrite (mount_loaded st' _ Hload), commit_renders;
      [reflexivity | apply render_board | reflexivity]. }
  split; [|split].
  - cbn [step]. unfold dispatch. rewrite Hv.
    rewrite commit_renders; [|apply render_board | exact Hh].
    cbn. unfold saveState. now rewrite Hset.
  - exact Hboard.
  - rewrite Hboard. apply as_board_value.
Qed.

Lemma reload_restores_witness :
  let c := mount (initial empty_storage) in
  let h := fun _ : jsval =>
             option_map value_of_board
               (addTask world1 Do (js "Call dentist") None None emptyBoard) in
  let st' := holding (JSON_stringify (value_of_board (mkBoard [dentist] [] [] []))) in
  storage (step c (Dispatch h)) = st' /\
  board (mount (initial st')) = value_of_board (mkBoard [dentist] [] [] []) /\
  as_board (board (mount (initial st'))) = Some (mkBoard [dentist] [] [] []).
Proof.
  apply (reload_restores (mount (initial empty_storage))
           (fun _ : jsval =>
              option_map value_of_board
                (addTask world1 Do (js "Call dentist") None None emptyBoard))
           (mkBoard [dentist] [] [] [])
           (holding (JSON_stringify (value_of_board (mkBoard [dentist] [] [] []))))).
  - reflexivity.
  - vm_compute. reflexivity.
  - vm_compute. reflexivity.
Defined.

(** X16.  A reset does not leave the key removed: in a hydrated component
    [confirmReset] removes the entry and the save that follows the render
    writes the empty board under the key again, when the storage may be used
    and has room for it; a later load returns the empty board.  Only when the
    component is not hydrated does the key stay removed. *)
Theorem reset_storage (c : Component) :
  denied (storage c) = false ->
  (hydrated c = true ->
   (N.of_nat (length empty_text) <= room (storage c))%N ->
   entry (storage (step c Reset)) = Some empty_text /\
   loadState (storage (step c Reset)) = Some (value_of_board emptyBoard)) /\
  (hydrated c = false ->
   entry (storage (step c Reset)) = None /\
   loadState (storage (step c Reset)) = None).
Proof.
  intros Hden. split.
  - intros Hh Hroom. cbn [step]. unfold confirmReset, save_effect. cbn.
    rewrite Hh. cbn. unfold removeItem. rewrite Hden. cbn.
    assert (Hset : setItem (mkStorage None (room (storage c)) false) empty_text =
                   Normal (mkStorage (Some empty_text) (room (storage c)) false)).
    { unfold setItem. cbn [denied room].
      now rewrite (proj2 (N.ltb_ge _ _) Hroom). }
    unfold saveState. fold empty_text. rewrite Hset. cbn. split; [reflexivity|].
    apply (loadState_after_setItem _ _ (value_of_board emptyBoard) Hset).
    + apply well_keyed_board.
    + reflexivity.
  - intros Hh. cbn [step]. unfold confirmReset, save_effect. cbn.
    rewrite Hh. cbn. unfold removeItem. rewrite Hden. cbn. split; reflexivity.
Qed.

Lemma reset_storage_witness :
  entry (storage (step (mount (initial (holding (JSON_stringify (value_of_board two_tasks)))))
                    Reset)) =
    Some empty_text /\
  entry (storage (step (initial (holding (JSON_stringify (value_of_board two_tasks))))
                    Reset)) = None.
Proof.
  split.
  - apply (proj1 (reset_storage
                    (mount (initial (holding (JSON_stringify (value_of_board two_tasks)))))
                    eq_refl)).
    + vm_compute. reflexivity.
    + vm_compute. discriminate.
  - apply (proj2 (reset_storage
                    (initial (holding (JSON_stringify (value_of_board two_tasks))))
                    eq_refl)).
    reflexivity.
Defined.

(** ** Moving back and editing *)

(** X17.  A task that is moved away and back comes back at the front: when
    the id is on one task of the source only and on none of the target,
    [moveTask t f x] after [moveTask f t x] leaves the target as it was and
    puts the task before the other tasks of the source, which keep their
    order; the other two quadrants are unchanged. *)
Theorem moveTask_back (b : BoardState) (f t : QuadrantKey) (x : jsstring)
    (l1 l2 : list Task) (task : Task) :
  f <> t ->
  get b f = l1 ++ task :: l2 -> id task = x ->
  (forall u, In u l1 -> id u <> x) ->
  (forall u, In u l2 -> id u <> x) ->
  (forall u, In u (get b t) -> id u <> x) ->
  get (run (moveTask t f x) (run (moveTask f t x) b)) f = task :: l1 ++ l2 /\
  get (run (moveTask t f x) (run (moveTask f t x) b)) t = get b t /\
  (forall q, q <> f -> q <> t ->
     get (run (moveTask t f x) (run (moveTask f t x) b)) q = get b q).
Proof.
  intros Hft Hsplit Hid Hl1 Hl2 Ht.
  rewrite (moveTask_found b f t x l1 l2 task Hft Hsplit Hid Hl1 Hl2).
  set (b1 := put (put b f (l1 ++ l2)) t (task :: get b t)).
  assert (Hb1t : get b1 t = [] ++ task :: get b t)
    by (unfold b1; now rewrite get_put_same).
  assert (Hb1f : get b1 f = l1 ++ l2).
  { unfold b1. rewrite get_put_other by exact Hft. now rewrite get_put_same. }
  rewrite (moveTask_found b1 t f x [] (get b t) task (not_eq_sym Hft) Hb1t Hid
             ltac:(intros u []) Ht).
  rewrite get_put_same, Hb1f. split; [reflexivity|]. split.
  - rewrite get_put_other by (apply not_eq_sym; exact Hft).
    now rewrite get_put_same.
  - intros q Hqf Hqt. rewrite !get_put_other by congruence.
    unfold b1. now rewrite !get_put_other by congruence.
Qed.

Lemma moveTask_back_witness :
  get (run (moveTask Schedule Do id1) (run (moveTask Do Schedule id1) two_tasks)) Do =
    [dentist; milk] /\
  get (run (moveTask Schedule Do id1) (run (moveTask Do Schedule id1) two_tasks))
    Schedule = [] /\
  (forall q, q <> Do -> q <> Schedule ->
     get (run (moveTask Schedule Do id1) (run (moveTask Do Schedule id1) two_tasks)) q =
     get two_tasks q).
Proof.
  apply (moveTask_back two_tasks Do Schedule id1 [milk] [] dentist).
  - discriminate.
  - reflexivity.
  - reflexivity.
  - intros u [<- | []]. discriminate.
  - intros u [].
  - intros u [].
Defined.

(** X18.  A saved edit changes the title, the notes and the due date of the
    task it edits and nothing else: when the draft title is not blank, the
    quadrant keeps its length; a task with the id of the edited one gets the
    trimmed draft title, the trimmed draft notes or none when they are blank,
    the draft due date or none when it is empty, and keeps its id, its done
    flag and its creation time; every other task and quadrant is unchanged. *)
Theorem saveEdit_spec (b : BoardState) (q : QuadrantKey) (t : Task)
    (dT dN dD : jsstring) :
  trim dT <> [] ->
  length (get (run (saveEdit q t dT dN dD) b) q) = length (get b q) /\
  (forall i u, nth_error (get b q) i = Some u ->
     (id u = id t ->
        nth_error (get (run (saveEdit q t dT dN dD) b) q) i =
          Some (mkTask (id u) (trim dT)
                  (if str_truthy (trim dN) then Some (trim dN) else None)
                  (done u) (createdAt u)
                  (if str_truthy dD then Some dD else None))) /\
     (id u <> id t ->
        nth_error (get (run (saveEdit q t dT dN dD) b) q) i = Some u)) /\
  (forall q', q' <> q -> get (run (saveEdit q t dT dN dD) b) q' = get b q').
Proof.
  intros Hne. apply str_truthy_true in Hne.
  unfold run, saveEdit. rewrite Hne. cbn [negb]. unfold updateTask.
  rewrite get_put_same. split; [apply length_map|]. split.
  - intros i u Hi. rewrite nth_error_map, Hi. cbn [option_map]. split; intros Hid.
    + apply str_eqb_eq in Hid. now rewrite Hid.
    + apply str_eqb_neq in Hid. now rewrite Hid.
  - intros q' Hq'. now apply get_put_other.
Qed.

Lemma saveEdit_spec_witness :
  nth_error (get (run (saveEdit Do dentist (js " Call Dr Kim ") (js " ") (js ""))
                    (run (toggleDone Do dentist true) two_tasks)) Do) 1 =
  Some (mkTask id1 (js "Call Dr Kim") None true 1700000000000 None).
Proof.
  apply (proj1 (proj1 (proj2 (saveEdit_spec
                                (run (toggleDone Do dentist true) two_tasks)
                                Do dentist (js " Call Dr Kim ") (js " ") (js "")
                                ltac:(discriminate)))
                  1%nat (mkTask id1 (js "Call dentist") None true 1700000000000 None)
                  eq_refl)).
  reflexivity.
Defined.

(** ** Loading what was loaded and saved *)










